(** * pdf-service: HTML preprocessing, pagination and input validation

    A shallow embedding of the string-processing core of the headless
    converter (pdf-converter.js: [convertHTMLToPDF], [processHTMLContent],
    [generateCSS], [fixCenteringIssues], [renderHTMLCodeBlocks], and the
    reading of the command line in [main]) and of four functions of the
    browser popup (popup.js: the page loop of [generatePDFFromHTML],
    [createCompleteHTMLDocument], [getSettings] and [convertToPDF]).

    JavaScript strings are modelled as lists of code units; the development
    takes the code units below 256 ([ascii]).  All patterns of the source are
    ASCII, and with the [i] flag (without [u]) a pattern letter matches
    exactly its two ASCII cases, so nothing is lost for those inputs.

    The page loop computes with IEEE 754 doubles, as the source does.  The
    loops of the source that are not bounded by their syntax (the page
    loop, the loop of a global [replace]) carry fuel and return [None] when
    it is exhausted; that they return is proved, not assumed. *)

From Stdlib Require Import Ascii String DecimalString.
From Stdlib Require DecimalN SpecFloat.
From Stdlib Require Import ZArith NArith Lia Bool Arith List.
Import ListNotations.

(* ================================================================= *)
(** ** Pagination loop of the popup (popup.js, generatePDFFromHTML) *)

(** The loop computes with JavaScript numbers, that is with IEEE 754
    binary64 values.  They are modelled by the executable specification of
    floating-point arithmetic of the standard library ([SpecFloat]: every
    operation is the exact result rounded to nearest, ties to even). *)

Module Paginate.
Import SpecFloat.
Local Open Scope Z_scope.

Definition number := spec_float.

Definition prec : Z := 53.
Definition emax : Z := 1024.

(** An integer as a number (exact below 2^53). *)
Definition ofZ (z : Z) : number := binary_normalize prec emax z 0 false.

Definition sub (x y : number) : number := SFsub prec emax x y.
Definition mul (x y : number) : number := SFmul prec emax x y.
Definition div (x y : number) : number := SFdiv prec emax x y.

(** [x >= 0]: true for both zeros, false for NaN. *)
Definition geZero (x : number) : bool := SFleb (ofZ 0) x.

(** A jsPDF document: its pages, the current (last) page first.  A page is the
    list of vertical offsets at which the full-height image was placed. *)
Definition page := list number.
Definition pdf := list page.

(** [new jsPDF(...)] starts with one empty page. *)
Definition newPdf : pdf := [[]].

Definition addPage (doc : pdf) : pdf := [] :: doc.

Definition addImage (position : number) (doc : pdf) : pdf :=
  match doc with
  | [] => [[position]]
  | p :: rest => (p ++ [position]) :: rest
  end.

(** The [while (heightLeft >= 0)] loop.  [None] is an exhausted fuel. *)
Fixpoint pageLoop (fuel : nat) (imgHeight pageHeight heightLeft : number)
    (doc : pdf) : option pdf :=
  match fuel with
  | O => if geZero heightLeft then None else Some doc
  | S n =>
      if geZero heightLeft then
        let position := sub heightLeft imgHeight in
        let doc := addPage doc in
        let doc := addImage position doc in
        pageLoop n imgHeight pageHeight (sub heightLeft pageHeight) doc
      else Some doc
  end.

(** Line 411: [(canvas.height * imgWidth) / canvas.width]. *)
Definition imageHeight (canvasHeight canvasWidth : Z) (imgWidth : number)
  : number :=
  div (mul (ofZ canvasHeight) imgWidth) (ofZ canvasWidth).

(** Lines 409-423: the page size of the document is [imgWidth] by
    [pageHeight]; the first image goes on the first page, then the loop. *)
Definition generatePages (fuel : nat) (canvasHeight canvasWidth : Z)
    (imgWidth pageHeight : number) : option pdf :=
  let imgHeight := imageHeight canvasHeight canvasWidth imgWidth in
  let heightLeft := imgHeight in
  let position := ofZ 0 in
  let doc := addImage position newPdf in
  let heightLeft := sub heightLeft pageHeight in
  pageLoop fuel imgHeight pageHeight heightLeft doc.

(** Pages in reading order. *)
Definition pagesOf (doc : pdf) : list page := rev doc.

(** The exact value of a finite number, in units of 2^-1074 (the smallest
    positive double), so that it is an integer. *)
Definition scaled (x : number) : Z :=
  match x with
  | S754_finite s m e => cond_Zopp s (Z.pos m) * 2 ^ (e + 1074)
  | _ => 0
  end.

(** ceil(h / p) for positive [p]. *)
Definition ceilDiv (h p : Z) : Z := (h + p - 1) / p.

(** The page sizes that jsPDF hands to the loop for unit [mm]: it keeps its
    formats in points and divides them by the scale factor [72 / 25.4]. *)
Definition pointsPerMm : number := div (ofZ 72) (div (ofZ 254) (ofZ 10)).

Definition mm (points : Z) : number := div (ofZ points) pointsPerMm.

(** Letter is 612 by 792 points, Legal 612 by 1008; landscape swaps them.
    The pairs are width and height. *)
Definition letterPortrait : number * number := (mm 612, mm 792).
Definition legalLandscape : number * number := (mm 1008, mm 612).

(** html2canvas is asked for a width of 800 at scale 2. *)
Definition canvasWidth : Z := 1600.

End Paginate.

(* ================================================================= *)
(** ** Strings *)

Definition str := list ascii.

Definition L (s : string) : str := list_ascii_of_string s.

(** The double quote character. *)
Definition dq : str := [ascii_of_nat 34].

Definition isLowerLetter (c : ascii) : bool :=
  let n := nat_of_ascii c in (97 <=? n) && (n <=? 122).

(** Canonicalize of the [i] flag, on the ASCII letters. *)
Definition upper (c : ascii) : ascii :=
  if isLowerLetter c then ascii_of_nat (nat_of_ascii c - 32) else c.

Definition eqci (a b : ascii) : bool := Ascii.eqb (upper a) (upper b).

(** A character comparison: exact, or modulo case. *)
Definition cmp (ci : bool) (a b : ascii) : bool :=
  if ci then eqci a b else Ascii.eqb a b.

(** [stripPrefix ci pat s]: the rest of [s] after the prefix [pat]. *)
Fixpoint stripPrefix (ci : bool) (pat s : str) : option str :=
  match pat with
  | [] => Some s
  | p :: pat' =>
      match s with
      | [] => None
      | c :: s' => if cmp ci p c then stripPrefix ci pat' s' else None
      end
  end.

Definition startsWith (ci : bool) (pat s : str) : bool :=
  match stripPrefix ci pat s with Some _ => true | None => false end.

(** First occurrence of [pat] in [s]: the text before it and the text after. *)
Fixpoint indexOf (pat s : str) : option (str * str) :=
  match stripPrefix false pat s with
  | Some rest => Some ([], rest)
  | None =>
      match s with
      | [] => None
      | c :: s' =>
          match indexOf pat s' with
          | Some (a, b) => Some (c :: a, b)
          | None => None
          end
      end
  end.

(** [String.prototype.includes]. *)
Definition includes (pat s : str) : bool :=
  match indexOf pat s with Some _ => true | None => false end.

(** Number of positions of [s] at which [pat] occurs. *)
Fixpoint countOcc (ci : bool) (pat s : str) : nat :=
  match s with
  | [] => if startsWith ci pat [] then 1 else 0
  | _ :: s' => (if startsWith ci pat s then 1 else 0) + countOcc ci pat s'
  end.

(** GetSubstitution for a string pattern: [$$], [$&], [$`] and [$'] are
    expanded in the replacement text, every other character is copied. *)
Fixpoint getSubstitution (matched before after template : str) : str :=
  match template with
  | [] => []
  | c :: t =>
      if Ascii.eqb c "$" then
        match t with
        | d :: t' =>
            if Ascii.eqb d "$" then "$"%char :: getSubstitution matched before after t'
            else if Ascii.eqb d "&" then matched ++ getSubstitution matched before after t'
            else if Ascii.eqb d "`" then before ++ getSubstitution matched before after t'
            else if Ascii.eqb d "'" then after ++ getSubstitution matched before after t'
            else c :: getSubstitution matched before after t
        | [] => [c]
        end
      else c :: getSubstitution matched before after t
  end.

(** [s.replace(pat, template)] with a string pattern: the first occurrence only. *)
Definition replaceString (pat template s : str) : str :=
  match indexOf pat s with
  | Some (a, b) => a ++ getSubstitution pat a b template ++ b
  | None => s
  end.

(** [s.replace(/pat$/, '')] for a literal, case-sensitive [pat]. *)
Fixpoint removeSuffix (pat s : str) : str :=
  match s with
  | [] => []
  | c :: s' =>
      if (length s =? length pat)%nat then
        match stripPrefix false pat s with Some [] => [] | _ => s end
      else c :: removeSuffix pat s'
  end.

(** Number.prototype.toString of a non-negative integer (below 10^21, where
    JavaScript prints all the digits). *)
Definition numberToString (n : N) : str :=
  L (NilZero.string_of_uint (N.to_uint n)).

(* ================================================================= *)
(** ** Regular expressions

    The fragment of the pattern language that the source uses: literal text,
    one-character classes, greedy and lazy repetition of a class, sequence
    and one capture group; every pattern carries the [i] flag.  The matcher
    is the backtracking matcher of the language definition, in
    continuation-passing style. *)

Inductive regex : Type :=
| Chars (s : str)
| Class (p : ascii -> bool)
| Star (p : ascii -> bool)
| StarLazy (p : ascii -> bool)
| Cat (r1 r2 : regex)
| Group (r : regex).

Declare Scope regex_scope.
Delimit Scope regex_scope with regex.
Infix "·" := Cat (at level 41, right associativity) : regex_scope.

Definition mstate : Type := str * option str.
Definition cont : Type := str -> option str -> option mstate.

Fixpoint starGreedy (p : ascii -> bool) (s : str) (k : str -> option mstate)
  : option mstate :=
  match s with
  | c :: s' =>
      if p c then
        match starGreedy p s' k with
        | Some r => Some r
        | None => k s
        end
      else k s
  | [] => k []
  end.

Fixpoint starLazy (p : ascii -> bool) (s : str) (k : str -> option mstate)
  : option mstate :=
  match k s with
  | Some r => Some r
  | None =>
      match s with
      | c :: s' => if p c then starLazy p s' k else None
      | [] => None
      end
  end.

(** The text between the start [s] of a match and its end [rest]. *)
Definition consumed (s rest : str) : str :=
  firstn (length s - length rest) s.

Fixpoint matcher (r : regex) (s : str) (cap : option str) (k : cont)
  : option mstate :=
  match r with
  | Chars pat =>
      match stripPrefix true pat s with
      | Some s' => k s' cap
      | None => None
      end
  | Class p =>
      match s with
      | c :: s' => if p c then k s' cap else None
      | [] => None
      end
  | Star p => starGreedy p s (fun s' => k s' cap)
  | StarLazy p => starLazy p s (fun s' => k s' cap)
  | Cat r1 r2 => matcher r1 s cap (fun s' cap' => matcher r2 s' cap' k)
  | Group r1 =>
      matcher r1 s cap
        (fun s' _ => k s' (Some (consumed s s')))
  end.

(** A match that starts at the first character of [s]: the rest of the input
    and the capture. *)
Definition matchAt (r : regex) (s : str) : option mstate :=
  matcher r s None (fun s' cap => Some (s', cap)).

Record matchResult : Type := MatchResult
  { before : str; matched : str; group1 : option str; after : str }.

(** RegExpBuiltinExec from index 0: the leftmost position with a match. *)
Fixpoint exec (r : regex) (s : str) : option matchResult :=
  match matchAt r s with
  | Some (rest, cap) =>
      Some (MatchResult [] (consumed s rest) cap rest)
  | None =>
      match s with
      | [] => None
      | c :: s' =>
          match exec r s' with
          | Some m => Some (MatchResult (c :: before m) (matched m) (group1 m) (after m))
          | None => None
          end
      end
  end.

(** [re.test(s)] on a fresh pattern object. *)
Definition test (r : regex) (s : str) : bool :=
  match exec r s with Some _ => true | None => false end.

(** [s.replace(re, f)] for a global pattern and a replacement function of the
    match and its group.  The loop runs [exec] from the end of the previous
    match (one further when that match was empty) until it fails; [None] is
    an exhausted fuel. *)
Fixpoint replaceAll (fuel : nat) (r : regex) (f : str -> option str -> str)
    (s : str) : option str :=
  match exec r s with
  | None => Some s
  | Some m =>
      match fuel with
      | O => None
      | S n =>
          let out := before m ++ f (matched m) (group1 m) in
          match matched m, after m with
          | [], [] => Some out
          | [], c :: rest =>
              option_map (fun t => out ++ c :: t) (replaceAll n r f rest)
          | _ :: _, rest =>
              option_map (fun t => out ++ t) (replaceAll n r f rest)
          end
      end
  end.

(** The loop makes at most one step per character. *)
Definition replaceRegex (r : regex) (f : str -> option str -> str) (s : str)
  : option str :=
  replaceAll (S (length s)) r f s.

(** Character classes of the patterns. *)
Definition notGt (c : ascii) : bool := negb (Ascii.eqb c ">").
Definition isQuote (c : ascii) : bool :=
  Ascii.eqb c (ascii_of_nat 34) || Ascii.eqb c "'".
Definition notQuote (c : ascii) : bool := negb (isQuote c).
Definition anyChar (c : ascii) : bool := true.

(** [\s]: tab, line feed, vertical tab, form feed, carriage return, space and
    the no-break space. *)
Definition isSpace (c : ascii) : bool :=
  let n := nat_of_ascii c in
  ((9 <=? n) && (n <=? 13)) || (n =? 32) || (n =? 160).

(* ================================================================= *)
(** ** The headless converter (pdf-converter.js) *)

Module Converter.
Local Open Scope regex_scope.
Local Open Scope list_scope.

(** The configuration object of [convertHTMLToPDF] and [processHTMLContent].
    The margin is a non-negative whole number of millimetres, as the command
    line reads it with [parseInt]. *)
Record config : Type := Config
  { pageSize : str;
    orientation : str;
    margin : N;
    includeFonts : bool;
    renderCodeBlocks : bool }.

(** *** generateCSS: the pieces of the template literal *)

Definition cssPart0 : str :=
  L "
    <style>
        /* Import Liberation Serif font from Google Fonts if enabled */
        /* This font provides excellent readability and professional appearance */
        ".

Definition cssPart1 : str :=
  L "
        
        /* Base styles for the document body */
        /* These styles establish the foundation for all content */
        body {
            font-family: ".

Definition cssPart2 : str :=
  L " !important;
            font-size: 12pt; /* Standard document font size */
            line-height: 1.4; /* Comfortable reading line height */
            margin: ".

Definition cssPart3 : str :=
  L "mm; /* Apply configured margins */
            color: #333; /* Dark gray for good readability */
            background: white; /* Clean white background */
        }
        
        /* Heading styles with proper hierarchy and spacing */
        /* Headings use the same font family for consistency */
        h1, h2, h3, h4, h5, h6 {
            font-family: ".

Definition cssPart4 : str :=
  L " !important;
            color: #000000 !important; /* Pure black for headings - no blue tint */
            background: none !important; /* Remove any background gradients */
            border: none !important; /* Remove any borders */
            text-decoration: none !important; /* Remove any underlines */
            box-shadow: none !important; /* Remove any shadows */
            margin-top: 1.5em; /* Generous top margin */
            margin-bottom: 0.5em; /* Tighter bottom margin */
            page-break-after: avoid; /* Prevent headings from being orphaned at page breaks */
        }
        
        /* Specific heading sizes for clear hierarchy */
        h1 { font-size: 24pt; } /* Main title */
        h2 { font-size: 20pt; } /* Section headers */
        h3 { font-size: 16pt; } /* Subsection headers */
        
        /* Apply consistent font family to all text elements */
        /* This ensures typography consistency throughout the document */
        p, div, span, li, td, th {
            font-family: ".

Definition cssPart5 : str :=
  L " !important;
        }
        
        /* Code blocks styling for technical content */
        /* Uses monospace font for code readability */
        pre, code {
            font-family: 'Courier New', 'Consolas', 'Monaco', monospace !important;
            background-color: #f8f9fa; /* Light gray background */
            padding: 8px; /* Internal spacing */
            border-radius: 4px; /* Rounded corners */
            border: 1px solid #e9ecef; /* Subtle border */
            white-space: pre-wrap; /* Preserve whitespace and wrap long lines */
            word-wrap: break-word; /* Break long words to prevent overflow */
        }
        
        /* Table styles for data presentation */
        /* Ensures tables are well-formatted and readable */
        table {
            border-collapse: collapse; /* Remove spacing between cells */
            width: 100%; /* Full width tables */
            margin: 1em 0; /* Vertical spacing around tables */
            page-break-inside: avoid; /* Keep tables together on same page */
        }
        
        /* Table cell styling */
        th, td {
            border: 1px solid #ddd; /* Light gray borders */
            padding: 8px; /* Cell padding */
            text-align: left; /* Left-aligned text */
        }
        
        /* Table header styling */
        th {
            background-color: #f8f9fa; /* Light background for headers */
            font-weight: bold; /* Bold text for headers */
        }
        
        /* Image styling for media content */
        /* Ensures images scale properly and don't break across pages */
        img {
            max-width: 100%; /* Prevent images from overflowing */
            height: auto; /* Maintain aspect ratio */
            page-break-inside: avoid; /* Keep images with their content */
        }
        
        /* List styling for organized content */
        /* Provides proper indentation and spacing for lists */
        ul, ol {
            margin: 1em 0; /* Vertical spacing around lists */
            padding-left: 2em; /* Indent list items */
        }
        
        /* List item styling */
        li {
            margin: 0.5em 0; /* Spacing between list items */
        }
        
        /* Blockquote styling for citations and quotes */
        /* Provides visual distinction for quoted content */
        blockquote {
            border-left: 4px solid #007bff; /* Blue left border */
            margin: 1em 0; /* Vertical spacing */
            padding-left: 1em; /* Left padding for content */
            font-style: italic; /* Italic text for quotes */
            color: #666; /* Gray color for subtle appearance */
        }
        
        /* Page break controls for layout management */
        /* These classes can be used in HTML to control page breaks */
        .page-break {
            page-break-before: always; /* Force page break before element */
        }
        
        .no-break {
            page-break-inside: avoid; /* Prevent element from breaking across pages */
        }
        
        /* Print-specific styles for PDF optimization */
        /* These styles ensure optimal rendering in PDF format */
        @media print {
            body {
                margin: 0; /* Remove body margins for print */
                padding: ".

Definition cssPart6 : str :=
  L "mm; /* Apply margins as padding */
            }
            
            /* Ensure good contrast and color accuracy for printing */
            /* This is crucial for PDF generation quality */
            * {
                -webkit-print-color-adjust: exact !important;
                color-adjust: exact !important;
            }
        }
    </style>".

Definition cssImport : str :=
  L "
        @import url('https://fonts.googleapis.com/css2?family=Liberation+Serif:ital,wght@0,400;0,700;1,400;1,700&display=swap');
        ".

Definition fontsWith : str :=
  L "'Liberation Serif', 'Times New Roman', 'Georgia', serif".

Definition fontsWithout : str :=
  L "'Times New Roman', 'Georgia', serif".

Definition shellHead : str :=
  L "<!DOCTYPE html>
<html lang=" ++ dq ++ L "en" ++ dq ++ L ">
<head>
    <meta charset=" ++ dq ++ L "UTF-8" ++ dq ++ L ">
    <meta name=" ++ dq ++ L "viewport" ++ dq ++ L " content=" ++ dq ++ L "width=device-width, initial-scale=1.0" ++ dq ++ L ">
    <title>HTML to PDF</title>
    ".

Definition shellMid : str :=
  L "
</head>
<body>
    ".

Definition shellTail : str :=
  L "
</body>
</html>".

Definition previewHead : str :=
  L "
                <div style=" ++ dq ++ L "border: 1px solid #ddd; padding: 10px; margin: 10px 0; background-color: #f9f9f9;" ++ dq ++ L ">
                    <div style=" ++ dq ++ L "font-weight: bold; margin-bottom: 5px; color: #666;" ++ dq ++ L ">Rendered HTML Preview:</div>
                    <div>".

Definition previewTail : str :=
  L "</div>
                </div>".

Definition fontFamily (cfg : config) : str :=
  if includeFonts cfg then fontsWith else fontsWithout.

Definition generateCSS (cfg : config) : str :=
  cssPart0 ++ (if includeFonts cfg then cssImport else []) ++
  cssPart1 ++ fontFamily cfg ++
  cssPart2 ++ numberToString (margin cfg) ++
  cssPart3 ++ fontFamily cfg ++
  cssPart4 ++ fontFamily cfg ++
  cssPart5 ++ numberToString (margin cfg) ++
  cssPart6.

(** *** fixCenteringIssues *)

(** The part of both patterns between the parentheses: a [div] whose
    [style] attribute holds [margin: ... auto], up to the next [</div>]. *)
Definition innerDivPattern : regex :=
  Chars (L "<div") · Star notGt · Chars (L "style") · Star isSpace ·
  Chars (L "=") · Star isSpace · Class isQuote · Star notQuote ·
  Chars (L "margin") · Star isSpace · Chars (L ":") · Star isSpace ·
  Star notQuote · Chars (L "auto") · Star notQuote · Class isQuote ·
  Star notGt · Chars (L ">") · StarLazy anyChar · Chars (L "</div>").

(** The opening tag of a wrapper with class [content], and of any wrapper. *)
Definition contentTagPattern : regex :=
  Chars (L "<div") · Star notGt · Chars (L "class") · Star isSpace ·
  Chars (L "=") · Star isSpace · Class isQuote · Chars (L "content") ·
  Class isQuote · Star notGt · Chars (L ">").

Definition anyTagPattern : regex :=
  Chars (L "<div") · Star notGt · Chars (L ">").

Definition centeringPattern : regex :=
  contentTagPattern · Star isSpace ·
  Group innerDivPattern · Star isSpace · Chars (L "</div>").

Definition generalCenteringPattern : regex :=
  anyTagPattern · Star isSpace ·
  Group innerDivPattern · Star isSpace · Chars (L "</div>").

(** The replacement text ['$1']. *)
Definition groupText (g : option str) : str :=
  match g with Some t => t | None => [] end.

Definition contentReplacer (mt : str) (g : option str) : str := groupText g.

(** Lines 479-486: the text of the wrapper, and the two tests. *)
Definition wrapperDivOf (mt innerDiv : str) : str :=
  removeSuffix (L "</div>") (replaceString innerDiv [] mt).

Definition hasMinimalStyling (wrapperDiv : str) : bool :=
  negb (includes (L "style=") wrapperDiv) ||
  includes (L "style=" ++ dq ++ dq) wrapperDiv ||
  includes (L "style=''") wrapperDiv.

Definition hasCenteringStyles (innerDiv : str) : bool :=
  includes (L "margin:") innerDiv &&
  (includes (L "auto") innerDiv || includes (L "center") innerDiv).

(** The replacement function of the general pattern (lines 477-495). *)
Definition generalReplacer (mt : str) (g : option str) : str :=
  let innerDiv := groupText g in
  let wrapperDiv := wrapperDivOf mt innerDiv in
  if hasMinimalStyling wrapperDiv && hasCenteringStyles innerDiv
  then innerDiv else mt.

Definition fixCenteringIssues (htmlContent : str) : option str :=
  let fixedContent := htmlContent in
  match
    (if test centeringPattern fixedContent
     then replaceRegex centeringPattern contentReplacer fixedContent
     else Some fixedContent)
  with
  | None => None
  | Some fixedContent =>
      if test generalCenteringPattern fixedContent
      then replaceRegex generalCenteringPattern generalReplacer fixedContent
      else Some fixedContent
  end.

(** *** renderHTMLCodeBlocks *)

Definition codeBlockPattern : regex :=
  Chars (L "<pre><code>") · Group (StarLazy anyChar) · Chars (L "</code></pre>").

Definition preview (codeContent : str) : str :=
  previewHead ++ codeContent ++ previewTail.

Definition codeBlockReplacer (mt : str) (g : option str) : str :=
  let codeContent := groupText g in
  if includes (L "<") codeContent && includes (L ">") codeContent
  then mt ++ preview codeContent
  else mt.

Definition renderHTMLCodeBlocks (htmlContent : str) : option str :=
  replaceRegex codeBlockPattern codeBlockReplacer htmlContent.

(** *** processHTMLContent *)

Definition tagPattern (name : string) : regex :=
  Chars (L "<" ++ L name) · Star notGt · Chars (L ">").

(** Lines 225-227: the three tests of the document shell. *)
Definition hasHTML (html : str) : bool := test (tagPattern "html") html.
Definition hasHead (html : str) : bool := test (tagPattern "head") html.
Definition hasBody (html : str) : bool := test (tagPattern "body") html.

Definition hasShell (html : str) : bool :=
  hasHTML html && hasHead html && hasBody html.

(** The replacement text of line 250. *)
Definition spliceText (cfg : config) : str :=
  generateCSS cfg ++ L "
</head>".

(** Lines 229-252: wrap a fragment, or splice the style block before the
    first [</head>] of a complete document. *)
Definition injectStyle (cfg : config) (htmlContent : str) : str :=
  if negb (hasHTML htmlContent) || negb (hasHead htmlContent)
     || negb (hasBody htmlContent)
  then
    shellHead ++ generateCSS cfg ++ shellMid ++ htmlContent ++ shellTail
  else
    replaceString (L "</head>") (spliceText cfg) htmlContent.

Definition processHTMLContent (htmlContent : str) (cfg : config) : option str :=
  match fixCenteringIssues htmlContent with
  | None => None
  | Some htmlContent =>
      let processedHTML := injectStyle cfg htmlContent in
      if renderCodeBlocks cfg then renderHTMLCodeBlocks processedHTML
      else Some processedHTML
  end.

(** *** convertHTMLToPDF

    The arguments are JavaScript values; the headless browser is an
    environment that tells which of its calls fail.  The result is the
    sequence of browser calls made and the value returned or the error
    thrown.  Console output is not modelled. *)

Inductive value : Type :=
| VUndefined
| VNull
| VBool (b : bool)
| VNumber (n : Z)
| VNaN
| VString (s : str)
| VObject.

(** ToBoolean. *)
Definition truthy (v : value) : bool :=
  match v with
  | VUndefined | VNull | VNaN => false
  | VBool b => b
  | VNumber n => negb (n =? 0)%Z
  | VString s => match s with [] => false | _ => true end
  | VObject => true
  end.

(** [typeof v === 'string']. *)
Definition isString (v : value) : bool :=
  match v with VString _ => true | _ => false end.

Definition stringOf (v : value) : str :=
  match v with VString s => s | _ => [] end.

(** The [options] argument: a property that is absent is [None]. *)
Record options : Type := Options
  { optPageSize : option str;
    optOrientation : option str;
    optMargin : option N;
    optIncludeFonts : option bool;
    optRenderCodeBlocks : option bool }.

Definition orElse {A : Type} (o : option A) (d : A) : A :=
  match o with Some a => a | None => d end.

(** Lines 101-108: the defaults, then the spread of [options] over them. *)
Definition mergeOptions (o : options) : config :=
  let defaults :=
    Config
      (match optPageSize o with
       | Some (c :: t) => c :: t | _ => L "A4" end)
      (match optOrientation o with
       | Some (c :: t) => c :: t | _ => L "portrait" end)
      (match optMargin o with
       | Some m => if (m =? 0)%N then 10%N else m | None => 10%N end)
      (match optIncludeFonts o with Some false => false | _ => true end)
      (match optRenderCodeBlocks o with Some false => false | _ => true end) in
  Config
    (orElse (optPageSize o) (pageSize defaults))
    (orElse (optOrientation o) (orientation defaults))
    (orElse (optMargin o) (margin defaults))
    (orElse (optIncludeFonts o) (includeFonts defaults))
    (orElse (optRenderCodeBlocks o) (renderCodeBlocks defaults)).

Inductive call : Type :=
| Launch
| NewPage
| SetContent (html : str)
| Pdf (path format : str) (landscape : bool) (marginMm : N)
| Close.

Inductive error : Type :=
| InputError (message : str)
| BrowserError (failed : call)
| Exhausted.

(** Which calls of the headless browser throw. *)
Record browser : Type := Browser
  { launchFails : bool;
    newPageFails : bool;
    setContentFails : bool;
    pdfFails : bool;
    closeFails : bool }.

Definition outcome : Type := (list call * (error + str))%type.

(** One call of the browser: it is recorded, and it throws or returns. *)
Definition perform (c : call) (fails : bool) (next : outcome) : outcome :=
  if fails then ([c], inl (BrowserError c))
  else let (trace, r) := next in (c :: trace, r).

(** The [finally] block when [browser] is set: close, and the error of
    [close] replaces the result. *)
Definition finallyClose (env : browser) (o : outcome) : outcome :=
  let (trace, r) := o in
  (trace ++ [Close],
   if closeFails env then inl (BrowserError Close) else r).

(** Lines 138-176, after the launch. *)
Definition renderPage (env : browser) (html path : str) (cfg : config)
  : outcome :=
  perform NewPage (newPageFails env)
    match processHTMLContent html cfg with
    | None => ([], inl Exhausted)
    | Some processedHTML =>
        perform (SetContent processedHTML) (setContentFails env)
          (perform
             (Pdf path (pageSize cfg)
                (if list_eq_dec ascii_dec (orientation cfg) (L "landscape")
                 then true else false)
                (margin cfg))
             (pdfFails env)
             ([], inr path))
    end.

Definition convertHTMLToPDF (env : browser) (htmlContent outputPath : value)
    (opts : options) : outcome :=
  if negb (truthy htmlContent) || negb (isString htmlContent) then
    ([], inl (InputError (L "htmlContent must be a non-empty string")))
  else if negb (truthy outputPath) || negb (isString outputPath) then
    ([], inl (InputError (L "outputPath must be a non-empty string")))
  else
    let cfg := mergeOptions opts in
    if launchFails env then ([Launch], inl (BrowserError Launch))
    else
      let (trace, r) :=
        finallyClose env
          (renderPage env (stringOf htmlContent) (stringOf outputPath) cfg) in
      (Launch :: trace, r).

(** A value that is a string with at least one character. *)
Definition nonEmptyString (v : value) : Prop :=
  exists c s, v = VString (c :: s).

(** The browser was never asked for anything. *)
Definition noBrowserCall (o : outcome) : Prop := fst o = [].

Definition isInputError (o : outcome) : Prop :=
  exists message, snd o = inl (InputError message).

End Converter.

(* ================================================================= *)
(** ** The popup (popup.js): createCompleteHTMLDocument *)

Module Popup.
Local Open Scope list_scope.

(** The object that [getSettings] returns. *)
Record settings : Type := Settings
  { pageSize : str;
    orientation : str;
    margin : N;
    filename : str }.

(** The pieces of the two template literals, around [settings.margin] and
    [html]. *)

Definition spliceHead : str :=
  L "
                <style>
                    body {
                        font-family: 'Liberation Serif', 'Times New Roman', 'Georgia', serif !important;
                        font-size: 12pt;
                        line-height: 1.4;
                        margin: ".

Definition spliceTail : str :=
  L "mm;
                    }
                    h1, h2, h3, h4, h5, h6 {
                        font-family: 'Liberation Serif', 'Times New Roman', 'Georgia', serif !important;
                    }
                    p, div, span, li, td, th {
                        font-family: 'Liberation Serif', 'Times New Roman', 'Georgia', serif !important;
                    }
                    pre, code {
                        font-family: 'Courier New', 'Consolas', 'Monaco', monospace !important;
                    }
                </style>
            </head>".

Definition documentHead : str :=
  L "<!DOCTYPE html>
<html lang=" ++ dq ++ L "en" ++ dq ++ L ">
<head>
    <meta charset=" ++ dq ++ L "UTF-8" ++ dq ++ L ">
    <meta name=" ++ dq ++ L "viewport" ++ dq ++ L " content=" ++ dq ++ L "width=device-width, initial-scale=1.0" ++ dq ++ L ">
    <title>HTML to PDF</title>
    <style>
        body {
            font-family: 'Liberation Serif', 'Times New Roman', 'Georgia', serif !important;
            font-size: 12pt;
            line-height: 1.4;
            margin: ".

Definition documentMid : str :=
  L "mm;
            color: #333;
        }
        h1, h2, h3, h4, h5, h6 {
            font-family: 'Liberation Serif', 'Times New Roman', 'Georgia', serif !important;
            color: #2c3e50;
            margin-top: 1.5em;
            margin-bottom: 0.5em;
        }
        h1 { font-size: 24pt; }
        h2 { font-size: 20pt; }
        h3 { font-size: 16pt; }
        p, div, span, li, td, th {
            font-family: 'Liberation Serif', 'Times New Roman', 'Georgia', serif !important;
        }
        pre, code {
            font-family: 'Courier New', 'Consolas', 'Monaco', monospace !important;
            background-color: #f8f9fa;
            padding: 8px;
            border-radius: 4px;
            border: 1px solid #e9ecef;
        }
        table {
            border-collapse: collapse;
            width: 100%;
            margin: 1em 0;
        }
        th, td {
            border: 1px solid #ddd;
            padding: 8px;
            text-align: left;
        }
        th {
            background-color: #f8f9fa;
            font-weight: bold;
        }
        img {
            max-width: 100%;
            height: auto;
        }
        ul, ol {
            margin: 1em 0;
            padding-left: 2em;
        }
        li {
            margin: 0.5em 0;
        }
        blockquote {
            border-left: 4px solid #007bff;
            margin: 1em 0;
            padding-left: 1em;
            font-style: italic;
            color: #666;
        }
    </style>
</head>
<body>
    ".

Definition documentTail : str :=
  L "
</body>
</html>".

(** The replacement text of the complete-document branch. *)
Definition spliceText (st : settings) : str :=
  spliceHead ++ numberToString (margin st) ++ spliceTail.

(** The three tests are those of the converter. *)
Definition createCompleteHTMLDocument (html : str) (st : settings) : str :=
  let hasHTML := test (Converter.tagPattern "html") html in
  let hasHead := test (Converter.tagPattern "head") html in
  let hasBody := test (Converter.tagPattern "body") html in
  if hasHTML && hasHead && hasBody then
    replaceString (L "</head>") (spliceText st) html
  else
    documentHead ++ numberToString (margin st) ++ documentMid ++ html ++
    documentTail.

End Popup.

(* ================================================================= *)
(** ** Notions used in the statements and proofs *)

(** *** Words of a pattern *)

(** The words of a pattern, with the capture before and after. *)
Inductive sem : regex -> str -> option str -> option str -> Prop :=
| SemChars pat w cap :
    stripPrefix true pat w = Some [] -> sem (Chars pat) w cap cap
| SemClass p c cap :
    p c = true -> sem (Class p) [c] cap cap
| SemStar p w cap :
    forallb p w = true -> sem (Star p) w cap cap
| SemStarLazy p w cap :
    forallb p w = true -> sem (StarLazy p) w cap cap
| SemCat r1 r2 w1 w2 c0 c1 c2 :
    sem r1 w1 c0 c1 -> sem r2 w2 c1 c2 -> sem (Cat r1 r2) (w1 ++ w2) c0 c2
| SemGroup r w c0 c1 :
    sem r w c0 c1 -> sem (Group r) w c0 (Some w).

(** [w] is a word of [r], whatever the captures. *)
Definition word (r : regex) (w : str) : Prop :=
  exists c0 c1, sem r w c0 c1.

(** *** Scanning a text *)

(** [pat] is seen to differ from the text within [u]. *)
Fixpoint mismatch (ci : bool) (pat u : str) : bool :=
  match pat, u with
  | p :: pat', c :: u' => if cmp ci p c then mismatch ci pat' u' else true
  | _, _ => false
  end.

(** At no position of [x] can an occurrence of [pat] start, whatever text
    follows [x]. *)
Fixpoint noStartB (ci : bool) (pat x : str) : bool :=
  match x with
  | [] => true
  | _ :: x' => mismatch ci pat x && noStartB ci pat x'
  end.

(** [P] holds of every non-empty suffix of [x], continued by [y]. *)
Definition everySuffix (P : str -> Prop) (x y : str) : Prop :=
  forall x1 c x2, x = x1 ++ c :: x2 -> P (c :: x2 ++ y).

Definition isDigit (c : ascii) : bool :=
  let n := nat_of_ascii c in (48 <=? n) && (n <=? 57).

Definition notDollar (c : ascii) : bool := negb (Ascii.eqb c "$").

Definition noAngle (c : ascii) : bool :=
  negb (Ascii.eqb c "<") && negb (Ascii.eqb c ">").

(** A match and a result of [exec] in front of a further text [t]. *)
Definition addTail (t : str) (m : mstate) : mstate := (fst m ++ t, snd m).

Definition addAfter (t : str) (m : matchResult) : matchResult :=
  MatchResult (before m) (matched m) (group1 m) (after m ++ t).

(** *** The pieces of a global replace *)

(** One piece of the input of a global [replace]: text that is copied, or a
    match with its group. *)
Inductive edit : Type :=
| Copied (text : str)
| Matched (text : str) (group : option str).

Definition editSource (e : edit) : str :=
  match e with Copied t => t | Matched t _ => t end.

Definition editOutput (f : str -> option str -> str) (e : edit) : str :=
  match e with Copied t => t | Matched t g => f t g end.

Definition editOf (r : regex) (e : edit) : Prop :=
  match e with Copied _ => True | Matched t g => sem r t None g end.

(** *** Code blocks *)

Definition openTags : str := L "<pre><code>".
Definition closeTags : str := L "</code></pre>".

(** The optional step of [processHTMLContent]. *)
Definition renderIf (cfg : Converter.config) (html : str) : option str :=
  if Converter.renderCodeBlocks cfg then Converter.renderHTMLCodeBlocks html
  else Some html.

(** A piece of the input of [renderHTMLCodeBlocks]: plain text, or a code
    block with its opening tags, content and closing tags as they are
    written in the input. *)
Inductive piece : Type :=
| Plain (text : str)
| Block (opening content closing : str).

Definition pieceSource (p : piece) : str :=
  match p with
  | Plain t => t
  | Block o c cl => o ++ c ++ cl
  end.

Definition looksLikeHTML (content : str) : bool :=
  includes (L "<") content && includes (L ">") content.

Definition pieceOutput (p : piece) : str :=
  match p with
  | Plain t => t
  | Block o c cl =>
      (o ++ c ++ cl) ++
      (if looksLikeHTML c then Converter.preview c else [])
  end.

(** The tags of a block are the literal ones, up to case. *)
Definition literalTags (p : piece) : Prop :=
  match p with
  | Plain _ => True
  | Block o _ cl =>
      stripPrefix true openTags o = Some [] /\
      stripPrefix true closeTags cl = Some []
  end.

(** A code block whose tags carry the attribute texts [attrs1] and [attrs2]. *)
Definition attributedBlock (attrs1 attrs2 content : str) : str :=
  L "<pre" ++ attrs1 ++ L "><code" ++ attrs2 ++ L ">" ++ content ++ closeTags.

(** *** Wrappers *)

(** One piece of the input of [fixCenteringIssues]: text that is kept, or a
    wrapper (opening tag, blanks, child, blanks, closing tag) that is
    replaced by its child. *)
Inductive removal : Type :=
| Kept (text : str)
| Removed (openTag blank1 child blank2 closeTag : str).

Definition removalSource (r : removal) : str :=
  match r with
  | Kept t => t
  | Removed o w1 c w2 cl => o ++ w1 ++ c ++ w2 ++ cl
  end.

Definition removalOutput (r : removal) : str :=
  match r with
  | Kept t => t
  | Removed _ _ c _ _ => c
  end.

(** The shape of a removed wrapper, for a pattern [tag] of its opening tag. *)
Definition wrapperShape (tag : regex) (r : removal) : Prop :=
  match r with
  | Kept _ => True
  | Removed o w1 c w2 cl =>
      word tag o /\ forallb isSpace w1 = true /\
      word Converter.innerDivPattern c /\ forallb isSpace w2 = true /\
      stripPrefix true (L "</div>") cl = Some []
  end.

(** The two tests of the general replacement hold of a removed wrapper. *)
Definition passesTests (r : removal) : Prop :=
  match r with
  | Kept _ => True
  | Removed o w1 c w2 cl =>
      Converter.hasMinimalStyling
        (Converter.wrapperDivOf (o ++ w1 ++ c ++ w2 ++ cl) c) = true /\
      Converter.hasCenteringStyles c = true
  end.

(** *** The style block and the documents *)

(** The constant pieces of the style block, after the first one. *)
Definition cssRestPieces : list str :=
  [Converter.cssImport; Converter.cssPart1;
   Converter.fontsWith; Converter.fontsWithout; Converter.cssPart2;
   Converter.cssPart3; Converter.cssPart4; Converter.cssPart5;
   Converter.cssPart6].

Definition cssPieces : list str := Converter.cssPart0 :: cssRestPieces.

(** The start of every style block, and the indentation before it. *)
Definition styleMark : str := L "<style".

Definition indent : str := L "
    ".

(** The style block is [indent], [styleMark], [cssPart0Tail] and
    [cssRest]. *)
Definition cssPart0Tail : str := skipn 11 Converter.cssPart0.

Definition cssRest (cfg : Converter.config) : str :=
  (if Converter.includeFonts cfg then Converter.cssImport else []) ++
  Converter.cssPart1 ++ Converter.fontFamily cfg ++
  Converter.cssPart2 ++ numberToString (Converter.margin cfg) ++
  Converter.cssPart3 ++ Converter.fontFamily cfg ++
  Converter.cssPart4 ++ Converter.fontFamily cfg ++
  Converter.cssPart5 ++ numberToString (Converter.margin cfg) ++
  Converter.cssPart6.

Definition headClose : str := L "</head>".

(** [shellMid] is a line feed, [</head>] and the opening of the body. *)
Definition newline : str := L "
".

Definition bodyOpen : str := L "
<body>
    ".

(** The document that [injectStyle] builds around a fragment. *)
Definition wrapped (cfg : Converter.config) (body : str) : str :=
  Converter.shellHead ++ Converter.generateCSS cfg ++ Converter.shellMid ++
  body ++ Converter.shellTail.

(** The same document with the style block twice. *)
Definition wrappedTwice (cfg : Converter.config) (body : str) : str :=
  Converter.shellHead ++ Converter.generateCSS cfg ++ newline ++
  Converter.generateCSS cfg ++ Converter.shellMid ++
  body ++ Converter.shellTail.

(** A complete document with the style block in front of its [</head>]. *)
Definition spliced (cfg : Converter.config) (a b : str) : str :=
  a ++ Converter.generateCSS cfg ++ newline ++ headClose ++ b.

(** The popup's document around a fragment, and the same document after a
    second run: the style block of the complete-document branch stands in
    front of the [</head>] of the shell. *)
Definition popupBeforeHeadClose : str := firstn 1500 Popup.documentMid.
Definition popupAfterHeadClose : str := skipn 1507 Popup.documentMid.

Definition popupWrapped (st : Popup.settings) (body : str) : str :=
  Popup.documentHead ++ numberToString (Popup.margin st) ++
  Popup.documentMid ++ body ++ Popup.documentTail.

Definition popupWrappedTwice (st : Popup.settings) (body : str) : str :=
  Popup.documentHead ++ numberToString (Popup.margin st) ++
  popupBeforeHeadClose ++ Popup.spliceText st ++ popupAfterHeadClose ++
  body ++ Popup.documentTail.

(** *** The examples *)

(** The default settings: A4, portrait, 10 mm, fonts and previews. *)
Definition defaultConfig : Converter.config :=
  Converter.Config (L "A4") (L "portrait") 10 true true.

Definition popupSettings : Popup.settings :=
  Popup.Settings (L "A4") (L "portrait") 10 (L "document.pdf").

Definition centredChild : str :=
  L "<div style=" ++ dq ++ L "margin:auto" ++ dq ++ L ">X</div>".

Definition contentWrapper : str :=
  L "<div class=" ++ dq ++ L "content" ++ dq ++ L ">" ++ centredChild ++
  L "</div>".

Definition styledContentWrapper : str :=
  L "<div class=" ++ dq ++ L "content" ++ dq ++ L " style=" ++ dq ++
  L "border:1px solid red" ++ dq ++ L ">" ++ centredChild ++ L "</div>".

Definition spacedStyleWrapper : str :=
  L "<div style = " ++ dq ++ L "border:1px solid red" ++ dq ++ L ">" ++
  centredChild ++ L "</div>".

Definition styledWrapper : str :=
  L "<div style=" ++ dq ++ L "border:1px solid red" ++ dq ++ L ">" ++
  centredChild ++ L "</div>".

Definition escapedCodeBlock : str :=
  L "<pre><code>&lt;h1&gt;Hi&lt;/h1&gt;</code></pre>".

Definition rawCodeBlock : str :=
  L "<pre><code><h1>Hi</h1></code></pre>".

Definition previewLabel : str := L "Rendered HTML Preview".

Definition upperCaseDocument : str :=
  L "<HTML><HEAD></HEAD><BODY>x</BODY></HTML>".

Definition fragment : str := L "<p>Hi</p>".

(* ================================================================= *)
(** ** parseInt

    [parseInt(s)] without a radix: leading blanks, a sign, the prefix [0x]
    or [0X] of a hexadecimal numeral, then the longest run of digits of the
    radix; [NaN] when that run is empty.  The number is the mathematical
    value of the digits; JavaScript rounds it to a double, which changes
    nothing below 2^53, and it keeps the sign of a zero, which no code here
    observes. *)

Fixpoint skipSpace (s : str) : str :=
  match s with
  | c :: s' => if isSpace c then skipSpace s' else s
  | [] => []
  end.

(** The value of a digit or letter as a digit of [radix]. *)
Definition digitOf (radix : N) (c : ascii) : option N :=
  let n := N_of_ascii c in
  let d :=
    if ((48 <=? n) && (n <=? 57))%N then Some (n - 48)%N
    else if ((97 <=? n) && (n <=? 122))%N then Some (n - 87)%N
    else if ((65 <=? n) && (n <=? 90))%N then Some (n - 55)%N
    else None in
  match d with
  | Some v => if (v <? radix)%N then Some v else None
  | None => None
  end.

(** The value of the longest prefix of digits of [s], after the digits that
    gave [acc]; [None] when there was no digit at all. *)
Fixpoint digitsValue (radix : N) (acc : option N) (s : str) : option N :=
  match s with
  | c :: s' =>
      match digitOf radix c with
      | Some d =>
          digitsValue radix
            (Some (match acc with Some a => a * radix + d | None => d end)%N) s'
      | None => acc
      end
  | [] => acc
  end.

Definition parseInt (inputString : str) : Converter.value :=
  let s := skipSpace inputString in
  let sign :=
    match s with
    | c :: _ => if Ascii.eqb c "-" then (-1)%Z else 1%Z
    | [] => 1%Z
    end in
  let s :=
    match s with
    | c :: s' => if Ascii.eqb c "+" || Ascii.eqb c "-" then s' else s
    | [] => []
    end in
  let hex :=
    match s with
    | z :: x :: _ => Ascii.eqb z "0" && (Ascii.eqb x "x" || Ascii.eqb x "X")
    | _ => false
    end in
  let radix := if hex then 16%N else 10%N in
  let s := if hex then skipn 2 s else s in
  match digitsValue radix None s with
  | Some n => Converter.VNumber (sign * Z.of_N n)
  | None => Converter.VNaN
  end.

(** [a === b] on strings. *)
Definition strEq (a b : str) : bool :=
  if list_eq_dec ascii_dec a b then true else false.

(* ================================================================= *)
(** ** The command line of the converter (pdf-converter.js, main)

    The arguments of the command line up to the point where the input is
    read: the check of their number and the loop over the options. *)

Module Cli.
Local Open Scope list_scope.

(** [s.split(sep)] for a separator of one character. *)
Fixpoint split (sep : ascii) (s : str) : list str :=
  match s with
  | [] => [[]]
  | c :: s' =>
      if Ascii.eqb c sep then [] :: split sep s'
      else
        match split sep s' with
        | w :: ws => (c :: w) :: ws
        | [] => [[c]]
        end
  end.

(** [a[i]]: [undefined] past the end of the array. *)
Definition item (a : list str) (i : nat) : Converter.value :=
  match nth_error a i with
  | Some s => Converter.VString s
  | None => Converter.VUndefined
  end.

(** [parseInt(v)]: the text [undefined] has no digit. *)
Definition parseIntOf (v : Converter.value) : Converter.value :=
  match v with
  | Converter.VString s => parseInt s
  | _ => Converter.VNaN
  end.

(** The object [config] of [main] (lines 615-621); what [split] and
    [parseInt] return is stored as it is. *)
Record config : Type := Config
  { pageSize : Converter.value;
    orientation : Converter.value;
    margin : Converter.value;
    includeFonts : bool;
    renderCodeBlocks : bool }.

Definition defaults : config :=
  Config (Converter.VString (L "A4")) (Converter.VString (L "portrait"))
    (Converter.VNumber 10) true true.

(** The body of the [forEach] (lines 626-636). *)
Definition applyOption (cfg : config) (opt : str) : config :=
  if startsWith false (L "--page-size=") opt then
    Config (item (split "=" opt) 1) (orientation cfg) (margin cfg)
      (includeFonts cfg) (renderCodeBlocks cfg)
  else if startsWith false (L "--orientation=") opt then
    Config (pageSize cfg) (item (split "=" opt) 1) (margin cfg)
      (includeFonts cfg) (renderCodeBlocks cfg)
  else if startsWith false (L "--margin=") opt then
    Config (pageSize cfg) (orientation cfg)
      (parseIntOf (item (split "=" opt) 1))
      (includeFonts cfg) (renderCodeBlocks cfg)
  else if strEq opt (L "--no-fonts") then
    Config (pageSize cfg) (orientation cfg) (margin cfg)
      false (renderCodeBlocks cfg)
  else if strEq opt (L "--no-code-blocks") then
    Config (pageSize cfg) (orientation cfg) (margin cfg)
      (includeFonts cfg) false
  else cfg.

Definition parseOptions (options : list str) : config :=
  fold_left applyOption options defaults.

(** Where the input is read from (line 644). *)
Inductive source : Type :=
| Stdin
| File (name : str).

(** What [main] does with its arguments: it prints the usage and exits with
    code 1, or it goes on to read the input and to convert it. *)
Inductive plan : Type :=
| Usage
| Run (input : source) (outputFile : str) (cfg : config).

Definition mainArgs (args : list str) : plan :=
  if length args <? 2 then Usage
  else
    match args with
    | inputFile :: outputFile :: options =>
        Run (if strEq inputFile (L "-") then Stdin else File inputFile)
          outputFile (parseOptions options)
    | _ => Usage
    end.

End Cli.

(* ================================================================= *)
(** ** The popup (popup.js): getSettings and convertToPDF *)

Module PopupUi.
Local Open Scope list_scope.

(** The [value] of the four fields of the form. *)
Record form : Type := Form
  { pageSizeField : str;
    orientationField : str;
    marginField : str;
    filenameField : str }.

(** The object that [getSettings] returns, the margin as [parseInt] and
    [||] leave it. *)
Record settings : Type := Settings
  { pageSize : str;
    orientation : str;
    margin : Converter.value;
    filename : str }.

(** [s || d] on a string, and [v || d] on a value. *)
Definition orString (s d : str) : str :=
  match s with [] => d | _ :: _ => s end.

Definition orValue (v d : Converter.value) : Converter.value :=
  if Converter.truthy v then v else d.

Definition getSettings (f : form) : settings :=
  Settings
    (orString (pageSizeField f) (L "A4"))
    (orString (orientationField f) (L "portrait"))
    (orValue (parseInt (marginField f)) (Converter.VNumber 10))
    (orString (filenameField f) (L "document.pdf")).

(** *** convertToPDF

    The browser of the extension is an environment: the tabs that
    [chrome.tabs.query] hands to its callback, and what the callback of
    [chrome.scripting.executeScript] finds, the message of
    [chrome.runtime.lastError] and the [result] field of each entry of
    [result].  The function is the list of its calls, in order. *)

Record tab : Type := Tab
  { url : option str;
    id : nat }.

Record chrome : Type := Chrome
  { tabs : option (list tab);
    lastError : option str;
    result : option (list Converter.value) }.

Inductive action : Type :=
| ShowStatus (message type : str)
| ExecuteScript (tabId : nat) (type : str)
| GeneratePDF (data : Converter.value).

Definition restrictedPage : str :=
  L "Cannot access this page. Try a regular website.".

Definition noContent : str := L "Error: Could not process page content".

Definition noContentHint : str :=
  L "Error: Could not process page content. Try selecting text or use HTML Input tab.".

(** [!activeTab.url || activeTab.url.startsWith('chrome://') ||
    activeTab.url.startsWith('chrome-extension://')]. *)
Definition restricted (u : option str) : bool :=
  match u with
  | None => true
  | Some s =>
      negb (Converter.truthy (Converter.VString s)) ||
      startsWith false (L "chrome://") s ||
      startsWith false (L "chrome-extension://") s
  end.

(** [v === false]. *)
Definition isFalse (v : Converter.value) : bool :=
  match v with Converter.VBool false => true | _ => false end.

Definition convertToPDF (env : chrome) (type : str) : list action :=
  ShowStatus (L "Converting to PDF...") (L "loading") ::
  match tabs env with
  | None | Some [] => [ShowStatus (L "Error: No active tab found") (L "error")]
  | Some (activeTab :: _) =>
      if restricted (url activeTab) then
        [ShowStatus restrictedPage (L "error")]
      else
        ExecuteScript (id activeTab) type ::
        match lastError env with
        | Some errorMsg =>
            if includes (L "Cannot access contents") errorMsg then
              [ShowStatus
                 (L "Cannot access this page. Try a regular website or use HTML Input tab.")
                 (L "error")]
            else [ShowStatus (L "Error: " ++ errorMsg) (L "error")]
        | None =>
            match result env with
            | Some (resultData :: _) =>
                if Converter.truthy resultData then
                  if isFalse resultData then
                    [ShowStatus noContentHint (L "error")]
                  else [GeneratePDF resultData]
                else [ShowStatus noContent (L "error")]
            | _ => [ShowStatus noContent (L "error")]
            end
        end
  end.

End PopupUi.

(* ================================================================= *)
(** ** Further notions used in the statements *)

(** [pat] is a literal that every word of [r] holds. *)
Fixpoint mentions (pat : str) (r : regex) : bool :=
  match r with
  | Chars s => strEq s pat
  | Cat r1 r2 => mentions pat r1 || mentions pat r2
  | Group r1 => mentions pat r1
  | Class _ | Star _ | StarLazy _ => false
  end.

(** The calls of a conversion in which nothing fails. *)
Definition fullTrace (processedHTML path : str) (cfg : Converter.config)
  : list Converter.call :=
  [Converter.Launch; Converter.NewPage; Converter.SetContent processedHTML;
   Converter.Pdf path (Converter.pageSize cfg)
     (strEq (Converter.orientation cfg) (L "landscape"))
     (Converter.margin cfg);
   Converter.Close].

(** No call of the browser fails. *)
Definition reliable : Converter.browser :=
  Converter.Browser false false false false false.

(** The options with no key. *)
Definition noOptions : Converter.options :=
  Converter.Options None None None None None.

(** The style block around the two places of the margin. *)
Definition cssBeforeMargin (fonts : bool) : str :=
  Converter.cssPart0 ++ (if fonts then Converter.cssImport else []) ++
  Converter.cssPart1 ++
  (if fonts then Converter.fontsWith else Converter.fontsWithout) ++
  Converter.cssPart2.

Definition cssBetweenMargins (fonts : bool) : str :=
  Converter.cssPart3 ++
  (if fonts then Converter.fontsWith else Converter.fontsWithout) ++
  Converter.cssPart4 ++
  (if fonts then Converter.fontsWith else Converter.fontsWithout) ++
  Converter.cssPart5.

(** The text of [v] in front of its first [=]. *)
Fixpoint firstField (v : str) : str :=
  match v with
  | [] => []
  | c :: v' => if Ascii.eqb c "=" then [] else c :: firstField v'
  end.

(** No option of [options] begins with [key]. *)
Definition lacks (key : str) (options : list str) : Prop :=
  Forall (fun o => startsWith false key o = false) options.

(** The fields of the configuration of [main] hold what their readers
    expect: two strings, and a number or [NaN]. *)
Definition wellTyped (cfg : Cli.config) : Prop :=
  (exists p, Cli.pageSize cfg = Converter.VString p) /\
  (exists o, Cli.orientation cfg = Converter.VString o) /\
  (Cli.margin cfg = Converter.VNaN \/
   exists z, Cli.margin cfg = Converter.VNumber z).

(** [v] does not begin like a number: it is empty, or its first character
    is no blank, no sign and no digit. *)
Definition notNumeric (v : str) : bool :=
  match v with
  | [] => true
  | c :: _ =>
      negb (isSpace c) && negb (isDigit c) &&
      negb (Ascii.eqb c "+") && negb (Ascii.eqb c "-")
  end.

(** The style block of the popup's complete-document branch, without the
    [</head>] that ends the replacement text. *)
Definition popupStyle (st : Popup.settings) : str :=
  Popup.spliceHead ++ numberToString (Popup.margin st) ++
  firstn 559 Popup.spliceTail.

(** A complete document with the popup's style block in front of its
    [</head>]. *)
Definition popupSpliced (st : Popup.settings) (a b : str) : str :=
  a ++ popupStyle st ++ headClose ++ b.

(** The last thing that [convertToPDF] does: it shows an error, or it
    starts the generation of the document. *)
Definition finalAction (a : PopupUi.action) : Prop :=
  (exists message, a = PopupUi.ShowStatus message (L "error")) \/
  (exists data, a = PopupUi.GeneratePDF data).

(** *** Code blocks left open *)

(** The text of [s] behind the last code block that the pattern finds in
    it; [fuel] bounds the number of blocks. *)
Fixpoint restAfterBlocks (fuel : nat) (s : str) : str :=
  match exec Converter.codeBlockPattern s with
  | None => s
  | Some m =>
      match fuel with
      | O => s
      | S n => restAfterBlocks n (after m)
      end
  end.

Definition afterBlocks (s : str) : str := restAfterBlocks (length s) s.

(** An attribute-free [<pre><code>] is left open at the end of [s]: it
    stands behind the last complete block. *)
Definition leftOpen (s : str) : bool :=
  negb (countOcc true openTags (afterBlocks s) =? 0).

(** The contents of the code blocks that the pattern finds in [s], in
    order; [fuel] bounds their number. *)
Fixpoint blockContents (fuel : nat) (s : str) : list str :=
  match exec Converter.codeBlockPattern s with
  | None => []
  | Some m =>
      match fuel with
      | O => []
      | S n => Converter.groupText (group1 m) :: blockContents n (after m)
      end
  end.

Definition blocksIn (s : str) : list str := blockContents (length s) s.

(** No code block of [s] gets a preview. *)
Definition quiet (s : str) : bool :=
  forallb (fun c => negb (looksLikeHTML c)) (blocksIn s).

(** An attributed block behind an attribute-free [<pre><code>] that is not
    closed, and one that holds such tags in its content. *)
Definition attributedExample : str :=
  attributedBlock (L " class=x") [] (L "<b>hi</b>").

Definition openBeforeAttributed : str := L "<pre><code>x" ++ attributedExample.

Definition plainInsideAttributed : str :=
  attributedBlock (L " class=x") [] (L "a<pre><code><b>hi</b>").

(** *** The generated style element *)

(** The text that [generateCSS] returns is a line feed, four blanks and the
    [style] element. *)
Definition styleBlock (cfg : Converter.config) : str :=
  skipn 5 (Converter.generateCSS cfg).

Definition styleOpen : str := L "<style>".
Definition styleClose : str := L "</style>".

(** What stands between the two tags of the element. *)
Definition styleInner (cfg : Converter.config) : str :=
  skipn 12 Converter.cssPart0 ++
  (if Converter.includeFonts cfg then Converter.cssImport else []) ++
  Converter.cssPart1 ++ Converter.fontFamily cfg ++
  Converter.cssPart2 ++ numberToString (Converter.margin cfg) ++
  Converter.cssPart3 ++ Converter.fontFamily cfg ++
  Converter.cssPart4 ++ Converter.fontFamily cfg ++
  Converter.cssPart5 ++ numberToString (Converter.margin cfg) ++
  firstn 348 Converter.cssPart6.

(** A fragment and a complete document with a style element of their own,
    and a document whose first [</head>] stands in a code block. *)
Definition ownStyleFragment : str := L "<style>p{}</style><p>Hi</p>".

Definition ownStyleHead : str := L "<html><head><style>p{}</style>".

Definition ownStyleBody : str :=
  L "<body><pre><code><b>x</b></code></pre></body></html>".

Definition ownStyleDocument : str := ownStyleHead ++ headClose ++ ownStyleBody.

Definition codeShowsHead : str :=
  L "<html><head><body><pre><code><head></head></code></pre></body></html>".

(** *** Wrappers with a style of their own *)

(** The text of a wrapper carries [style=] with a value: it holds [style=]
    and neither [style=""] nor [style='']. *)
Definition literalStyle (wrapperDiv : str) : bool :=
  includes (L "style=") wrapperDiv &&
  negb (includes (L "style=" ++ dq ++ dq) wrapperDiv) &&
  negb (includes (L "style=''") wrapperDiv).

(** A wrapper that the second pass removed carried no such style, and its
    child held [margin:] and [auto] or [center]. *)
Definition unstyledAndCentred (r : removal) : Prop :=
  match r with
  | Kept _ => True
  | Removed o w1 c w2 cl =>
      literalStyle
        (Converter.wrapperDivOf (o ++ w1 ++ c ++ w2 ++ cl) c) = false /\
      Converter.hasCenteringStyles c = true
  end.

(** A plain wrapper around three elements, the first of them centred. *)
Definition threeChildren : str :=
  centredChild ++ L "<div>B</div><div>C</div>".

Definition threeChildrenWrapper : str :=
  L "<div>" ++ threeChildren ++ L "</div>".

(** A document without [<head>]: the test for it takes [<header>]. *)
Definition headerDocument : str :=
  L "<html><body><header>Hi</header></body></html>".

(* ================================================================= *)
(** * Properties *)

(** Split a conjunction into its parts, and nothing else. *)
Ltac conjs := repeat match goal with |- _ /\ _ => split end.

(** ** The page loop *)

Module PaginateFacts.
Import Paginate.
Local Open Scope Z_scope.

(** The sizes of the examples, as the doubles they are. *)
Lemma page_sizes :
  letterPortrait =
    (SpecFloat.S754_finite false 7596305933978828 (-45),
     SpecFloat.S754_finite false 4915256780809830 (-44)) /\
  legalLandscape =
    (SpecFloat.S754_finite false 6255781357394329 (-44),
     SpecFloat.S754_finite false 7596305933978828 (-45)).
Proof. split; vm_compute; reflexivity. Qed.

(** The loop is not entered when the image is shorter than the page. *)
Lemma short_image_one_page :
  generatePages 0 1000 canvasWidth (fst letterPortrait) (snd letterPortrait) =
  Some [[ofZ 0]].
Proof. vm_compute. reflexivity. Qed.

(** Letter portrait, a canvas of 35200 rows: 17 pages exactly in pixels
    (a page holds 1600 * 792 / 612 rows), and 17 pages in the document. *)
Lemma letter_portrait_35200 :
  exists doc,
    generatePages 20 35200 canvasWidth (fst letterPortrait)
      (snd letterPortrait) = Some doc /\
    length (pagesOf doc) = 17%nat /\
    35200 * 612 = 17 * (canvasWidth * 792).
Proof. eexists. conjs; vm_compute; reflexivity. Qed.

(** Legal landscape, 6800 rows: 7 pages exactly in pixels, 8 in the
    document. *)
Lemma legal_landscape_6800 :
  exists doc,
    generatePages 10 6800 canvasWidth (fst legalLandscape)
      (snd legalLandscape) = Some doc /\
    length (pagesOf doc) = 8%nat /\
    6800 * 1008 = 7 * (canvasWidth * 612).
Proof. eexists. conjs; vm_compute; reflexivity. Qed.

(** Legal landscape, 13600 rows: 14 pages, although the quotient of the two
    doubles is a little more than 14. *)
Lemma legal_landscape_13600 :
  exists doc,
    generatePages 20 13600 canvasWidth (fst legalLandscape)
      (snd legalLandscape) = Some doc /\
    length (pagesOf doc) = 14%nat /\
    ceilDiv (scaled (imageHeight 13600 canvasWidth (fst legalLandscape)))
      (scaled (snd legalLandscape)) = 15.
Proof. eexists. conjs; vm_compute; reflexivity. Qed.

(** C1 (as the code has it).  The claim asks for exactly ceil(H / P) pages
    and no extra page when H is an exact multiple of P.  For a Legal
    landscape document and a canvas of 1600 by 34000 pixels the image is
    exactly 35 pages high, in pixels (one page holds 1600 * 612 / 1008 rows)
    and as the quotient of the two doubles the loop works with, and the
    document gets 36 pages: the subtractions leave a remainder of the order
    of 1e-12 mm instead of a negative number, the test [heightLeft >= 0]
    passes once more, and the last page shows less than a millionth of a
    millimetre of the image. *)
Theorem legal_landscape_extra_page :
  let imgWidth := fst legalLandscape in
  let pageHeight := snd legalLandscape in
  let imgHeight := imageHeight 34000 canvasWidth imgWidth in
  exists (doc : pdf) (earlier : list page) (position : number),
    generatePages 40 34000 canvasWidth imgWidth pageHeight = Some doc /\
    length (pagesOf doc) = 36%nat /\
    34000 * 1008 = 35 * (canvasWidth * 612) /\
    ceilDiv (scaled imgHeight) (scaled pageHeight) = 35 /\
    pagesOf doc = earlier ++ [[position]] /\
    0 <= scaled imgHeight + scaled position /\
    (scaled imgHeight + scaled position) * 1000000 < scaled (ofZ 1).
Proof.
  cbv zeta.
  let r := eval vm_compute in
    (generatePages 40 34000 canvasWidth (fst legalLandscape)
       (snd legalLandscape)) in
  match r with
  | Some ?d =>
      let e := eval vm_compute in (removelast (pagesOf d)) in
      let l := eval vm_compute in (hd (ofZ 0) (last (pagesOf d) [])) in
      exists d, e, l
  end.
  split; [vm_compute; reflexivity|].
  split; [vm_compute; reflexivity|].
  split; [vm_compute; reflexivity|].
  split; [vm_compute; reflexivity|].
  split; [vm_compute; reflexivity|].
  split; vm_compute; [discriminate | reflexivity].
Qed.

End PaginateFacts.

(** ** Strings and patterns *)

Module StringFacts.

Lemma stripPrefix_app (ci : bool) (pat s r rest : str) :
  stripPrefix ci pat s = Some r ->
  stripPrefix ci pat (s ++ rest) = Some (r ++ rest).
Proof.
  revert s. induction pat as [|p pat IH]; intros s H; simpl in *.
  - now inversion H.
  - destruct s as [|c s]; [discriminate|]. simpl.
    destruct (cmp ci p c); [auto | discriminate].
Qed.

Lemma stripPrefix_split (ci : bool) (pat s r : str) :
  stripPrefix ci pat s = Some r ->
  exists w, s = w ++ r /\ stripPrefix ci pat w = Some [] /\
            length w = length pat.
Proof.
  revert s. induction pat as [|p pat IH]; intros s H; simpl in *.
  - inversion H; subst. now exists [].
  - destruct s as [|c s]; [discriminate|].
    destruct (cmp ci p c) eqn:E; [|discriminate].
    destruct (IH _ H) as (w & -> & Hw & Hl).
    exists (c :: w). simpl. rewrite E. auto.
Qed.

Lemma stripPrefix_cat (ci : bool) (p1 p2 s : str) :
  stripPrefix ci (p1 ++ p2) s =
  match stripPrefix ci p1 s with
  | Some t => stripPrefix ci p2 t
  | None => None
  end.
Proof.
  revert s. induction p1 as [|p p1 IH]; intros s; simpl; [reflexivity|].
  destruct s as [|c s]; [reflexivity|].
  destruct (cmp ci p c); [apply IH | reflexivity].
Qed.

Lemma mismatch_stripPrefix (ci : bool) (pat u rest : str) :
  mismatch ci pat u = true -> stripPrefix ci pat (u ++ rest) = None.
Proof.
  revert u. induction pat as [|p pat IH]; intros u H; simpl in *.
  - discriminate.
  - destruct u as [|c u]; [discriminate|]. simpl.
    destruct (cmp ci p c); [auto | reflexivity].
Qed.

Lemma stripPrefix_none_ext (ci : bool) (pat s : str) (t0 : ascii) (t : str) :
  forallb (fun p => negb (cmp ci p t0)) pat = true ->
  stripPrefix ci pat s = None ->
  stripPrefix ci pat (s ++ t0 :: t) = None.
Proof.
  revert s. induction pat as [|p pat IH]; intros s Hp H; [discriminate H|].
  simpl in Hp. apply andb_true_iff in Hp. destruct Hp as [Hp0 Hp].
  destruct s as [|c s]; simpl in *.
  - apply negb_true_iff in Hp0. now rewrite Hp0.
  - destruct (cmp ci p c); [auto | reflexivity].
Qed.

(** *** Suffixes *)

Lemma everySuffix_nil (P : str -> Prop) (y : str) : everySuffix P [] y.
Proof. intros [|] c x2 H; discriminate. Qed.

Lemma everySuffix_cons (P : str -> Prop) (c : ascii) (x y : str) :
  P (c :: x ++ y) -> everySuffix P x y -> everySuffix P (c :: x) y.
Proof.
  intros H0 H [|d x1] c' x2 E; simpl in E; inversion E; subst.
  - exact H0.
  - now apply (H x1).
Qed.

Lemma everySuffix_inv (P : str -> Prop) (c : ascii) (x y : str) :
  everySuffix P (c :: x) y -> P (c :: x ++ y) /\ everySuffix P x y.
Proof.
  intros H. split.
  - now apply (H []).
  - intros x1 c' x2 E. apply (H (c :: x1)). now rewrite E.
Qed.

Lemma everySuffix_app (P : str -> Prop) (x1 x2 y : str) :
  everySuffix P x1 (x2 ++ y) -> everySuffix P x2 y ->
  everySuffix P (x1 ++ x2) y.
Proof.
  induction x1 as [|c x1 IH]; intros H1 H2; simpl; [exact H2|].
  apply everySuffix_inv in H1. destruct H1 as [H0 H1].
  apply everySuffix_cons; [now rewrite <- app_assoc | auto].
Qed.

Lemma everySuffix_impl (P Q : str -> Prop) (x y : str) :
  (forall s, P s -> Q s) -> everySuffix P x y -> everySuffix Q x y.
Proof. intros HPQ H x1 c x2 E. apply HPQ. now apply (H x1). Qed.

Lemma noStartB_sound (ci : bool) (pat x y : str) :
  noStartB ci pat x = true ->
  everySuffix (fun s => stripPrefix ci pat s = None) x y.
Proof.
  induction x as [|c x IH]; intros H; [apply everySuffix_nil|].
  simpl in H. apply andb_true_iff in H. destruct H as [H0 H].
  apply everySuffix_cons; [|auto].
  change (c :: x ++ y) with ((c :: x) ++ y).
  now apply mismatch_stripPrefix.
Qed.

(** Text made of characters that differ from the first one of [pat]. *)
Lemma everySuffix_first (ci : bool) (p : ascii) (pat x y : str) :
  forallb (fun c => negb (cmp ci p c)) x = true ->
  everySuffix (fun s => stripPrefix ci (p :: pat) s = None) x y.
Proof.
  induction x as [|c x IH]; intros H; [apply everySuffix_nil|].
  simpl in H. apply andb_true_iff in H. destruct H as [H0 H].
  apply everySuffix_cons; [|auto]. simpl.
  apply negb_true_iff in H0. now rewrite H0.
Qed.

(** *** indexOf and replaceString *)

Lemma indexOf_cons (pat : str) (c : ascii) (s : str) :
  indexOf pat (c :: s) =
  match stripPrefix false pat (c :: s) with
  | Some rest => Some ([], rest)
  | None =>
      match indexOf pat s with
      | Some (a, b) => Some (c :: a, b)
      | None => None
      end
  end.
Proof. reflexivity. Qed.

Lemma indexOf_skip (pat x y : str) :
  everySuffix (fun s => stripPrefix false pat s = None) x y ->
  indexOf pat (x ++ y) =
  match indexOf pat y with
  | Some (a, b) => Some (x ++ a, b)
  | None => None
  end.
Proof.
  induction x as [|c x IH]; intros H.
  - simpl. now destruct (indexOf pat y) as [[a b]|].
  - apply everySuffix_inv in H. destruct H as [H0 H].
    change ((c :: x) ++ y) with (c :: x ++ y).
    rewrite indexOf_cons, H0, (IH H).
    now destruct (indexOf pat y) as [[a b]|].
Qed.

Lemma indexOf_here (pat y : str) :
  indexOf pat (pat ++ y) = Some ([], y).
Proof.
  assert (H : stripPrefix false pat (pat ++ y) = Some y).
  { induction pat as [|p pat IH]; simpl; [reflexivity|].
    unfold cmp. now rewrite Ascii.eqb_refl. }
  destruct pat as [|p pat]; [now destruct y|].
  change ((p :: pat) ++ y) with (p :: pat ++ y) in *.
  now rewrite indexOf_cons, H.
Qed.

Lemma getSubstitution_plain (m b a t : str) :
  forallb notDollar t = true -> getSubstitution m b a t = t.
Proof.
  induction t as [|c t IH]; intros H; simpl in *; [reflexivity|].
  apply andb_true_iff in H. destruct H as [H0 H].
  unfold notDollar in H0. apply negb_true_iff in H0. rewrite H0.
  now rewrite IH.
Qed.

(** *** Decimal digits *)

Lemma string_of_uint_digits (u : Decimal.uint) :
  forallb isDigit (L (NilEmpty.string_of_uint u)) = true.
Proof. induction u; simpl; auto. Qed.

Lemma numberToString_digits (n : N) :
  forallb isDigit (numberToString n) = true.
Proof.
  unfold numberToString, NilZero.string_of_uint.
  destruct (N.to_uint n); try reflexivity; apply string_of_uint_digits.
Qed.

Lemma forallb_impl {A : Type} (f g : A -> bool) (l : list A) :
  (forall a, f a = true -> g a = true) ->
  forallb f l = true -> forallb g l = true.
Proof.
  intros H. induction l as [|a l IH]; simpl; [reflexivity|].
  intros E. apply andb_true_iff in E. destruct E as [E1 E2].
  now rewrite (H _ E1), IH.
Qed.

Lemma digit_cases (c : ascii) :
  isDigit c = true ->
  In c (L "0123456789").
Proof.
  destruct c as [[] [] [] [] [] [] [] []]; intros H; try discriminate H;
    simpl; tauto.
Qed.

(** *** Case *)

Lemma eqci_gt (a : ascii) : eqci ">" a = Ascii.eqb ">" a.
Proof. destruct a as [[] [] [] [] [] [] [] []]; reflexivity. Qed.

Lemma eqci_lt (a : ascii) : eqci "<" a = Ascii.eqb "<" a.
Proof. destruct a as [[] [] [] [] [] [] [] []]; reflexivity. Qed.

End StringFacts.

Module RegexFacts.
Import StringFacts.

Lemma starGreedy_sound (p : ascii -> bool) (k : str -> option mstate) :
  forall s res,
    starGreedy p s k = Some res ->
    exists w s', s = w ++ s' /\ forallb p w = true /\ k s' = Some res.
Proof.
  induction s as [|c s IH]; intros res H; simpl in H.
  - now exists [], [].
  - destruct (p c) eqn:Hp.
    + destruct (starGreedy p s k) as [r|] eqn:E.
      * inversion H; subst r.
        destruct (IH _ eq_refl) as (w & s' & -> & Hw & Hk).
        exists (c :: w), s'. simpl. now rewrite Hp.
      * now exists [], (c :: s).
    + now exists [], (c :: s).
Qed.

Lemma starLazy_sound (p : ascii -> bool) (k : str -> option mstate) :
  forall s res,
    starLazy p s k = Some res ->
    exists w s', s = w ++ s' /\ forallb p w = true /\ k s' = Some res.
Proof.
  induction s as [|c s IH]; intros res H; simpl in H.
  - destruct (k []) eqn:E; [|discriminate].
    inversion H; subst. now exists [], [].
  - destruct (k (c :: s)) eqn:E.
    + inversion H; subst. now exists [], (c :: s).
    + destruct (p c) eqn:Hp; [|discriminate].
      destruct (IH _ H) as (w & s' & -> & Hw & Hk).
      exists (c :: w), s'. simpl. now rewrite Hp.
Qed.

Lemma firstn_consumed (w s' : str) : consumed (w ++ s') s' = w.
Proof.
  unfold consumed. rewrite length_app, Nat.add_sub.
  rewrite firstn_app, Nat.sub_diag, firstn_all. simpl. apply app_nil_r.
Qed.

(** What the matcher accepts is a word of the pattern followed by a text that
    the continuation accepts. *)
Lemma matcher_sound (r : regex) :
  forall s cap k res,
    matcher r s cap k = Some res ->
    exists w s' cap',
      s = w ++ s' /\ sem r w cap cap' /\ k s' cap' = Some res.
Proof.
  induction r as [pat|p|p|p|r1 IH1 r2 IH2|r IH]; intros s cap k res H;
    simpl in H.
  - destruct (stripPrefix true pat s) as [s'|] eqn:E; [|discriminate].
    destruct (stripPrefix_split _ _ _ _ E) as (w & -> & Hw & _).
    exists w, s', cap. repeat split; auto; constructor; auto.
  - destruct s as [|c s]; [discriminate|].
    destruct (p c) eqn:Hp; [|discriminate].
    exists [c], s, cap. repeat split; auto; constructor; auto.
  - destruct (starGreedy_sound _ _ _ _ H) as (w & s' & -> & Hw & Hk).
    exists w, s', cap. repeat split; auto; constructor; auto.
  - destruct (starLazy_sound _ _ _ _ H) as (w & s' & -> & Hw & Hk).
    exists w, s', cap. repeat split; auto; constructor; auto.
  - destruct (IH1 _ _ _ _ H) as (w1 & s1 & c1 & -> & H1 & K1).
    destruct (IH2 _ _ _ _ K1) as (w2 & s2 & c2 & -> & H2 & K2).
    exists (w1 ++ w2), s2, c2. rewrite <- app_assoc. repeat split; auto. econstructor; eauto.
  - destruct (IH _ _ _ _ H) as (w & s' & c1 & -> & H1 & K1).
    rewrite firstn_consumed in K1.
    exists w, s', (Some w). repeat split; auto. econstructor; eauto.
Qed.

Lemma matchAt_sound (r : regex) (s rest : str) (cap : option str) :
  matchAt r s = Some (rest, cap) ->
  exists w, s = w ++ rest /\ sem r w None cap.
Proof.
  unfold matchAt. intros H.
  destruct (matcher_sound _ _ _ _ _ H) as (w & s' & c' & -> & Hs & K).
  inversion K; subst. now exists w.
Qed.

Lemma exec_cons (r : regex) (c : ascii) (s : str) :
  exec r (c :: s) =
  match matchAt r (c :: s) with
  | Some (rest, cap) =>
      Some (MatchResult [] (consumed (c :: s) rest) cap rest)
  | None =>
      match exec r s with
      | Some m =>
          Some (MatchResult (c :: before m) (matched m) (group1 m) (after m))
      | None => None
      end
  end.
Proof. reflexivity. Qed.

(** The result of [exec] cuts the input in three; the middle part is a word
    of the pattern and no match starts in the first part. *)
Lemma exec_sound (r : regex) :
  forall s m,
    exec r s = Some m ->
    s = before m ++ matched m ++ after m /\
    sem r (matched m) None (group1 m) /\
    everySuffix (fun t => matchAt r t = None) (before m)
      (matched m ++ after m).
Proof.
  induction s as [|c s IH]; intros m H.
  - simpl in H. destruct (matchAt r []) as [[rest cap]|] eqn:E; [|discriminate].
    injection H as <-. cbn [before matched group1 after].
    destruct (matchAt_sound _ _ _ _ E) as (w & Hw & Hs).
    symmetry in Hw. apply app_eq_nil in Hw. destruct Hw; subst.
    repeat split; auto using everySuffix_nil.
  - rewrite exec_cons in H.
    destruct (matchAt r (c :: s)) as [[rest cap]|] eqn:E.
    + injection H as <-. cbn [before matched group1 after].
      destruct (matchAt_sound _ _ _ _ E) as (w & Hw & Hs).
      rewrite Hw, firstn_consumed.
      repeat split; auto using everySuffix_nil.
    + destruct (exec r s) as [m'|] eqn:E'; [|discriminate].
      injection H as <-. cbn [before matched group1 after].
      destruct (IH _ eq_refl) as (Hs & Hsem & Hno).
      repeat split; auto.
      * simpl. now rewrite <- Hs.
      * apply everySuffix_cons; [now rewrite <- Hs | exact Hno].
Qed.

(** No match starts in [x]: [exec] goes on with the text after [x]. *)
Lemma exec_skip (r : regex) (x y : str) :
  everySuffix (fun t => matchAt r t = None) x y ->
  exec r (x ++ y) =
  match exec r y with
  | Some m => Some (MatchResult (x ++ before m) (matched m) (group1 m) (after m))
  | None => None
  end.
Proof.
  induction x as [|c x IH]; intros H.
  - simpl. now destruct (exec r y) as [[]|].
  - apply everySuffix_inv in H. destruct H as [H0 H].
    change ((c :: x) ++ y) with (c :: x ++ y).
    rewrite exec_cons, H0, (IH H).
    now destruct (exec r y).
Qed.

Lemma test_app_r (r : regex) (x y : str) :
  test r y = true -> test r (x ++ y) = true.
Proof.
  unfold test. induction x as [|c x IH]; intros H; [exact H|].
  change ((c :: x) ++ y) with (c :: x ++ y). rewrite exec_cons.
  destruct (matchAt r (c :: x ++ y)) as [[rest cap]|]; [reflexivity|].
  specialize (IH H). now destruct (exec r (x ++ y)).
Qed.

(** *** The replace loop *)

Lemma replaceAll_unfold (fuel : nat) (r : regex) (f : str -> option str -> str)
    (s : str) :
  replaceAll fuel r f s =
  match exec r s with
  | None => Some s
  | Some m =>
      match fuel with
      | O => None
      | S n =>
          let out := before m ++ f (matched m) (group1 m) in
          match matched m, after m with
          | [], [] => Some out
          | [], c :: rest =>
              option_map (fun t => out ++ c :: t) (replaceAll n r f rest)
          | _ :: _, rest =>
              option_map (fun t => out ++ t) (replaceAll n r f rest)
          end
      end
  end.
Proof. destruct fuel; reflexivity. Qed.

(** One unit of fuel per character is enough. *)
Lemma replaceAll_total (r : regex) (f : str -> option str -> str) :
  forall fuel s, length s < fuel -> exists out, replaceAll fuel r f s = Some out.
Proof.
  induction fuel as [|n IH]; intros s Hlen; [lia|].
  rewrite replaceAll_unfold.
  destruct (exec r s) as [m|] eqn:E; [|eauto].
  destruct (exec_sound _ _ _ E) as (Hs & _ & _).
  assert (Hl : length s = length (before m) + length (matched m) + length (after m))
    by (rewrite Hs at 1; rewrite !length_app; lia).
  cbv zeta.
  destruct (matched m) as [|c mt]; [destruct (after m) as [|c rest]|].
  - eauto.
  - destruct (IH rest) as (t & ->); [simpl in Hl; lia|]. simpl. eauto.
  - destruct (IH (after m)) as (t & ->); [simpl in Hl; lia|]. simpl. eauto.
Qed.

Lemma replaceRegex_total (r : regex) (f : str -> option str -> str) (s : str) :
  exists out, replaceRegex r f s = Some out.
Proof. apply replaceAll_total. lia. Qed.

(** More fuel than needed changes nothing. *)
Lemma replaceAll_fuel (r : regex) (f : str -> option str -> str) :
  forall n s n', length s < n -> length s < n' ->
    replaceAll n r f s = replaceAll n' r f s.
Proof.
  induction n as [|n IH]; intros s n' H H'; [lia|].
  destruct n' as [|n']; [lia|].
  rewrite !replaceAll_unfold.
  destruct (exec r s) as [m|] eqn:E; [|reflexivity].
  destruct (exec_sound _ _ _ E) as (Hs & _ & _).
  assert (Hl : length s = length (before m) + length (matched m) + length (after m))
    by (rewrite Hs at 1; rewrite !length_app; lia).
  cbv zeta.
  destruct (matched m) as [|c mt]; [destruct (after m) as [|c rest]|].
  - reflexivity.
  - rewrite (IH rest n'); [reflexivity| simpl in Hl; lia ..].
  - rewrite (IH (after m) n'); [reflexivity| simpl in Hl; lia ..].
Qed.

Lemma replaceRegex_fuel (r : regex) (f : str -> option str -> str)
    (n : nat) (s : str) :
  length s < n -> replaceAll n r f s = replaceRegex r f s.
Proof. intros H. apply replaceAll_fuel; [exact H | lia]. Qed.

(** A text without a match is returned as it is. *)
Lemma replaceRegex_none (r : regex) (f : str -> option str -> str) (s : str) :
  exec r s = None -> replaceRegex r f s = Some s.
Proof. intros E. unfold replaceRegex. simpl. now rewrite E. Qed.

(** The loop, one match at a time. *)
Lemma replaceRegex_step (r : regex) (f : str -> option str -> str)
    (s : str) (m : matchResult) (c : ascii) (mt : str) :
  exec r s = Some m -> matched m = c :: mt ->
  replaceRegex r f s =
  option_map (fun t => (before m ++ f (matched m) (group1 m)) ++ t)
    (replaceRegex r f (after m)).
Proof.
  intros E Hm. unfold replaceRegex at 1. cbn [replaceAll]. rewrite E.
  cbv zeta. rewrite Hm.
  rewrite replaceRegex_fuel; [reflexivity|].
  destruct (exec_sound _ _ _ E) as (Hs & _ & _).
  rewrite Hs, Hm, !length_app. simpl. lia.
Qed.

(** No match starts in [x]: the loop copies [x]. *)
Lemma replaceRegex_skip (r : regex) (f : str -> option str -> str) (x y : str) :
  everySuffix (fun t => matchAt r t = None) x y ->
  replaceRegex r f (x ++ y) =
  option_map (fun t => x ++ t) (replaceRegex r f y).
Proof.
  intros H. unfold replaceRegex. rewrite !replaceAll_unfold.
  rewrite (exec_skip _ _ _ H).
  destruct (exec r y) as [m|] eqn:E; [|reflexivity].
  destruct (exec_sound _ _ _ E) as (Hs & _ & _).
  assert (Hl : length y = length (before m) + length (matched m) + length (after m))
    by (rewrite Hs at 1; rewrite !length_app; lia).
  cbv zeta. cbn [before matched group1 after].
  destruct (matched m) as [|c mt]; [destruct (after m) as [|c rest]|].
  - simpl. now rewrite <- !app_assoc.
  - rewrite (replaceAll_fuel r f (length (x ++ y)) rest (length y));
      [| rewrite length_app; simpl in Hl; lia | simpl in Hl; lia].
    destruct (replaceAll (length y) r f rest); simpl; [|reflexivity].
    now rewrite <- !app_assoc.
  - rewrite (replaceAll_fuel r f (length (x ++ y)) (after m) (length y));
      [| rewrite length_app; simpl in Hl; lia | simpl in Hl; lia].
    destruct (replaceAll (length y) r f (after m)); simpl; [|reflexivity].
    now rewrite <- !app_assoc.
Qed.

End RegexFacts.

(** ** The style block *)

Module StyleFacts.
Import StringFacts RegexFacts Converter.

Lemma forallb_pieces (P : ascii -> bool) (x : str) :
  forallb (forallb P) cssPieces = true -> In x cssPieces ->
  forallb P x = true.
Proof. intros H Hin. rewrite forallb_forall in H. auto. Qed.

(** A property of the characters of the constant pieces and of the digits
    holds of the whole style block. *)
Lemma generateCSS_forallb (P : ascii -> bool) (cfg : config) :
  forallb (forallb P) cssPieces = true ->
  (forall c, isDigit c = true -> P c = true) ->
  forallb P (generateCSS cfg) = true.
Proof.
  intros Hp Hd.
  assert (Hn : forallb P (numberToString (margin cfg)) = true)
    by (apply (forallb_impl isDigit); [exact Hd | apply numberToString_digits]).
  assert (Hf : forallb P (fontFamily cfg) = true)
    by (unfold fontFamily; destruct (includeFonts cfg);
        apply (forallb_pieces P); auto; simpl; tauto).
  assert (Hi : forallb P (if includeFonts cfg then cssImport else []) = true)
    by (destruct (includeFonts cfg); [|reflexivity];
        apply (forallb_pieces P); auto; simpl; tauto).
  unfold generateCSS. rewrite !forallb_app, Hn, Hf, Hi.
  rewrite (forallb_pieces P cssPart0), (forallb_pieces P cssPart1),
    (forallb_pieces P cssPart2), (forallb_pieces P cssPart3),
    (forallb_pieces P cssPart4), (forallb_pieces P cssPart5),
    (forallb_pieces P cssPart6) by (auto; simpl; tauto).
  reflexivity.
Qed.

Lemma noStart_pieces (ci : bool) (pat : str) (pieces : list str) (x y : str) :
  forallb (noStartB ci pat) pieces = true -> In x pieces ->
  everySuffix (fun s => stripPrefix ci pat s = None) x y.
Proof.
  intros H Hin. rewrite forallb_forall in H. apply noStartB_sound. auto.
Qed.

Lemma generateCSS_eq (cfg : config) :
  generateCSS cfg = cssPart0 ++ cssRest cfg.
Proof. reflexivity. Qed.

(** No occurrence of a text that begins with [p] starts inside the style
    block, when none starts inside its constant pieces and [p] is no digit. *)
Lemma cssRest_noStart (ci : bool) (p : ascii) (pat : str) (cfg : config)
    (y : str) :
  forallb (noStartB ci (p :: pat)) cssRestPieces = true ->
  (forall c, isDigit c = true -> cmp ci p c = false) ->
  everySuffix (fun s => stripPrefix ci (p :: pat) s = None) (cssRest cfg) y.
Proof.
  intros Hp Hd.
  assert (Hn : forall z, everySuffix (fun s => stripPrefix ci (p :: pat) s = None)
                 (numberToString (margin cfg)) z).
  { intros z. apply everySuffix_first.
    apply (forallb_impl isDigit); [|apply numberToString_digits].
    intros c Hc. now rewrite (Hd c Hc). }
  assert (Hf : forall z, everySuffix (fun s => stripPrefix ci (p :: pat) s = None)
                 (fontFamily cfg) z).
  { intros z. unfold fontFamily. destruct (includeFonts cfg);
      apply (noStart_pieces ci (p :: pat) cssRestPieces); auto; simpl; tauto. }
  assert (Hi : forall z, everySuffix (fun s => stripPrefix ci (p :: pat) s = None)
                 (if includeFonts cfg then cssImport else []) z).
  { intros z. destruct (includeFonts cfg);
      [apply (noStart_pieces ci (p :: pat) cssRestPieces); auto; simpl; tauto
      | apply everySuffix_nil]. }
  unfold cssRest.
  repeat (apply everySuffix_app;
          [first [apply Hn | apply Hf | apply Hi
                 | apply (noStart_pieces ci (p :: pat) cssRestPieces);
                   [exact Hp | simpl; tauto]] |]).
  apply (noStart_pieces ci (p :: pat) cssRestPieces); [exact Hp | simpl; tauto].
Qed.

Lemma generateCSS_noStart (ci : bool) (p : ascii) (pat : str) (cfg : config)
    (y : str) :
  forallb (noStartB ci (p :: pat)) cssPieces = true ->
  (forall c, isDigit c = true -> cmp ci p c = false) ->
  everySuffix (fun s => stripPrefix ci (p :: pat) s = None) (generateCSS cfg) y.
Proof.
  intros Hp Hd. rewrite generateCSS_eq.
  pose proof Hp as Hp'. cbn [cssPieces forallb] in Hp'.
  apply andb_true_iff in Hp'. destruct Hp' as [Hp0 Hp'].
  apply everySuffix_app; [|now apply cssRest_noStart].
  now apply noStartB_sound.
Qed.

Lemma digit_not (c d : ascii) :
  isDigit d = false -> isLowerLetter d = false ->
  isDigit c = true -> eqci d c = false /\ Ascii.eqb d c = false.
Proof.
  intros Hd Hl Hc.
  assert (Hne : d <> c) by (intros ->; congruence).
  split; [|now apply Ascii.eqb_neq].
  unfold eqci, upper. rewrite Hl.
  assert (Hlc : isLowerLetter c = false)
    by (destruct (digit_cases c Hc) as [<-|[<-|[<-|[<-|[<-|[<-|[<-|[<-|[<-|[<-|[]]]]]]]]]]];
        reflexivity).
  rewrite Hlc. now apply Ascii.eqb_neq.
Qed.

Lemma digit_not_cmp (ci : bool) (c d : ascii) :
  isDigit d = false -> isLowerLetter d = false ->
  isDigit c = true -> cmp ci d c = false.
Proof.
  intros Hd Hl Hc. destruct (digit_not c d Hd Hl Hc).
  now destruct ci.
Qed.

(** The style block holds no [$]: [replace] copies it as it is. *)
Lemma spliceText_plain (cfg : config) (m b a : str) :
  getSubstitution m b a (spliceText cfg) = spliceText cfg.
Proof.
  apply getSubstitution_plain. unfold spliceText.
  rewrite forallb_app. apply andb_true_iff. split; [|reflexivity].
  apply generateCSS_forallb; [vm_compute; reflexivity|].
  intros c Hc. unfold notDollar. apply negb_true_iff.
  rewrite Ascii.eqb_sym. now apply (digit_not c "$"%char).
Qed.

(** No [</head>] starts inside the style block. *)
Lemma generateCSS_no_headClose (cfg : config) (y : str) :
  everySuffix (fun s => stripPrefix false headClose s = None) (generateCSS cfg) y.
Proof.
  apply (generateCSS_noStart false "<"%char (L "/head>"));
    [vm_compute; reflexivity|].
  intros c Hc. now apply digit_not_cmp.
Qed.

(** No code block opens inside the style block. *)
Lemma generateCSS_no_openTags (cfg : config) (y : str) :
  everySuffix (fun s => stripPrefix true openTags s = None) (generateCSS cfg) y.
Proof.
  apply (generateCSS_noStart true "<"%char (L "pre><code>"));
    [vm_compute; reflexivity|].
  intros c Hc. now apply digit_not_cmp.
Qed.

End StyleFacts.

(** ** The converter *)

Module ConverterFacts.
Import StringFacts RegexFacts StyleFacts Converter.

(** *** convertHTMLToPDF *)

Lemma truthy_string (v : value) :
  truthy v && isString v = true <-> nonEmptyString v.
Proof.
  split.
  - destruct v as [| |b|n| |s|]; simpl; rewrite ?andb_false_r;
      try discriminate.
    destruct s as [|c s]; [discriminate|]. intros _. now exists c, s.
  - intros (c & s & ->). reflexivity.
Qed.

(** C9: when [htmlContent] or [outputPath] is not a non-empty string,
    [convertHTMLToPDF] throws an input error and has made no call to the
    headless browser: nothing was launched. *)
Theorem convert_rejects_bad_input
    (env : browser) (htmlContent outputPath : value) (opts : options) :
  ~ nonEmptyString htmlContent \/ ~ nonEmptyString outputPath ->
  noBrowserCall (convertHTMLToPDF env htmlContent outputPath opts) /\
  isInputError (convertHTMLToPDF env htmlContent outputPath opts).
Proof.
  intros H. unfold convertHTMLToPDF.
  destruct (truthy htmlContent && isString htmlContent) eqn:E1.
  - destruct (truthy outputPath && isString outputPath) eqn:E2.
    + apply truthy_string in E1, E2. tauto.
    + apply andb_true_iff in E1. destruct E1 as [-> ->]. simpl.
      apply andb_false_iff in E2.
      destruct E2 as [-> | ->]; simpl; rewrite ?orb_true_r;
        (split; [reflexivity | eexists; reflexivity]).
  - apply andb_false_iff in E1.
    destruct E1 as [-> | ->]; simpl; rewrite ?orb_true_r;
      (split; [reflexivity | eexists; reflexivity]).
Qed.

Lemma convert_rejects_bad_input_witness :
  noBrowserCall
    (convertHTMLToPDF (Browser false false false false false)
       (VString []) (VString (L "out.pdf")) (Options None None None None None)) /\
  isInputError
    (convertHTMLToPDF (Browser false false false false false)
       (VString []) (VString (L "out.pdf")) (Options None None None None None)).
Proof.
  apply convert_rejects_bad_input.
  left. intros (c & s & H). discriminate H.
Defined.

(** The example of the documentation, with its message. *)
Lemma convert_empty_html (env : browser) (opts : options) :
  convertHTMLToPDF env (VString []) (VString (L "out.pdf")) opts =
  ([], inl (InputError (L "htmlContent must be a non-empty string"))).
Proof. reflexivity. Qed.

(** With two non-empty strings the browser is launched. *)
Lemma convert_launches
    (env : browser) (htmlContent outputPath : value) (opts : options) :
  nonEmptyString htmlContent -> nonEmptyString outputPath ->
  exists trace,
    fst (convertHTMLToPDF env htmlContent outputPath opts) = Launch :: trace.
Proof.
  intros (c1 & s1 & ->) (c2 & s2 & ->). unfold convertHTMLToPDF. simpl.
  destruct (launchFails env); [now exists []|].
  destruct (finallyClose env _) as [trace r]. now exists trace.
Qed.

(** *** fixCenteringIssues on the examples *)

(** C6: the wrapper with class [content] around a centred child is replaced
    by the child. *)
Theorem fixCentering_example :
  fixCenteringIssues contentWrapper = Some centredChild.
Proof. vm_compute. reflexivity. Qed.

(** A wrapper with class [content] that carries a style of its own is
    removed all the same: the first pattern is replaced without a look at the
    style of the wrapper.  The statement that a styled container is never
    removed fails on this input. *)
Lemma styled_content_wrapper_removed :
  fixCenteringIssues styledContentWrapper = Some centredChild /\
  includes (L "border:1px solid red") styledContentWrapper = true.
Proof. split; vm_compute; reflexivity. Qed.

(** The second pattern keeps a styled wrapper, unless the attribute is
    written with blanks around [=]. *)
Lemma styled_wrapper_kept :
  fixCenteringIssues styledWrapper = Some styledWrapper.
Proof. vm_compute. reflexivity. Qed.

Lemma spaced_style_wrapper_removed :
  fixCenteringIssues spacedStyleWrapper = Some centredChild.
Proof. vm_compute. reflexivity. Qed.

(** *** renderHTMLCodeBlocks on the examples *)

(** C7 (the code differs): the code block of the example holds [&lt;] and
    [&gt;], no [<] and no [>]; it is returned as it is, without a preview,
    also by [processHTMLContent] with [renderCodeBlocks] set. *)
Theorem escaped_code_block_no_preview :
  renderHTMLCodeBlocks escapedCodeBlock = Some escapedCodeBlock /\
  includes previewLabel escapedCodeBlock = false /\
  option_map (includes previewLabel)
    (processHTMLContent escapedCodeBlock defaultConfig) = Some false.
Proof. conjs; vm_compute; reflexivity. Qed.

(** A block written with [<] and [>] does get its preview. *)
Lemma raw_code_block_preview :
  renderHTMLCodeBlocks rawCodeBlock =
  Some (rawCodeBlock ++ preview (L "<h1>Hi</h1>")) /\
  countOcc false previewLabel (rawCodeBlock ++ preview (L "<h1>Hi</h1>")) = 1.
Proof. split; vm_compute; reflexivity. Qed.

(** *** processHTMLContent on a document with upper-case tags *)

(** The shell of this document is found, the tests being case-insensitive,
    but [replace] looks for [</head>] in lower case: the document is returned
    without any style block. *)
Lemma upper_case_document_no_style :
  hasShell upperCaseDocument = true /\
  processHTMLContent upperCaseDocument defaultConfig = Some upperCaseDocument /\
  countOcc false (generateCSS defaultConfig) upperCaseDocument = 0.
Proof. conjs; vm_compute; reflexivity. Qed.

Lemma fragment_one_style :
  option_map (countOcc false (generateCSS defaultConfig))
    (processHTMLContent fragment defaultConfig) = Some 1.
Proof. vm_compute. reflexivity. Qed.

End ConverterFacts.

Module ProcessFacts.
Import StringFacts RegexFacts StyleFacts Converter.

(** *** Termination of the replace loops *)

Lemma fixCenteringIssues_total (html : str) :
  exists fixed, fixCenteringIssues html = Some fixed.
Proof.
  unfold fixCenteringIssues.
  assert (H1 : exists t,
    (if test centeringPattern html
     then replaceRegex centeringPattern contentReplacer html
     else Some html) = Some t).
  { destruct (test centeringPattern html); [apply replaceRegex_total | eauto]. }
  destruct H1 as (t & ->).
  destruct (test generalCenteringPattern t); [apply replaceRegex_total | eauto].
Qed.

Lemma renderHTMLCodeBlocks_total (html : str) :
  exists out, renderHTMLCodeBlocks html = Some out.
Proof. apply replaceRegex_total. Qed.

Lemma renderIf_total (cfg : config) (html : str) :
  exists out, renderIf cfg html = Some out.
Proof.
  unfold renderIf. destruct (renderCodeBlocks cfg);
    [apply renderHTMLCodeBlocks_total | eauto].
Qed.

Lemma processHTMLContent_eq (html fixed : str) (cfg : config) :
  fixCenteringIssues html = Some fixed ->
  processHTMLContent html cfg = renderIf cfg (injectStyle cfg fixed).
Proof. intros E. unfold processHTMLContent, renderIf. now rewrite E. Qed.

(** *** The code block pattern *)

Lemma matchAt_codeBlock (s : str) :
  matchAt codeBlockPattern s =
  match stripPrefix true openTags s with
  | Some s' =>
      starLazy anyChar s'
        (fun s'' =>
           match stripPrefix true closeTags s'' with
           | Some rest => Some (rest, Some (consumed s' s''))
           | None => None
           end)
  | None => None
  end.
Proof. reflexivity. Qed.

Lemma codeBlock_no_open (s : str) :
  stripPrefix true openTags s = None -> matchAt codeBlockPattern s = None.
Proof. intros H. now rewrite matchAt_codeBlock, H. Qed.

Lemma no_open_no_match (x y : str) :
  everySuffix (fun s => stripPrefix true openTags s = None) x y ->
  everySuffix (fun s => matchAt codeBlockPattern s = None) x y.
Proof. apply everySuffix_impl. apply codeBlock_no_open. Qed.

(** A word of the pattern: opening tags, content, closing tags; the group
    is the content. *)
Lemma codeBlock_sem (w : str) (c0 cap : option str) :
  sem codeBlockPattern w c0 cap ->
  exists o c cl,
    w = o ++ c ++ cl /\ cap = Some c /\
    stripPrefix true openTags o = Some [] /\
    stripPrefix true closeTags cl = Some [].
Proof.
  unfold codeBlockPattern. intros H.
  inversion H as [| | | |r1 r2 o w' a0 a1 a2 Ho Hrest|]; subst.
  inversion Ho; subst.
  inversion Hrest as [| | | |r1 r2 c cl b0 b1 b2 Hc Hcl|]; subst.
  inversion Hc; subst. inversion Hcl; subst.
  exists o, c, cl. auto.
Qed.

Lemma stripPrefix_nonempty (ci : bool) (p : ascii) (pat w : str) :
  stripPrefix ci (p :: pat) w = Some [] -> exists c w', w = c :: w'.
Proof. destruct w as [|c w']; [discriminate | eauto]. Qed.

(** *** renderHTMLCodeBlocks adds previews and changes nothing else *)

Lemma codeBlockReplacer_piece (o c cl : str) :
  codeBlockReplacer (o ++ c ++ cl) (Some c) = pieceOutput (Block o c cl).
Proof.
  unfold codeBlockReplacer, pieceOutput, looksLikeHTML. simpl.
  destruct (includes _ c && includes _ c);
    [reflexivity | symmetry; apply app_nil_r].
Qed.

(** C8: the input is a sequence of plain texts and code blocks with the
    literal tags; the output is the same sequence, every piece unchanged,
    with a preview right after each block whose content holds both [<] and
    [>], and nothing after the other blocks. *)
Theorem render_additive (s : str) :
  exists ps : list piece,
    Forall literalTags ps /\
    s = flat_map pieceSource ps /\
    renderHTMLCodeBlocks s = Some (flat_map pieceOutput ps).
Proof.
  remember (length s) as n eqn:Hn. revert s Hn.
  induction n as [n IH] using lt_wf_ind. intros s ->.
  destruct (exec codeBlockPattern s) as [m|] eqn:E.
  - destruct (exec_sound _ _ _ E) as (Hs & Hsem & _).
    destruct (codeBlock_sem _ _ _ Hsem) as (o & c & cl & Hm & Hg & Ho & Hcl).
    destruct (stripPrefix_nonempty _ _ _ _ Ho) as (c0 & o' & ->).
    destruct (IH (length (after m))) with (s := after m)
      as (ps & Hps & Hsrc & Hout); [|reflexivity|].
    { rewrite Hs, Hm, !length_app. simpl. lia. }
    exists (Plain (before m) :: Block (c0 :: o') c cl :: ps).
    split; [|split].
    + repeat constructor; auto.
    + cbn [flat_map pieceSource]. rewrite <- Hsrc, <- Hm. exact Hs.
    + unfold renderHTMLCodeBlocks in *.
      rewrite (replaceRegex_step _ _ _ _ c0 (o' ++ c ++ cl) E)
        by (rewrite Hm; reflexivity).
      rewrite Hout. cbn [option_map flat_map pieceOutput].
      rewrite Hg, Hm, codeBlockReplacer_piece. cbn [pieceOutput].
      now rewrite <- !app_assoc.
  - exists [Plain s]. split; [|split].
    + repeat constructor.
    + simpl. now rewrite app_nil_r.
    + simpl. rewrite app_nil_r. now apply replaceRegex_none.
Qed.

End ProcessFacts.

Module ShellFacts.
Import StringFacts RegexFacts StyleFacts Converter ProcessFacts.

Lemma shellMid_eq : shellMid = newline ++ headClose ++ bodyOpen.
Proof. reflexivity. Qed.

Lemma injectStyle_fragment (cfg : config) (html : str) :
  hasShell html = false -> injectStyle cfg html = wrapped cfg html.
Proof.
  unfold hasShell, injectStyle, wrapped. intros H.
  destruct (hasHTML html), (hasHead html), (hasBody html);
    try discriminate H; reflexivity.
Qed.

Lemma injectStyle_complete (cfg : config) (html : str) :
  hasShell html = true ->
  injectStyle cfg html = replaceString headClose (spliceText cfg) html.
Proof.
  unfold hasShell, injectStyle. intros H.
  destruct (hasHTML html), (hasHead html), (hasBody html);
    try discriminate H; reflexivity.
Qed.

Lemma hasHTML_shellHead (y : str) : hasHTML (shellHead ++ y) = true.
Proof. vm_compute. reflexivity. Qed.

Lemma hasHead_shellHead (y : str) : hasHead (shellHead ++ y) = true.
Proof. vm_compute. reflexivity. Qed.

Lemma hasBody_shellMid (y : str) : hasBody (shellMid ++ y) = true.
Proof. vm_compute. reflexivity. Qed.

(** Whatever follows the head of the shell, the three tests succeed. *)
Lemma hasShell_shell (cfg : config) (y : str) :
  hasShell (shellHead ++ generateCSS cfg ++ shellMid ++ y) = true.
Proof.
  unfold hasShell. rewrite hasHTML_shellHead, hasHead_shellHead.
  cbn [andb].
  replace (shellHead ++ generateCSS cfg ++ shellMid ++ y)
    with ((shellHead ++ generateCSS cfg) ++ shellMid ++ y)
    by (now rewrite <- app_assoc).
  unfold hasBody. apply test_app_r. apply hasBody_shellMid.
Qed.

Lemma hasShell_wrapped (cfg : config) (body : str) :
  hasShell (wrapped cfg body) = true.
Proof. apply hasShell_shell. Qed.

(** The first [</head>] of a wrapped document is the one of the shell. *)
Lemma indexOf_wrapped (cfg : config) (body : str) :
  indexOf headClose (wrapped cfg body) =
  Some (shellHead ++ generateCSS cfg ++ newline,
        bodyOpen ++ body ++ shellTail).
Proof.
  unfold wrapped. rewrite shellMid_eq.
  replace (shellHead ++ generateCSS cfg ++ (newline ++ headClose ++ bodyOpen)
             ++ body ++ shellTail)
    with ((shellHead ++ generateCSS cfg ++ newline) ++
          headClose ++ bodyOpen ++ body ++ shellTail)
    by (now rewrite <- !app_assoc).
  rewrite indexOf_skip.
  - rewrite indexOf_here, app_nil_r. reflexivity.
  - apply everySuffix_app; [|apply everySuffix_app].
    + apply noStartB_sound. vm_compute. reflexivity.
    + apply generateCSS_no_headClose.
    + apply noStartB_sound. vm_compute. reflexivity.
Qed.

Lemma splice_wrapped (cfg : config) (body : str) :
  replaceString headClose (spliceText cfg) (wrapped cfg body) =
  wrappedTwice cfg body.
Proof.
  unfold replaceString. rewrite indexOf_wrapped, spliceText_plain.
  unfold spliceText, wrappedTwice. rewrite shellMid_eq.
  now rewrite <- !app_assoc.
Qed.

(** A fragment is wrapped, the shell is then detected, and a second run
    splices the style block once more. *)
Lemma converter_second_pass (cfg : config) (html : str) :
  hasShell html = false ->
  injectStyle cfg html = wrapped cfg html /\
  hasShell (injectStyle cfg html) = true /\
  injectStyle cfg (injectStyle cfg html) = wrappedTwice cfg html.
Proof.
  intros H. rewrite (injectStyle_fragment cfg html H).
  split; [reflexivity|]. split; [apply hasShell_wrapped|].
  rewrite injectStyle_complete by apply hasShell_wrapped.
  apply splice_wrapped.
Qed.

End ShellFacts.

Module RenderFacts.
Import StringFacts RegexFacts StyleFacts Converter ProcessFacts ShellFacts.

(** *** Code blocks inside the shell *)

Lemma consumed_tail (s u t : str) :
  consumed (s ++ t) (u ++ t) = consumed s u.
Proof.
  unfold consumed. rewrite !length_app.
  replace (length s + length t - (length u + length t))
    with (length s - length u) by lia.
  rewrite firstn_app.
  replace (length s - length u - length s) with 0 by lia.
  simpl. apply app_nil_r.
Qed.

Lemma starLazy_unfold (p : ascii -> bool) (s : str) (k : str -> option mstate) :
  starLazy p s k =
  match k s with
  | Some r => Some r
  | None =>
      match s with
      | c :: s' => if p c then starLazy p s' k else None
      | [] => None
      end
  end.
Proof. destruct s; reflexivity. Qed.

Lemma starLazy_tail (k k' : str -> option mstate) (g : mstate -> mstate)
    (t : str) :
  (forall u, k' (u ++ t) = option_map g (k u)) ->
  match t with [] => True | _ :: t' => starLazy anyChar t' k' = None end ->
  forall u, starLazy anyChar (u ++ t) k' = option_map g (starLazy anyChar u k).
Proof.
  intros Hk Ht. induction u as [|c u IH].
  - rewrite (starLazy_unfold _ [] k), (starLazy_unfold _ ([] ++ t) k').
    rewrite Hk. destruct (k []) as [r|]; [reflexivity|]. simpl.
    destruct t as [|c t']; [reflexivity | exact Ht].
  - rewrite (starLazy_unfold _ (c :: u) k), (starLazy_unfold _ ((c :: u) ++ t) k').
    rewrite Hk. destruct (k (c :: u)) as [r|]; [reflexivity|]. simpl.
    exact IH.
Qed.

(** The text [shellTail] after the body takes no part in a match. *)
Lemma matchAt_codeBlock_tail (s : str) :
  matchAt codeBlockPattern (s ++ shellTail) =
  option_map (addTail shellTail) (matchAt codeBlockPattern s).
Proof.
  rewrite !matchAt_codeBlock.
  destruct (stripPrefix true openTags s) as [s'|] eqn:E.
  - rewrite (stripPrefix_app _ _ _ _ shellTail E).
    apply starLazy_tail.
    + intros u. destruct (stripPrefix true closeTags u) as [rest|] eqn:E'.
      * rewrite (stripPrefix_app _ _ _ _ shellTail E'). simpl.
        unfold addTail. simpl. now rewrite consumed_tail.
      * change shellTail with (ascii_of_nat 10 :: tl shellTail).
        rewrite stripPrefix_none_ext; [reflexivity | reflexivity | exact E'].
    + vm_compute. reflexivity.
  - change shellTail with (ascii_of_nat 10 :: tl shellTail).
    rewrite stripPrefix_none_ext; [reflexivity | reflexivity | exact E].
Qed.

Lemma exec_codeBlock_tail (y : str) :
  exec codeBlockPattern (y ++ shellTail) =
  option_map (addAfter shellTail) (exec codeBlockPattern y).
Proof.
  induction y as [|c y IH].
  - vm_compute. reflexivity.
  - change ((c :: y) ++ shellTail) with (c :: y ++ shellTail).
    rewrite !exec_cons.
    change (c :: y ++ shellTail) with ((c :: y) ++ shellTail).
    rewrite matchAt_codeBlock_tail.
    destruct (matchAt codeBlockPattern (c :: y)) as [[rest cap]|]; simpl.
    + unfold addAfter, addTail. simpl.
      change (c :: y ++ shellTail) with ((c :: y) ++ shellTail).
      now rewrite consumed_tail.
    + rewrite IH. now destruct (exec codeBlockPattern y).
Qed.

Lemma render_tail (y : str) :
  renderHTMLCodeBlocks (y ++ shellTail) =
  option_map (fun t => t ++ shellTail) (renderHTMLCodeBlocks y).
Proof.
  remember (length y) as n eqn:Hn. revert y Hn.
  induction n as [n IH] using lt_wf_ind. intros y ->.
  unfold renderHTMLCodeBlocks in *.
  destruct (exec codeBlockPattern y) as [m|] eqn:E.
  - destruct (exec_sound _ _ _ E) as (Hs & Hsem & _).
    destruct (codeBlock_sem _ _ _ Hsem) as (o & c & cl & Hm & Hg & Ho & Hcl).
    destruct (stripPrefix_nonempty _ _ _ _ Ho) as (c0 & o' & ->).
    assert (E' : exec codeBlockPattern (y ++ shellTail) =
                 Some (addAfter shellTail m))
      by (now rewrite exec_codeBlock_tail, E).
    rewrite (replaceRegex_step _ _ _ _ c0 (o' ++ c ++ cl) E')
      by (simpl; rewrite Hm; reflexivity).
    rewrite (replaceRegex_step _ _ _ _ c0 (o' ++ c ++ cl) E)
      by (rewrite Hm; reflexivity).
    cbn [addAfter before matched group1 after].
    rewrite (IH (length (after m))) with (y := after m); [|  | reflexivity].
    + destruct (replaceRegex codeBlockPattern codeBlockReplacer (after m));
        simpl; [|reflexivity].
      now rewrite <- !app_assoc.
    + rewrite Hs, Hm, !length_app. simpl. lia.
  - rewrite !replaceRegex_none; [reflexivity | exact E |].
    now rewrite exec_codeBlock_tail, E.
Qed.

(** No code block opens inside the head of the shell. *)
Lemma shell_no_openTags (cfg : config) (y : str) :
  everySuffix (fun s => matchAt codeBlockPattern s = None)
    (shellHead ++ generateCSS cfg ++ shellMid) y.
Proof.
  apply no_open_no_match.
  apply everySuffix_app; [|apply everySuffix_app].
  - apply noStartB_sound. vm_compute. reflexivity.
  - apply generateCSS_no_openTags.
  - apply noStartB_sound. vm_compute. reflexivity.
Qed.

(** The previews of a wrapped document are those of its body. *)
Lemma render_wrapped (cfg : config) (body : str) :
  renderHTMLCodeBlocks (wrapped cfg body) =
  option_map (wrapped cfg) (renderHTMLCodeBlocks body).
Proof.
  unfold wrapped at 1.
  replace (shellHead ++ generateCSS cfg ++ shellMid ++ body ++ shellTail)
    with ((shellHead ++ generateCSS cfg ++ shellMid) ++ body ++ shellTail)
    by (now rewrite <- !app_assoc).
  unfold renderHTMLCodeBlocks at 1.
  rewrite replaceRegex_skip by apply shell_no_openTags.
  fold (renderHTMLCodeBlocks (body ++ shellTail)). rewrite render_tail.
  destruct (renderHTMLCodeBlocks body) as [t|]; cbn [option_map];
    [|reflexivity].
  unfold wrapped. now rewrite <- !app_assoc.
Qed.

Lemma renderIf_wrapped (cfg : config) (body : str) :
  renderIf cfg (wrapped cfg body) = option_map (wrapped cfg) (renderIf cfg body).
Proof.
  unfold renderIf. destruct (renderCodeBlocks cfg);
    [apply render_wrapped | reflexivity].
Qed.

End RenderFacts.

Module AttributeFacts.
Import StringFacts RegexFacts StyleFacts Converter ProcessFacts.

Lemma noAngle_gt (a : ascii) : noAngle a = true -> cmp true ">" a = false.
Proof.
  unfold noAngle, cmp. rewrite eqci_gt, Ascii.eqb_sym. intros H.
  apply andb_true_iff in H. destruct H as [_ H]. now apply negb_true_iff.
Qed.

Lemma noAngle_lt (a : ascii) : noAngle a = true -> cmp true "<" a = false.
Proof.
  unfold noAngle, cmp. rewrite eqci_lt, Ascii.eqb_sym. intros H.
  apply andb_true_iff in H. destruct H as [H _]. now apply negb_true_iff.
Qed.

Lemma noAngle_first (x : str) :
  forallb noAngle x = true ->
  forallb (fun c => negb (cmp true "<" c)) x = true.
Proof.
  apply forallb_impl. intros a H. now rewrite (noAngle_lt a H).
Qed.

(** A text shorter than the pattern, followed by a character that the
    pattern does not have at that place. *)
Lemma stripPrefix_short (ci : bool) (pat v : str) (t0 : ascii) (t : str) :
  length v < length pat ->
  cmp ci (nth (length v) pat t0) t0 = false ->
  stripPrefix ci pat (v ++ t0 :: t) = None.
Proof.
  revert v. induction pat as [|p pat IH]; intros v Hl Hc; simpl in Hl; [lia|].
  destruct v as [|c v]; simpl in *.
  - now rewrite Hc.
  - destruct (cmp ci p c); [apply IH; [lia | exact Hc] | reflexivity].
Qed.

Lemma stripPrefix_long (ci : bool) (pat u y : str) :
  stripPrefix ci pat u = None -> length pat <= length u ->
  stripPrefix ci pat (u ++ y) = None.
Proof.
  revert u. induction pat as [|p pat IH]; intros u H Hl; [discriminate H|].
  destruct u as [|c u]; simpl in *; [lia|].
  destruct (cmp ci p c); [apply IH; [exact H | lia] | reflexivity].
Qed.

(** A text in which no code block opens, in front of a [<] that does not
    start [<code>]: no code block opens across the end of the text. *)
Lemma no_open_across (v : str) (r0 : ascii) (rest : str) :
  v <> [] ->
  startsWith true openTags v = false ->
  cmp true "c" r0 = false ->
  stripPrefix true openTags (v ++ "<"%char :: r0 :: rest) = None.
Proof.
  intros Hne H Hr.
  unfold startsWith in H.
  destruct (stripPrefix true openTags v) as [r|] eqn:E; [discriminate H|].
  destruct (Nat.le_gt_cases (length openTags) (length v)) as [Hl|Hl].
  - now apply stripPrefix_long.
  - destruct (Nat.eq_dec (length v) 5) as [H5|H5].
    + destruct v as [|c1 [|c2 [|c3 [|c4 [|c5 [|c6 v]]]]]]; try discriminate H5.
      cbn [app stripPrefix openTags L list_ascii_of_string].
      destruct (cmp true "<" c1); [|reflexivity].
      destruct (cmp true "p" c2); [|reflexivity].
      destruct (cmp true "r" c3); [|reflexivity].
      destruct (cmp true "e" c4); [|reflexivity].
      destruct (cmp true ">" c5); [|reflexivity].
      change (cmp true "<" "<") with true. cbv iota. now rewrite Hr.
    + apply stripPrefix_short; [exact Hl|].
      destruct v as [|c1 [|c2 [|c3 [|c4 [|c5 [|c6 [|c7 [|c8 [|c9 [|c10 [|c11 v]]]]]]]]]]];
        try reflexivity; try congruence; simpl in Hl, H5; lia.
Qed.

Lemma noOpen_everySuffix (x : str) (r0 : ascii) (rest : str) :
  countOcc true openTags x = 0 ->
  cmp true "c" r0 = false ->
  everySuffix (fun s => stripPrefix true openTags s = None) x
    ("<"%char :: r0 :: rest).
Proof.
  intros H Hr. induction x as [|c x IH]; [apply everySuffix_nil|].
  change (countOcc true openTags (c :: x))
    with ((if startsWith true openTags (c :: x) then 1 else 0)
          + countOcc true openTags x) in H.
  destruct (startsWith true openTags (c :: x)) eqn:E; [discriminate H|].
  apply everySuffix_cons; [|apply IH; exact H].
  change (c :: x ++ "<"%char :: r0 :: rest)
    with ((c :: x) ++ "<"%char :: r0 :: rest).
  apply no_open_across; [discriminate | exact E | exact Hr].
Qed.

(** The pattern fails at the opening tag of a block with an attribute. *)
Lemma attributed_open_fails (attrs1 attrs2 rest : str) :
  attrs1 ++ attrs2 <> [] ->
  forallb noAngle (attrs1 ++ attrs2) = true ->
  stripPrefix true openTags
    (L "<pre" ++ attrs1 ++ L "><code" ++ attrs2 ++ L ">" ++ rest) = None.
Proof.
  intros Hne Hattr.
  destruct attrs1 as [|x attrs1].
  - destruct attrs2 as [|x attrs2]; [exfalso; apply Hne; reflexivity|].
    simpl in Hattr. apply andb_true_iff in Hattr. destruct Hattr as [Hx _].
    change (L "<pre" ++ [] ++ L "><code" ++ (x :: attrs2) ++ L ">" ++ rest)
      with (L "<pre><code" ++ x :: attrs2 ++ L ">" ++ rest).
    change openTags with (L "<pre><code" ++ L ">").
    rewrite stripPrefix_cat.
    replace (stripPrefix true (L "<pre><code")
               (L "<pre><code" ++ x :: attrs2 ++ L ">" ++ rest))
      with (Some (x :: attrs2 ++ L ">" ++ rest)) by reflexivity.
    cbn [stripPrefix L list_ascii_of_string]. now rewrite (noAngle_gt x Hx).
  - simpl in Hattr. apply andb_true_iff in Hattr. destruct Hattr as [Hx _].
    change (L "<pre" ++ (x :: attrs1) ++ L "><code" ++ attrs2 ++ L ">" ++ rest)
      with (L "<pre" ++ x :: attrs1 ++ L "><code" ++ attrs2 ++ L ">" ++ rest).
    change openTags with (L "<pre" ++ L "><code>").
    rewrite stripPrefix_cat.
    replace (stripPrefix true (L "<pre")
               (L "<pre" ++ x :: attrs1 ++ L "><code" ++ attrs2 ++ L ">" ++ rest))
      with (Some (x :: attrs1 ++ L "><code" ++ attrs2 ++ L ">" ++ rest))
      by reflexivity.
    cbn [stripPrefix L list_ascii_of_string]. now rewrite (noAngle_gt x Hx).
Qed.

(** No code block opens anywhere inside a block with an attribute. *)
Lemma attributed_no_open (attrs1 attrs2 c b : str) :
  attrs1 ++ attrs2 <> [] ->
  forallb noAngle (attrs1 ++ attrs2) = true ->
  countOcc true openTags c = 0 ->
  everySuffix (fun s => stripPrefix true openTags s = None)
    (attributedBlock attrs1 attrs2 c) b.
Proof.
  intros Hne Hattr Hc.
  pose proof Hattr as Hattr'.
  rewrite forallb_app in Hattr'. apply andb_true_iff in Hattr'.
  destruct Hattr' as [H1 H2].
  unfold attributedBlock.
  change (L "<pre" ++ attrs1 ++ L "><code" ++ attrs2 ++ L ">" ++ c ++ closeTags)
    with (L "<" ++ L "pre" ++ attrs1 ++ L "><code" ++ attrs2 ++ L ">" ++ c ++ closeTags).
  apply everySuffix_app.
  { apply everySuffix_cons; [|apply everySuffix_nil].
    rewrite <- !app_assoc.
    exact (attributed_open_fails attrs1 attrs2 (c ++ closeTags ++ b) Hne Hattr). }
  apply everySuffix_app; [apply everySuffix_first; reflexivity|].
  apply everySuffix_app; [apply everySuffix_first, noAngle_first, H1|].
  apply everySuffix_app; [apply noStartB_sound; reflexivity|].
  apply everySuffix_app; [apply everySuffix_first, noAngle_first, H2|].
  apply everySuffix_app; [apply noStartB_sound; reflexivity|].
  apply everySuffix_app; [|apply noStartB_sound; reflexivity].
  change (closeTags ++ b) with ("<"%char :: "/"%char :: L "code></pre>" ++ b).
  now apply noOpen_everySuffix.
Qed.

(** An attribute on the [code] tag, evaluated. *)
Lemma attributed_code_unchanged :
  renderHTMLCodeBlocks (attributedBlock [] (L " class=x") (L "<b>hi</b>")) =
  Some (L "<pre><code class=x><b>hi</b></code></pre>").
Proof. vm_compute. reflexivity. Qed.

End AttributeFacts.

Module CenteringFacts.
Import StringFacts RegexFacts Converter ProcessFacts.

(** *** A global replace, piece by piece *)

Lemma replaceRegex_edits (r : regex) (f : str -> option str -> str) :
  (forall w g, sem r w None g -> w <> []) ->
  forall s,
    exists es,
      Forall (editOf r) es /\
      s = flat_map editSource es /\
      replaceRegex r f s = Some (flat_map (editOutput f) es).
Proof.
  intros Hne s.
  remember (length s) as n eqn:Hn. revert s Hn.
  induction n as [n IH] using lt_wf_ind. intros s ->.
  destruct (exec r s) as [m|] eqn:E.
  - destruct (exec_sound _ _ _ E) as (Hs & Hsem & _).
    destruct (matched m) as [|c0 mt] eqn:Hm; [now apply Hne in Hsem|].
    destruct (IH (length (after m))) with (s := after m)
      as (es & Hes & Hsrc & Hout); [|reflexivity|].
    { rewrite Hs, !length_app. simpl. lia. }
    exists (Copied (before m) :: Matched (c0 :: mt) (group1 m) :: es).
    split; [|split].
    + repeat constructor; auto.
    + cbn [flat_map editSource]. now rewrite <- Hsrc.
    + rewrite (replaceRegex_step _ _ _ _ c0 mt E Hm), Hout, Hm.
      cbn [option_map flat_map editOutput]. now rewrite <- !app_assoc.
  - exists [Copied s]. split; [|split].
    + repeat constructor.
    + simpl. now rewrite app_nil_r.
    + simpl. rewrite app_nil_r. now apply replaceRegex_none.
Qed.

Lemma guarded_replace (r : regex) (f : str -> option str -> str) (s : str) :
  (if test r s then replaceRegex r f s else Some s) = replaceRegex r f s.
Proof.
  unfold test. destruct (exec r s) eqn:E; [reflexivity|].
  symmetry. now apply replaceRegex_none.
Qed.

(** *** The words of the two patterns *)

Lemma wrapper_sem (tag : regex) (w : str) (c0 g : option str) :
  sem (tag · Star isSpace · Group innerDivPattern · Star isSpace ·
       Chars (L "</div>"))%regex w c0 g ->
  exists o w1 c w2 cl,
    w = o ++ w1 ++ c ++ w2 ++ cl /\ g = Some c /\
    wrapperShape tag (Removed o w1 c w2 cl).
Proof.
  intros H.
  inversion H as [| | | |? ? o r1 a0 a1 a2 Ho H1|]; subst.
  inversion H1 as [| | | |? ? w1 r2 b0 b1 b2 Hw1 H2|]; subst.
  inversion H2 as [| | | |? ? c r3 d0 d1 d2 Hc H3|]; subst.
  inversion H3 as [| | | |? ? w2 cl e0 e1 e2 Hw2 Hcl|]; subst.
  inversion Hw1; subst. inversion Hc; subst. inversion Hw2; subst.
  inversion Hcl; subst.
  exists o, w1, c, w2, cl. split; [reflexivity|]. split; [reflexivity|].
  simpl. unfold word. eauto 10.
Qed.

Lemma tag_nonempty (rest : regex) (w : str) (c0 c1 : option str) :
  sem (Chars (L "<div") · rest)%regex w c0 c1 -> w <> [].
Proof.
  intros H. inversion H as [| | | |? ? o r1 a0 a1 a2 Ho H1|]; subst.
  inversion Ho; subst. destruct o; [discriminate|]. discriminate.
Qed.

Lemma centering_nonempty (w : str) (g : option str) :
  sem centeringPattern w None g -> w <> [].
Proof.
  intros H. inversion H as [| | | |? ? o r1 a0 a1 a2 Ho H1|]; subst.
  apply tag_nonempty in Ho. destruct o; [congruence | discriminate].
Qed.

Lemma general_nonempty (w : str) (g : option str) :
  sem generalCenteringPattern w None g -> w <> [].
Proof.
  intros H. inversion H as [| | | |? ? o r1 a0 a1 a2 Ho H1|]; subst.
  apply tag_nonempty in Ho. destruct o; [congruence | discriminate].
Qed.

(** *** From the matches to the wrappers *)

Lemma content_removals (es : list edit) :
  Forall (editOf centeringPattern) es ->
  exists rs,
    Forall (wrapperShape contentTagPattern) rs /\
    flat_map editSource es = flat_map removalSource rs /\
    flat_map (editOutput contentReplacer) es = flat_map removalOutput rs.
Proof.
  induction 1 as [|e es He _ IH].
  - exists []. repeat split. constructor.
  - destruct IH as (rs & Hrs & Hsrc & Hout).
    destruct e as [t|m g].
    + exists (Kept t :: rs). simpl. rewrite Hsrc, Hout.
      repeat split. now constructor.
    + simpl in He. apply wrapper_sem in He.
      destruct He as (o & w1 & c & w2 & cl & -> & -> & Hshape).
      exists (Removed o w1 c w2 cl :: rs). simpl. rewrite Hsrc, Hout.
      repeat split. now constructor.
Qed.

Lemma general_removals (es : list edit) :
  Forall (editOf generalCenteringPattern) es ->
  exists rs,
    Forall (wrapperShape anyTagPattern) rs /\
    Forall passesTests rs /\
    flat_map editSource es = flat_map removalSource rs /\
    flat_map (editOutput generalReplacer) es = flat_map removalOutput rs.
Proof.
  induction 1 as [|e es He _ IH].
  - exists []. repeat split; constructor.
  - destruct IH as (rs & Hrs & Hts & Hsrc & Hout).
    destruct e as [t|m g].
    + exists (Kept t :: rs). simpl. rewrite Hsrc, Hout.
      repeat split; now constructor.
    + simpl in He. apply wrapper_sem in He.
      destruct He as (o & w1 & c & w2 & cl & -> & -> & Hshape).
      cbn [flat_map editSource editOutput]. rewrite Hsrc, Hout.
      unfold generalReplacer. cbn [groupText].
      destruct (hasMinimalStyling (wrapperDivOf (o ++ w1 ++ c ++ w2 ++ cl) c))
        eqn:E1;
        [destruct (hasCenteringStyles c) eqn:E2|]; cbn [andb].
      * exists (Removed o w1 c w2 cl :: rs).
        cbn [flat_map removalSource removalOutput].
        repeat split; constructor; simpl; auto.
      * exists (Kept (o ++ w1 ++ c ++ w2 ++ cl) :: rs).
        cbn [flat_map removalSource removalOutput].
        repeat split; now constructor.
      * exists (Kept (o ++ w1 ++ c ++ w2 ++ cl) :: rs).
        cbn [flat_map removalSource removalOutput].
        repeat split; now constructor.
Qed.

(** The two passes of [fixCenteringIssues], wrapper by wrapper. *)
Lemma fixCentering_pieces (html : str) :
  exists first second : list removal,
    Forall (wrapperShape contentTagPattern) first /\
    html = flat_map removalSource first /\
    Forall (wrapperShape anyTagPattern) second /\
    Forall passesTests second /\
    flat_map removalOutput first = flat_map removalSource second /\
    fixCenteringIssues html = Some (flat_map removalOutput second).
Proof.
  unfold fixCenteringIssues. rewrite guarded_replace.
  destruct (replaceRegex_edits centeringPattern contentReplacer
              centering_nonempty html) as (es1 & H1 & Hsrc1 & ->).
  rewrite guarded_replace.
  destruct (replaceRegex_edits generalCenteringPattern generalReplacer
              general_nonempty (flat_map (editOutput contentReplacer) es1))
    as (es2 & H2 & Hsrc2 & ->).
  destruct (content_removals es1 H1) as (first & Hf & Hfs & Hfo).
  destruct (general_removals es2 H2) as (second & Hs & Ht & Hss & Hso).
  exists first, second.
  split; [exact Hf|]. split; [congruence|]. split; [exact Hs|].
  split; [exact Ht|]. split; [congruence|]. now rewrite Hso.
Qed.

End CenteringFacts.

Module CountFacts.
Import StringFacts RegexFacts StyleFacts Converter ProcessFacts ShellFacts.

(** *** Counting occurrences *)

Lemma countOcc_cons (ci : bool) (pat : str) (c : ascii) (s : str) :
  countOcc ci pat (c :: s) =
  (if startsWith ci pat (c :: s) then 1 else 0) + countOcc ci pat s.
Proof. reflexivity. Qed.

Lemma countOcc_nil (ci : bool) (p : ascii) (pat : str) :
  countOcc ci (p :: pat) [] = 0.
Proof. reflexivity. Qed.

Lemma countOcc_skip (ci : bool) (pat x y : str) :
  everySuffix (fun s => stripPrefix ci pat s = None) x y ->
  countOcc ci pat (x ++ y) = countOcc ci pat y.
Proof.
  induction x as [|c x IH]; intros H; [reflexivity|].
  apply everySuffix_inv in H. destruct H as [H0 H].
  change ((c :: x) ++ y) with (c :: x ++ y).
  rewrite countOcc_cons. unfold startsWith. rewrite H0. simpl. auto.
Qed.

Lemma stripPrefix_refl (pat y : str) :
  stripPrefix false pat (pat ++ y) = Some y.
Proof.
  induction pat as [|p pat IH]; simpl; [reflexivity|].
  unfold cmp. now rewrite Ascii.eqb_refl.
Qed.

Lemma stripPrefix_exact (pat s r : str) :
  stripPrefix false pat s = Some r -> s = pat ++ r.
Proof.
  revert s. induction pat as [|p pat IH]; intros s H; simpl in *.
  - now inversion H.
  - destruct s as [|c s]; [discriminate|].
    unfold cmp in H. destruct (Ascii.eqb_spec p c) as [->|]; [|discriminate].
    now rewrite (IH _ H).
Qed.

Lemma indexOf_sound (pat : str) :
  forall s a b, indexOf pat s = Some (a, b) -> s = a ++ pat ++ b.
Proof.
  induction s as [|c s IH]; intros a b H.
  - simpl in H. destruct (stripPrefix false pat []) as [r|] eqn:E;
      [|discriminate].
    injection H as <- <-. exact (stripPrefix_exact _ _ _ E).
  - rewrite indexOf_cons in H.
    destruct (stripPrefix false pat (c :: s)) as [r|] eqn:E.
    + injection H as <- <-. exact (stripPrefix_exact _ _ _ E).
    + destruct (indexOf pat s) as [[a' b']|]; [|discriminate].
      injection H as <- <-. simpl. f_equal. now apply IH.
Qed.

(** The first occurrence: none starts before it. *)
Lemma indexOf_first (pat : str) :
  forall s a b, indexOf pat s = Some (a, b) ->
    everySuffix (fun t => stripPrefix false pat t = None) a (pat ++ b).
Proof.
  induction s as [|c s IH]; intros a b H.
  - simpl in H. destruct (stripPrefix false pat []); [|discriminate].
    inversion H; subst. apply everySuffix_nil.
  - rewrite indexOf_cons in H.
    destruct (stripPrefix false pat (c :: s)) as [r|] eqn:E.
    + inversion H; subst. apply everySuffix_nil.
    + destruct (indexOf pat s) as [[a' b']|] eqn:E'; [|discriminate].
      injection H as <- <-.
      apply everySuffix_cons; [|now apply IH].
      now rewrite <- (indexOf_sound _ _ _ _ E').
Qed.

Lemma countOcc_here (p : ascii) (pat y : str) :
  countOcc false (p :: pat) ((p :: pat) ++ y) =
  1 + countOcc false (p :: pat) (pat ++ y).
Proof.
  change ((p :: pat) ++ y) with (p :: pat ++ y) at 1.
  rewrite countOcc_cons. unfold startsWith.
  change (p :: pat ++ y) with ((p :: pat) ++ y).
  now rewrite stripPrefix_refl.
Qed.

(** A text followed by a character that the pattern has at its first place
    only: no occurrence lies across the end of the text. *)
Lemma startsWith_sep (ci : bool) (p : ascii) (pat : str) (c s0 : ascii)
    (v y : str) :
  forallb (fun q => negb (cmp ci q s0)) pat = true ->
  startsWith ci (p :: pat) ((c :: v) ++ s0 :: y) =
  startsWith ci (p :: pat) (c :: v).
Proof.
  intros Hsep. unfold startsWith. simpl.
  destruct (cmp ci p c); [|reflexivity].
  destruct (stripPrefix ci pat v) as [r|] eqn:E.
  - now rewrite (stripPrefix_app _ _ _ _ (s0 :: y) E).
  - now rewrite (stripPrefix_none_ext _ _ _ _ _ Hsep E).
Qed.

Lemma countOcc_sep (ci : bool) (p : ascii) (pat : str) (s0 : ascii) (x y : str) :
  forallb (fun q => negb (cmp ci q s0)) pat = true ->
  countOcc ci (p :: pat) (x ++ s0 :: y) =
  countOcc ci (p :: pat) x + countOcc ci (p :: pat) (s0 :: y).
Proof.
  intros Hsep. induction x as [|c x IH]; [reflexivity|].
  change ((c :: x) ++ s0 :: y) with (c :: x ++ s0 :: y).
  rewrite (countOcc_cons ci (p :: pat) c (x ++ s0 :: y)),
    (countOcc_cons ci (p :: pat) c x), IH.
  change (c :: x ++ s0 :: y) with ((c :: x) ++ s0 :: y).
  rewrite (startsWith_sep _ _ _ _ _ _ _ Hsep). lia.
Qed.

Lemma countOcc_tail_le (ci : bool) (pat : str) (c : ascii) (s : str) :
  countOcc ci pat s <= countOcc ci pat (c :: s).
Proof. rewrite countOcc_cons. lia. Qed.

Lemma countOcc_app_le (ci : bool) (pat x y : str) :
  countOcc ci pat y <= countOcc ci pat (x ++ y).
Proof.
  induction x as [|c x IH]; [reflexivity|].
  etransitivity; [exact IH | apply countOcc_tail_le].
Qed.

(** An occurrence of a longer pattern is one of its first part. *)
Lemma countOcc_prefix_le (ci : bool) (p1 p2 s : str) :
  countOcc ci (p1 ++ p2) s <= countOcc ci p1 s.
Proof.
  assert (Hsw : forall u, startsWith ci (p1 ++ p2) u = true ->
                          startsWith ci p1 u = true).
  { intros u. unfold startsWith. rewrite stripPrefix_cat.
    now destruct (stripPrefix ci p1 u). }
  induction s as [|c s IH].
  - simpl. destruct (startsWith ci (p1 ++ p2) []) eqn:E; [|lia].
    now rewrite (Hsw _ E).
  - rewrite !countOcc_cons.
    destruct (startsWith ci (p1 ++ p2) (c :: s)) eqn:E; [|lia].
    rewrite (Hsw _ E). lia.
Qed.

(** An occurrence of [c :: pat] is followed by one of [pat]. *)
Lemma countOcc_drop_le (ci : bool) (c : ascii) (pat s : str) :
  countOcc ci (c :: pat) s <= countOcc ci pat s.
Proof.
  assert (Hsw : forall a u, startsWith ci (c :: pat) (a :: u) = true ->
                            startsWith ci pat u = true).
  { intros a u. unfold startsWith. simpl.
    destruct (cmp ci c a); [|discriminate]. now destruct (stripPrefix ci pat u). }
  assert (H : forall s, countOcc ci (c :: pat) s <= countOcc ci pat (tl s)).
  { induction s0 as [|a s' IH]; [simpl; lia|].
    rewrite countOcc_cons. cbn [tl].
    destruct s' as [|b s''].
    - simpl. destruct (startsWith ci (c :: pat) [a]) eqn:E; [|lia].
      apply Hsw in E. rewrite E. lia.
    - cbn [tl] in IH. rewrite (countOcc_cons ci pat b s'').
      destruct (startsWith ci (c :: pat) (a :: b :: s'')) eqn:E; [|lia].
      apply Hsw in E. rewrite E. lia. }
  etransitivity; [apply H|].
  destruct s as [|a s']; [simpl; lia | apply countOcc_tail_le].
Qed.

Lemma countOcc_infix_le (ci : bool) (pre mid post s : str) :
  countOcc ci (pre ++ mid ++ post) s <= countOcc ci mid s.
Proof.
  induction pre as [|c pre IH]; simpl.
  - apply countOcc_prefix_le.
  - etransitivity; [apply countOcc_drop_le | exact IH].
Qed.

Lemma countOcc_occurs (p : ascii) (pat x y : str) :
  1 <= countOcc false (p :: pat) (x ++ (p :: pat) ++ y).
Proof.
  etransitivity; [|apply countOcc_app_le]. rewrite countOcc_here. lia.
Qed.

Lemma countOcc_app_le_l (ci : bool) (p : ascii) (pat x y : str) :
  countOcc ci (p :: pat) x <= countOcc ci (p :: pat) (x ++ y).
Proof.
  induction x as [|c x IH]; [simpl; lia|].
  change ((c :: x) ++ y) with (c :: x ++ y). rewrite !countOcc_cons.
  unfold startsWith.
  destruct (stripPrefix ci (p :: pat) (c :: x)) as [r|] eqn:E; [|lia].
  change (c :: x ++ y) with ((c :: x) ++ y).
  rewrite (stripPrefix_app _ _ _ _ y E). lia.
Qed.

(** A text that ends with a character that the pattern does not have: no
    occurrence lies across its end. *)
Lemma countOcc_sep_l (ci : bool) (p : ascii) (pat : str) (e0 : ascii) (x y : str) :
  forallb (fun q => negb (cmp ci q e0)) (p :: pat) = true ->
  countOcc ci (p :: pat) ((x ++ [e0]) ++ y) =
  countOcc ci (p :: pat) (x ++ [e0]) + countOcc ci (p :: pat) y.
Proof.
  intros H. pose proof H as H'. cbn [forallb] in H'.
  apply andb_true_iff in H'. destruct H' as [Hp Hpat].
  apply negb_true_iff in Hp.
  rewrite <- app_assoc. cbn [app].
  rewrite !(countOcc_sep ci p pat e0) by exact Hpat.
  rewrite !countOcc_cons. unfold startsWith. cbn [stripPrefix].
  rewrite Hp. simpl. lia.
Qed.

End CountFacts.

Module StyleCount.
Import StringFacts RegexFacts StyleFacts Converter ProcessFacts ShellFacts.
Import CountFacts.

Lemma generateCSS_mark (cfg : config) :
  generateCSS cfg = indent ++ styleMark ++ cssPart0Tail ++ cssRest cfg.
Proof. reflexivity. Qed.

(** The style block holds [<style] once, at its start. *)
Lemma mark_count_css (cfg : config) (y : str) :
  countOcc false styleMark (generateCSS cfg ++ y) =
  1 + countOcc false styleMark y.
Proof.
  rewrite generateCSS_mark.
  replace ((indent ++ styleMark ++ cssPart0Tail ++ cssRest cfg) ++ y)
    with (indent ++ styleMark ++ (cssPart0Tail ++ cssRest cfg) ++ y)
    by (now rewrite <- !app_assoc).
  rewrite countOcc_skip by (apply noStartB_sound; reflexivity).
  change styleMark with ("<"%char :: L "style").
  rewrite countOcc_here. f_equal.
  rewrite app_assoc. apply countOcc_skip.
  apply everySuffix_app; [apply everySuffix_first; reflexivity|].
  apply everySuffix_app; [apply noStartB_sound; vm_compute; reflexivity|].
  apply (cssRest_noStart false "<"%char (L "style"));
    [vm_compute; reflexivity|].
  intros c Hc. now apply digit_not_cmp.
Qed.

Lemma css_count_le (cfg : config) (s : str) :
  countOcc false (generateCSS cfg) s <= countOcc false styleMark s.
Proof. rewrite generateCSS_mark. apply countOcc_infix_le. Qed.

Lemma css_nonempty (cfg : config) :
  exists p pat, generateCSS cfg = p :: pat.
Proof. rewrite generateCSS_mark. simpl. eauto. Qed.

Lemma css_occurs (cfg : config) (x y : str) :
  1 <= countOcc false (generateCSS cfg) (x ++ generateCSS cfg ++ y).
Proof.
  destruct (css_nonempty cfg) as (p & pat & ->). apply countOcc_occurs.
Qed.

Lemma mark_count_tail (x : str) :
  countOcc false styleMark (x ++ shellTail) = countOcc false styleMark x.
Proof.
  change shellTail with (ascii_of_nat 10 :: tl shellTail).
  change styleMark with ("<"%char :: L "style").
  rewrite countOcc_sep by reflexivity.
  change (countOcc false ("<"%char :: L "style") (ascii_of_nat 10 :: tl shellTail))
    with 0. lia.
Qed.

(** A wrapped body without [<style] holds the style block once. *)
Lemma wrapped_count (cfg : config) (body : str) :
  countOcc false styleMark body = 0 ->
  countOcc false (generateCSS cfg) (wrapped cfg body) = 1.
Proof.
  intros Hbody. apply Nat.le_antisymm; [|apply css_occurs].
  etransitivity; [apply css_count_le|].
  unfold wrapped.
  rewrite countOcc_skip by (apply noStartB_sound; vm_compute; reflexivity).
  rewrite mark_count_css.
  rewrite countOcc_skip by (apply noStartB_sound; vm_compute; reflexivity).
  rewrite mark_count_tail, Hbody. lia.
Qed.

(** The same for a complete document without [<style], after the splice. *)
Lemma spliced_count (cfg : config) (a b : str) :
  countOcc false styleMark (a ++ headClose ++ b) = 0 ->
  countOcc false (generateCSS cfg) (spliced cfg a b) = 1.
Proof.
  intros H. apply Nat.le_antisymm; [|apply css_occurs].
  etransitivity; [apply css_count_le|].
  change (a ++ headClose ++ b) with (a ++ "<"%char :: L "/head>" ++ b) in H.
  change styleMark with ("<"%char :: L "style") in H.
  rewrite countOcc_sep in H by reflexivity.
  unfold spliced. rewrite generateCSS_mark.
  replace (a ++ (indent ++ styleMark ++ cssPart0Tail ++ cssRest cfg) ++
           newline ++ headClose ++ b)
    with (a ++ ascii_of_nat 10 :: (L "    " ++ styleMark ++ cssPart0Tail ++
            cssRest cfg) ++ newline ++ headClose ++ b)
    by (now rewrite <- !app_assoc).
  change styleMark with ("<"%char :: L "style") at 1.
  rewrite countOcc_sep by reflexivity.
  change (ascii_of_nat 10 :: (L "    " ++ styleMark ++ cssPart0Tail ++
            cssRest cfg) ++ newline ++ headClose ++ b)
    with ((indent ++ styleMark ++ cssPart0Tail ++ cssRest cfg) ++
          newline ++ headClose ++ b).
  rewrite <- generateCSS_mark.
  change ("<"%char :: L "style") with styleMark.
  rewrite mark_count_css.
  rewrite countOcc_skip by (apply noStartB_sound; vm_compute; reflexivity).
  change (headClose ++ b) with ("<"%char :: L "/head>" ++ b).
  change styleMark with ("<"%char :: L "style").
  lia.
Qed.

Lemma splice_complete (cfg : config) (fixed a b : str) :
  indexOf headClose fixed = Some (a, b) ->
  replaceString headClose (spliceText cfg) fixed = spliced cfg a b.
Proof.
  intros H. unfold replaceString. rewrite H, spliceText_plain.
  unfold spliceText, spliced. now rewrite <- !app_assoc.
Qed.

End StyleCount.

Module PopupFacts.
Import StringFacts RegexFacts StyleFacts Converter ShellFacts.

Lemma documentMid_eq :
  Popup.documentMid = popupBeforeHeadClose ++ headClose ++ popupAfterHeadClose.
Proof. vm_compute. reflexivity. Qed.

Lemma popup_fragment (st : Popup.settings) (html : str) :
  hasShell html = false ->
  Popup.createCompleteHTMLDocument html st = popupWrapped st html.
Proof.
  unfold hasShell, hasHTML, hasHead, hasBody, Popup.createCompleteHTMLDocument.
  cbv zeta. now intros ->.
Qed.

Lemma popup_complete (st : Popup.settings) (html : str) :
  hasShell html = true ->
  Popup.createCompleteHTMLDocument html st =
  replaceString headClose (Popup.spliceText st) html.
Proof.
  unfold hasShell, hasHTML, hasHead, hasBody, Popup.createCompleteHTMLDocument.
  cbv zeta. now intros ->.
Qed.

Lemma hasHTML_documentHead (y : str) : hasHTML (Popup.documentHead ++ y) = true.
Proof. vm_compute. reflexivity. Qed.

Lemma hasHead_documentHead (y : str) : hasHead (Popup.documentHead ++ y) = true.
Proof. vm_compute. reflexivity. Qed.

Lemma hasBody_documentMid (y : str) : hasBody (Popup.documentMid ++ y) = true.
Proof. vm_compute. reflexivity. Qed.

Lemma hasShell_popupWrapped (st : Popup.settings) (body : str) :
  hasShell (popupWrapped st body) = true.
Proof.
  unfold hasShell, popupWrapped.
  rewrite hasHTML_documentHead, hasHead_documentHead. cbn [andb].
  replace (Popup.documentHead ++ numberToString (Popup.margin st) ++
           Popup.documentMid ++ body ++ Popup.documentTail)
    with ((Popup.documentHead ++ numberToString (Popup.margin st)) ++
          Popup.documentMid ++ body ++ Popup.documentTail)
    by (now rewrite <- app_assoc).
  unfold hasBody. apply test_app_r. apply hasBody_documentMid.
Qed.

Lemma digits_no_headClose (n : N) (y : str) :
  everySuffix (fun s => stripPrefix false headClose s = None)
    (numberToString n) y.
Proof.
  apply (everySuffix_first false "<"%char (L "/head>")).
  apply (forallb_impl isDigit); [|apply numberToString_digits].
  intros c Hc. now rewrite (digit_not_cmp false c "<"%char).
Qed.

Lemma indexOf_popupWrapped (st : Popup.settings) (body : str) :
  indexOf headClose (popupWrapped st body) =
  Some (Popup.documentHead ++ numberToString (Popup.margin st) ++
        popupBeforeHeadClose,
        popupAfterHeadClose ++ body ++ Popup.documentTail).
Proof.
  unfold popupWrapped. rewrite documentMid_eq.
  replace (Popup.documentHead ++ numberToString (Popup.margin st) ++
           (popupBeforeHeadClose ++ headClose ++ popupAfterHeadClose) ++
           body ++ Popup.documentTail)
    with ((Popup.documentHead ++ numberToString (Popup.margin st) ++
           popupBeforeHeadClose) ++
          headClose ++ popupAfterHeadClose ++ body ++ Popup.documentTail)
    by (now rewrite <- !app_assoc).
  rewrite indexOf_skip.
  - rewrite indexOf_here, app_nil_r. reflexivity.
  - apply everySuffix_app; [|apply everySuffix_app].
    + apply noStartB_sound. vm_compute. reflexivity.
    + apply digits_no_headClose.
    + apply noStartB_sound. vm_compute. reflexivity.
Qed.

Lemma popup_spliceText_plain (st : Popup.settings) (m b a : str) :
  getSubstitution m b a (Popup.spliceText st) = Popup.spliceText st.
Proof.
  apply getSubstitution_plain. unfold Popup.spliceText.
  rewrite !forallb_app. apply andb_true_iff. split; [reflexivity|].
  apply andb_true_iff. split; [|reflexivity].
  apply (forallb_impl isDigit); [|apply numberToString_digits].
  intros c Hc. unfold notDollar. apply negb_true_iff.
  rewrite Ascii.eqb_sym. now apply (digit_not c "$"%char).
Qed.

Lemma popup_splice_wrapped (st : Popup.settings) (body : str) :
  replaceString headClose (Popup.spliceText st) (popupWrapped st body) =
  popupWrappedTwice st body.
Proof.
  unfold replaceString. rewrite indexOf_popupWrapped, popup_spliceText_plain.
  unfold popupWrappedTwice. now rewrite <- !app_assoc.
Qed.

(** The popup's [createCompleteHTMLDocument] behaves like the step of the
    converter: a second run detects the shell and adds a style block. *)
Lemma popup_second_pass (st : Popup.settings) (html : str) :
  hasShell html = false ->
  Popup.createCompleteHTMLDocument html st = popupWrapped st html /\
  hasShell (Popup.createCompleteHTMLDocument html st) = true /\
  Popup.createCompleteHTMLDocument
    (Popup.createCompleteHTMLDocument html st) st = popupWrappedTwice st html.
Proof.
  intros H. rewrite (popup_fragment st html H).
  split; [reflexivity|]. split; [apply hasShell_popupWrapped|].
  rewrite popup_complete by apply hasShell_popupWrapped.
  apply popup_splice_wrapped.
Qed.

Lemma popup_two_styles :
  let once := Popup.createCompleteHTMLDocument fragment popupSettings in
  let twice := Popup.createCompleteHTMLDocument once popupSettings in
  countOcc true (L "<style") once = 1 /\
  countOcc true (L "<html") once = 1 /\
  countOcc true (L "<style") twice = 2 /\
  countOcc true (L "<html") twice = 1.
Proof. cbv zeta. conjs; vm_compute; reflexivity. Qed.

(** An upper-case document goes through the popup unchanged as well. *)
Lemma popup_upper_case_document :
  Popup.createCompleteHTMLDocument upperCaseDocument popupSettings =
  upperCaseDocument.
Proof. vm_compute. reflexivity. Qed.

(** C2 (as amended): a fragment is wrapped into a document with a style
    block, and the shell is then detected; a second run on that document adds
    no second shell and splices one more style block in front of [</head>],
    so the step is not idempotent.  This holds of the step of
    [processHTMLContent] and of the popup's [createCompleteHTMLDocument]. *)
Theorem second_pass_doubles_style
    (cfg : config) (st : Popup.settings) (html : str) :
  hasShell html = false ->
  (injectStyle cfg html = wrapped cfg html /\
   hasShell (injectStyle cfg html) = true /\
   injectStyle cfg (injectStyle cfg html) = wrappedTwice cfg html) /\
  (Popup.createCompleteHTMLDocument html st = popupWrapped st html /\
   hasShell (Popup.createCompleteHTMLDocument html st) = true /\
   Popup.createCompleteHTMLDocument
     (Popup.createCompleteHTMLDocument html st) st = popupWrappedTwice st html).
Proof.
  intros H. split; [now apply converter_second_pass | now apply popup_second_pass].
Qed.

Lemma second_pass_doubles_style_witness :
  (injectStyle defaultConfig fragment = wrapped defaultConfig fragment /\
   hasShell (injectStyle defaultConfig fragment) = true /\
   injectStyle defaultConfig (injectStyle defaultConfig fragment) =
     wrappedTwice defaultConfig fragment) /\
  (Popup.createCompleteHTMLDocument fragment popupSettings =
     popupWrapped popupSettings fragment /\
   hasShell (Popup.createCompleteHTMLDocument fragment popupSettings) = true /\
   Popup.createCompleteHTMLDocument
     (Popup.createCompleteHTMLDocument fragment popupSettings) popupSettings =
     popupWrappedTwice popupSettings fragment).
Proof.
  apply second_pass_doubles_style. vm_compute. reflexivity.
Defined.

(** The claim of one style block after the second run fails on the fragment
    [<p>Hi</p>]: the first run gives one [<html] tag and one style block, the
    second run gives one [<html] tag and two style blocks. *)
Lemma second_pass_two_styles :
  let once := injectStyle defaultConfig fragment in
  let twice := injectStyle defaultConfig once in
  hasShell once = true /\
  countOcc true (L "<html") once = 1 /\
  countOcc false (generateCSS defaultConfig) once = 1 /\
  countOcc true (L "<html") twice = 1 /\
  countOcc false (generateCSS defaultConfig) twice = 2 /\
  twice <> once.
Proof.
  cbv zeta.
  assert (H1 : countOcc false (generateCSS defaultConfig)
                 (injectStyle defaultConfig fragment) = 1)
    by (vm_compute; reflexivity).
  assert (H2 : countOcc false (generateCSS defaultConfig)
                 (injectStyle defaultConfig (injectStyle defaultConfig fragment)) = 2)
    by (vm_compute; reflexivity).
  split; [vm_compute; reflexivity|].
  split; [vm_compute; reflexivity|].
  split; [exact H1|].
  split; [vm_compute; reflexivity|].
  split; [exact H2|].
  intros E. rewrite E in H2. rewrite H1 in H2. discriminate H2.
Qed.

End PopupFacts.

(** ** The calls of a conversion *)

Module LifecycleFacts.
Import StringFacts RegexFacts Converter ConverterFacts ProcessFacts.

Lemma processHTMLContent_some (html : str) (cfg : config) :
  exists processed, processHTMLContent html cfg = Some processed.
Proof.
  destruct (fixCenteringIssues_total html) as (fixed & E).
  rewrite (processHTMLContent_eq html fixed cfg E). apply renderIf_total.
Qed.

(** The conversion of two non-empty strings, call by call. *)
Lemma convert_unfold
    (env : browser) (c d : ascii) (s t : str) (opts : options) :
  convertHTMLToPDF env (VString (c :: s)) (VString (d :: t)) opts =
  if launchFails env then ([Launch], inl (BrowserError Launch))
  else
    let (trace, r) :=
      finallyClose env (renderPage env (c :: s) (d :: t) (mergeOptions opts)) in
    (Launch :: trace, r).
Proof. reflexivity. Qed.

(** X3: a browser that was launched is closed, once, and that is the last
    thing asked of it; when the launch fails nothing else is asked of the
    browser, and the error is that of the launch. *)
Theorem launched_browser_closed_last
    (env : browser) (htmlContent outputPath : value) (opts : options) :
  nonEmptyString htmlContent -> nonEmptyString outputPath ->
  if launchFails env then
    convertHTMLToPDF env htmlContent outputPath opts =
    ([Launch], inl (BrowserError Launch))
  else
    exists calls,
      fst (convertHTMLToPDF env htmlContent outputPath opts) =
      Launch :: calls ++ [Close] /\
      ~ In Close calls /\ ~ In Launch calls.
Proof.
  intros (c & s & ->) (d & t & ->). rewrite convert_unfold.
  destruct (launchFails env); [reflexivity|].
  unfold renderPage, perform, finallyClose.
  destruct (processHTMLContent_some (c :: s) (mergeOptions opts)) as (p & ->).
  destruct (newPageFails env); [|destruct (setContentFails env);
    [|destruct (pdfFails env)]];
    cbn [fst];
    eexists; (split; [reflexivity|]);
    cbn [In]; split; intros H; decompose [or] H; discriminate || contradiction.
Qed.

Lemma launched_browser_closed_last_witness :
  exists calls,
    fst (convertHTMLToPDF (Browser false false true false false)
           (VString (L "<p>Hi</p>")) (VString (L "out.pdf")) noOptions) =
    Launch :: calls ++ [Close] /\
    ~ In Close calls /\ ~ In Launch calls.
Proof.
  apply (launched_browser_closed_last (Browser false false true false false)
           (VString (L "<p>Hi</p>")) (VString (L "out.pdf")) noOptions).
  - eexists _, _. reflexivity.
  - eexists _, _. reflexivity.
Defined.

(** X4: when no call of the browser fails, the conversion of two non-empty
    strings launches the browser, opens a page, sets the processed text as
    its content, prints it to the output path with the page size, the
    orientation and the margin of the merged options, closes the browser,
    and returns the output path.  The page is landscape only for the
    orientation [landscape] in lower case. *)
Theorem reliable_browser_full_trace
    (c d : ascii) (s t : str) (opts : options) :
  exists processed,
    processHTMLContent (c :: s) (mergeOptions opts) = Some processed /\
    convertHTMLToPDF reliable (VString (c :: s)) (VString (d :: t)) opts =
    (fullTrace processed (d :: t) (mergeOptions opts), inr (d :: t)).
Proof.
  destruct (processHTMLContent_some (c :: s) (mergeOptions opts)) as (p & E).
  exists p. split; [exact E|].
  rewrite convert_unfold. unfold renderPage, perform, finallyClose, reliable.
  cbn [launchFails newPageFails setContentFails pdfFails closeFails].
  rewrite E. reflexivity.
Qed.

(** X5: the conversion of two non-empty strings returns a value exactly when
    none of the five calls of the browser fails, the closing included, and
    the value is the output path: an error of [close] makes the conversion
    fail even after the document was printed. *)
Theorem succeeds_iff_no_call_fails
    (env : browser) (c d : ascii) (s t : str) (opts : options) (r : str) :
  snd (convertHTMLToPDF env (VString (c :: s)) (VString (d :: t)) opts) = inr r
  <->
  env = reliable /\ r = d :: t.
Proof.
  rewrite convert_unfold. unfold renderPage, perform, finallyClose.
  destruct (processHTMLContent_some (c :: s) (mergeOptions opts)) as (p & ->).
  destruct env as [l n sc pf cl]. unfold reliable.
  cbn [launchFails newPageFails setContentFails pdfFails closeFails].
  destruct l, n, sc, pf, cl; cbn [snd]; split;
    try discriminate;
    try (intros [H _]; discriminate H);
    try (intros H; injection H as <-; split; reflexivity);
    try (intros [_ ->]; reflexivity).
Qed.

(** X6: a key of the options that is present is taken as it is, a margin of 0,
    an empty page size and the two flags set to [false] included: the
    defaults stand for the keys that are absent only. *)
Theorem explicit_options_kept (o : options) :
  pageSize (mergeOptions o) = orElse (optPageSize o) (L "A4") /\
  orientation (mergeOptions o) = orElse (optOrientation o) (L "portrait") /\
  margin (mergeOptions o) = orElse (optMargin o) 10%N /\
  includeFonts (mergeOptions o) = orElse (optIncludeFonts o) true /\
  renderCodeBlocks (mergeOptions o) = orElse (optRenderCodeBlocks o) true.
Proof.
  destruct o as [[[|? ?]|] [[|? ?]|] [m|] [[|]|] [[|]|]];
    cbn [mergeOptions pageSize orientation margin includeFonts
         renderCodeBlocks optPageSize optOrientation optMargin
         optIncludeFonts optRenderCodeBlocks orElse];
    conjs; reflexivity.
Qed.

End LifecycleFacts.

(** ** The fonts of the style block *)

Module FontFacts.
Import StringFacts RegexFacts StyleFacts Converter CountFacts.

Lemma numberToString_cons (n : N) :
  exists d ds, numberToString n = d :: ds /\ isDigit d = true.
Proof.
  pose proof (numberToString_digits n) as H.
  destruct (numberToString n) as [|d ds] eqn:E.
  - exfalso. unfold numberToString, NilZero.string_of_uint in E.
    destruct (N.to_uint n); discriminate E.
  - exists d, ds. split; [reflexivity|].
    cbn [forallb] in H. now apply andb_true_iff in H.
Qed.

Lemma nondigit_neq (q c : ascii) :
  isDigit q = false -> isDigit c = true -> Ascii.eqb q c = false.
Proof.
  intros Hq Hc. destruct (Ascii.eqb_spec q c) as [->|]; [congruence|reflexivity].
Qed.

(** No occurrence of a text without digits touches the digits of a number. *)
Lemma countOcc_number (p : ascii) (pat x y : str) (n : N) :
  forallb (fun q => negb (isDigit q)) (p :: pat) = true ->
  countOcc false (p :: pat) (x ++ numberToString n ++ y) =
  countOcc false (p :: pat) x + countOcc false (p :: pat) y.
Proof.
  intros Hpat. cbn [forallb] in Hpat. apply andb_true_iff in Hpat.
  destruct Hpat as [Hp Hpat]. apply negb_true_iff in Hp.
  destruct (numberToString_cons n) as (d & ds & E & Hd).
  pose proof (numberToString_digits n) as Hall.
  rewrite E. cbn [app].
  rewrite countOcc_sep.
  - f_equal.
    change (d :: ds ++ y) with ((d :: ds) ++ y). rewrite <- E.
    apply countOcc_skip. apply everySuffix_first.
    apply (forallb_impl isDigit); [|exact Hall].
    intros c Hc. cbn [cmp]. now rewrite (nondigit_neq p c Hp Hc).
  - apply (forallb_impl (fun q => negb (isDigit q))); [|exact Hpat].
    intros q Hq. apply negb_true_iff in Hq. cbn [cmp].
    now rewrite (nondigit_neq q d Hq Hd).
Qed.

Lemma generateCSS_margins (cfg : config) :
  generateCSS cfg =
  cssBeforeMargin (includeFonts cfg) ++ numberToString (margin cfg) ++
  cssBetweenMargins (includeFonts cfg) ++ numberToString (margin cfg) ++
  cssPart6.
Proof.
  unfold generateCSS, cssBeforeMargin, cssBetweenMargins, fontFamily.
  now rewrite <- !app_assoc.
Qed.

Lemma countOcc_css (p : ascii) (pat : str) (cfg : config) :
  forallb (fun q => negb (isDigit q)) (p :: pat) = true ->
  countOcc false (p :: pat) (generateCSS cfg) =
  countOcc false (p :: pat) (cssBeforeMargin (includeFonts cfg)) +
  (countOcc false (p :: pat) (cssBetweenMargins (includeFonts cfg)) +
   countOcc false (p :: pat) cssPart6).
Proof.
  intros H. rewrite generateCSS_margins.
  rewrite (countOcc_number p pat _ _ _ H).
  now rewrite (countOcc_number p pat _ _ _ H).
Qed.

(** X7: with [includeFonts] the style block imports the font once and names
    ['Liberation Serif'] in its three font families; without it the block
    has no [@import] and names the font in no font family, whatever the
    margin. *)
Theorem fonts_follow_includeFonts (cfg : config) :
  countOcc false (L "@import") (generateCSS cfg) =
    (if includeFonts cfg then 1 else 0) /\
  countOcc false (L "'Liberation Serif'") (generateCSS cfg) =
    (if includeFonts cfg then 3 else 0) /\
  countOcc false (L "font-family: 'Times New Roman'") (generateCSS cfg) =
    (if includeFonts cfg then 0 else 3).
Proof.
  change (L "@import") with ("@"%char :: L "import").
  change (L "'Liberation Serif'") with ("'"%char :: L "Liberation Serif'").
  change (L "font-family: 'Times New Roman'")
    with ("f"%char :: L "ont-family: 'Times New Roman'").
  rewrite !countOcc_css by reflexivity.
  destruct (includeFonts cfg); conjs; vm_compute; reflexivity.
Qed.

End FontFacts.

(** ** The tests of the document shell *)

Module ShellTests.
Import StringFacts RegexFacts Converter ProcessFacts ShellFacts PopupFacts.

Lemma exec_here (r : regex) (s : str) (m : mstate) :
  matchAt r s = Some m -> test r s = true.
Proof.
  intros H. unfold test. destruct m as [rest cap].
  destruct s; cbn [exec]; rewrite H; reflexivity.
Qed.

(** The greedy run over [[^>]] stops in front of a [>] when there is one. *)
Lemma starGreedy_finds (z : str) (k : str -> option mstate) :
  In ">"%char z ->
  (forall y, k (">"%char :: y) <> None) ->
  starGreedy notGt z k <> None.
Proof.
  intros Hin Hk. induction z as [|c z IH]; [contradiction|].
  cbn [starGreedy]. destruct (notGt c) eqn:Ec.
  - destruct Hin as [->|Hin]; [discriminate Ec|].
    destruct (starGreedy notGt z k); [discriminate | now exfalso; apply IH].
  - unfold notGt in Ec. apply negb_false_iff in Ec.
    apply Ascii.eqb_eq in Ec. subst c. apply Hk.
Qed.

Lemma matchAt_tag (name : string) (s : str) :
  matchAt (tagPattern name) s =
  match stripPrefix true (L "<" ++ L name) s with
  | Some s' =>
      starGreedy notGt s'
        (fun s'' =>
           match stripPrefix true (L ">") s'' with
           | Some rest => Some (rest, None)
           | None => None
           end)
  | None => None
  end.
Proof. reflexivity. Qed.

Lemma tag_word (name : string) (w : str) (c0 c1 : option str) :
  sem (tagPattern name) w c0 c1 ->
  exists t u,
    w = t ++ u ++ [">"%char] /\
    stripPrefix true (L "<" ++ L name) t = Some [].
Proof.
  intros H. unfold tagPattern in H.
  inversion H as [| | | |r1 r2 t w2 d0 d1 d2 Ht Hrest|]; subst.
  inversion Hrest as [| | | |r1 r2 u g e0 e1 e2 Hu Hg|]; subst.
  inversion Ht as [pat t' cap Et| | | | |]; subst.
  inversion Hg as [pat g' cap Eg| | | | |]; subst.
  exists t, u. split; [|exact Et].
  destruct g as [|c [|c' g]]; cbn in Eg; try discriminate.
  - destruct (eqci ">" c) eqn:Ec; [|discriminate].
    rewrite eqci_gt in Ec. apply Ascii.eqb_eq in Ec. now subst c.
  - destruct (eqci ">" c); discriminate.
Qed.

(** What the test of a tag accepts. *)
Lemma tag_test_spec (name : string) (html : str) :
  test (tagPattern name) html = true <->
  exists x t u y,
    html = x ++ t ++ u ++ ">"%char :: y /\
    stripPrefix true (L "<" ++ L name) t = Some [].
Proof.
  split.
  - unfold test. destruct (exec (tagPattern name) html) as [m|] eqn:E;
      [intros _ | discriminate].
    destruct (exec_sound _ _ _ E) as (Hs & Hsem & _).
    destruct (tag_word name _ _ _ Hsem) as (t & u & Hw & Ht).
    exists (before m), t, u, (after m). split; [|exact Ht].
    rewrite Hs, Hw, <- !app_assoc. reflexivity.
  - intros (x & t & u & y & -> & Ht).
    apply test_app_r.
    destruct (matchAt (tagPattern name) (t ++ u ++ ">"%char :: y)) as [m|] eqn:E;
      [now apply (exec_here _ _ m)|].
    exfalso. rewrite matchAt_tag in E.
    rewrite (stripPrefix_app true _ t [] _ Ht) in E. cbn [app] in E.
    revert E. apply starGreedy_finds.
    + apply in_or_app. right. now left.
    + intros z. cbn. discriminate.
Qed.

(** X8: the test [/<name[^>]*>/i] of the three tags of a document succeeds on
    exactly the texts that hold [<name] in any letter case with a [>]
    somewhere after it: the tag may carry attributes, and a longer tag name
    that begins with [name] passes as well. *)
Theorem tag_test_iff (name : string) (html : str) :
  test (tagPattern name) html = true <->
  exists x t u y,
    html = x ++ t ++ u ++ ">"%char :: y /\
    stripPrefix true (L "<" ++ L name) t = Some [].
Proof. exact (tag_test_spec name html). Qed.

(** X9: a text that passes the three tests and has no [</head>] in lower case
    gets no style block at all: the converter hands it to the code-block
    step as it is, and the popup returns it unchanged. *)
Theorem no_head_close_no_style
    (html fixed : str) (cfg : config) (st : Popup.settings) :
  fixCenteringIssues html = Some fixed ->
  hasShell fixed = true ->
  includes headClose fixed = false ->
  processHTMLContent html cfg = renderIf cfg fixed /\
  Popup.createCompleteHTMLDocument fixed st = fixed.
Proof.
  intros Hfix Hshell Hno.
  assert (Hr : forall template, replaceString headClose template fixed = fixed).
  { intros template. unfold replaceString. unfold includes in Hno.
    destruct (indexOf headClose fixed) as [[a b]|]; [discriminate|reflexivity]. }
  split.
  - rewrite (processHTMLContent_eq html fixed cfg Hfix).
    now rewrite (injectStyle_complete cfg fixed Hshell), Hr.
  - now rewrite (popup_complete st fixed Hshell), Hr.
Qed.

Lemma no_head_close_no_style_witness :
  processHTMLContent upperCaseDocument defaultConfig =
    renderIf defaultConfig upperCaseDocument /\
  Popup.createCompleteHTMLDocument upperCaseDocument popupSettings =
    upperCaseDocument.
Proof.
  apply no_head_close_no_style; vm_compute; reflexivity.
Defined.

End ShellTests.

(** ** Texts that the patterns cannot match *)

Module LiteralFacts.
Import StringFacts RegexFacts Converter CountFacts.

Lemma strEq_eq (a b : str) : strEq a b = true -> a = b.
Proof.
  unfold strEq. destruct (list_eq_dec ascii_dec a b); [trivial|discriminate].
Qed.

(** A word of a pattern holds each literal that the pattern mentions. *)
Lemma sem_mentions (pat : str) (r : regex) (w : str) (c0 c1 : option str) :
  sem r w c0 c1 -> mentions pat r = true ->
  exists x t y, w = x ++ t ++ y /\ stripPrefix true pat t = Some [].
Proof.
  induction 1 as [p w cap E|p c cap E|p w cap E|p w cap E
                 |r1 r2 w1 w2 d0 d1 d2 H1 IH1 H2 IH2|r w d0 d1 H IH];
    cbn [mentions]; intros Hm; try discriminate.
  - apply strEq_eq in Hm. subst p. exists [], w, [].
    now rewrite app_nil_r.
  - apply orb_true_iff in Hm. destruct Hm as [Hm|Hm].
    + destruct (IH1 Hm) as (x & t & y & -> & Ht).
      exists x, t, (y ++ w2). now rewrite <- !app_assoc.
    + destruct (IH2 Hm) as (x & t & y & -> & Ht).
      exists (w1 ++ x), t, y. now rewrite <- !app_assoc.
  - exact (IH Hm).
Qed.

Lemma countOcc_found (pat x t y : str) :
  stripPrefix true pat t = Some [] ->
  1 <= countOcc true pat (x ++ t ++ y).
Proof.
  intros Ht. etransitivity; [|apply countOcc_app_le].
  pose proof (stripPrefix_app true pat t [] y Ht) as E.
  destruct (t ++ y) as [|c s] eqn:Es.
  - cbn [countOcc]. unfold startsWith. rewrite E. lia.
  - cbn [countOcc]. unfold startsWith. rewrite E. lia.
Qed.

(** A pattern finds nothing in a text that lacks one of its literals. *)
Lemma exec_needs_literal (pat : str) (r : regex) (html : str) :
  mentions pat r = true -> countOcc true pat html = 0 -> exec r html = None.
Proof.
  intros Hm Hc. destruct (exec r html) as [m|] eqn:E; [|reflexivity].
  exfalso. destruct (exec_sound r html m E) as (Hs & Hsem & _).
  destruct (sem_mentions pat r _ _ _ Hsem Hm) as (x & t & y & Hw & Ht).
  pose proof (countOcc_found pat (before m ++ x) t (y ++ after m) Ht) as Hle.
  rewrite Hs, Hw in Hc.
  replace (before m ++ (x ++ t ++ y) ++ after m)
    with ((before m ++ x) ++ t ++ y ++ after m) in Hc
    by (now rewrite <- !app_assoc).
  lia.
Qed.

(** X10: a text that lacks, in every letter case, one of [<div], [style],
    [margin], [auto] and [</div>] is returned by [fixCenteringIssues] as it
    is. *)
Theorem fixCentering_needs_literals (pat html : str) :
  In pat [L "<div"; L "style"; L "margin"; L "auto"; L "</div>"] ->
  countOcc true pat html = 0 ->
  fixCenteringIssues html = Some html.
Proof.
  intros Hin Hc.
  assert (H1 : mentions pat centeringPattern = true)
    by (cbn [In] in Hin; decompose [or] Hin; subst; try contradiction;
        vm_compute; reflexivity).
  assert (H2 : mentions pat generalCenteringPattern = true)
    by (cbn [In] in Hin; decompose [or] Hin; subst; try contradiction;
        vm_compute; reflexivity).
  unfold fixCenteringIssues, test.
  rewrite (exec_needs_literal pat centeringPattern html H1 Hc).
  now rewrite (exec_needs_literal pat generalCenteringPattern html H2 Hc).
Qed.

Lemma fixCentering_needs_literals_witness :
  fixCenteringIssues
    (L "<div><div style=" ++ dq ++ L "margin:0" ++ dq ++ L ">X</div></div>") =
  Some (L "<div><div style=" ++ dq ++ L "margin:0" ++ dq ++ L ">X</div></div>").
Proof.
  apply (fixCentering_needs_literals (L "auto"));
    [cbn [In]; tauto | vm_compute; reflexivity].
Defined.

(** X11: a text without [<pre><code>], or without [</code></pre>], in every
    letter case is returned by [renderHTMLCodeBlocks] as it is: a block that
    is not closed gets no preview. *)
Theorem render_needs_both_tags (pat html : str) :
  In pat [openTags; closeTags] ->
  countOcc true pat html = 0 ->
  renderHTMLCodeBlocks html = Some html.
Proof.
  intros Hin Hc.
  assert (H1 : mentions pat codeBlockPattern = true)
    by (cbn [In] in Hin; decompose [or] Hin; subst; try contradiction;
        vm_compute; reflexivity).
  unfold renderHTMLCodeBlocks. apply replaceRegex_none.
  exact (exec_needs_literal pat codeBlockPattern html H1 Hc).
Qed.

Lemma render_needs_both_tags_witness :
  renderHTMLCodeBlocks (L "<pre><code><b>never closed</b></code>") =
  Some (L "<pre><code><b>never closed</b></code>").
Proof.
  apply (render_needs_both_tags closeTags);
    [cbn [In]; tauto | vm_compute; reflexivity].
Defined.

End LiteralFacts.

(** ** The options of the command line *)

Module CliFacts.
Import StringFacts Converter CountFacts LiteralFacts.
Import Cli.

(** *** split *)

Lemma split_cons (c : ascii) (s : str) :
  split "=" (c :: s) =
  if Ascii.eqb c "=" then [] :: split "=" s
  else
    match split "=" s with
    | w :: ws => (c :: w) :: ws
    | [] => [[c]]
    end.
Proof. reflexivity. Qed.

(** The first piece of a split is the text in front of the first [=]. *)
Lemma split_first (v : str) :
  exists ws, split "=" v = firstField v :: ws.
Proof.
  induction v as [|c v (ws & IH)]; [now exists []|].
  rewrite split_cons. cbn [firstField].
  destruct (Ascii.eqb c "="); [eauto|]. rewrite IH. eauto.
Qed.

Lemma split_key (key v : str) :
  forallb (fun c => negb (Ascii.eqb c "=")) key = true ->
  exists ws, split "=" (key ++ "="%char :: v) = key :: firstField v :: ws.
Proof.
  intros Hkey. induction key as [|c key IH].
  - cbn [app]. rewrite split_cons. cbn.
    destruct (split_first v) as (ws & ->). eauto.
  - cbn [forallb] in Hkey. apply andb_true_iff in Hkey.
    destruct Hkey as [Hc Hkey]. apply negb_true_iff in Hc.
    destruct (IH Hkey) as (ws & E).
    cbn [app]. rewrite split_cons, Hc, E. eauto.
Qed.

Lemma item_key (key v : str) :
  forallb (fun c => negb (Ascii.eqb c "=")) key = true ->
  item (split "=" (key ++ "="%char :: v)) 1 = VString (firstField v).
Proof.
  intros Hkey. destruct (split_key key v Hkey) as (ws & ->). reflexivity.
Qed.

Lemma startsWith_exact (pat s : str) :
  startsWith false pat s = true -> exists v, s = pat ++ v.
Proof.
  unfold startsWith. destruct (stripPrefix false pat s) as [r|] eqn:E;
    [intros _ | discriminate].
  exists r. now apply stripPrefix_exact.
Qed.

(** *** One option *)

Lemma apply_pageSize (cfg : config) (v : str) :
  applyOption cfg (L "--page-size=" ++ v) =
  Config (VString (firstField v)) (orientation cfg) (margin cfg)
    (includeFonts cfg) (renderCodeBlocks cfg).
Proof.
  unfold applyOption.
  change (startsWith false (L "--page-size=") (L "--page-size=" ++ v))
    with true. cbn iota.
  change (L "--page-size=" ++ v) with (L "--page-size" ++ "="%char :: v).
  now rewrite item_key.
Qed.

Lemma apply_orientation (cfg : config) (v : str) :
  applyOption cfg (L "--orientation=" ++ v) =
  Config (pageSize cfg) (VString (firstField v)) (margin cfg)
    (includeFonts cfg) (renderCodeBlocks cfg).
Proof.
  unfold applyOption.
  change (startsWith false (L "--page-size=") (L "--orientation=" ++ v))
    with false.
  change (startsWith false (L "--orientation=") (L "--orientation=" ++ v))
    with true. cbn iota.
  change (L "--orientation=" ++ v) with (L "--orientation" ++ "="%char :: v).
  now rewrite item_key.
Qed.

Lemma apply_margin (cfg : config) (v : str) :
  applyOption cfg (L "--margin=" ++ v) =
  Config (pageSize cfg) (orientation cfg) (parseInt (firstField v))
    (includeFonts cfg) (renderCodeBlocks cfg).
Proof.
  unfold applyOption.
  change (startsWith false (L "--page-size=") (L "--margin=" ++ v))
    with false.
  change (startsWith false (L "--orientation=") (L "--margin=" ++ v))
    with false.
  change (startsWith false (L "--margin=") (L "--margin=" ++ v))
    with true. cbn iota.
  change (L "--margin=" ++ v) with (L "--margin" ++ "="%char :: v).
  now rewrite item_key.
Qed.

(** The five cases of an option. *)
Lemma applyOption_cases (cfg : config) (opt : str) :
  (exists v, opt = L "--page-size=" ++ v) \/
  (startsWith false (L "--page-size=") opt = false /\
   ((exists v, opt = L "--orientation=" ++ v) \/
    (startsWith false (L "--orientation=") opt = false /\
     ((exists v, opt = L "--margin=" ++ v) \/
      (startsWith false (L "--margin=") opt = false /\
       applyOption cfg opt =
       if strEq opt (L "--no-fonts") then
         Config (pageSize cfg) (orientation cfg) (margin cfg)
           false (renderCodeBlocks cfg)
       else if strEq opt (L "--no-code-blocks") then
         Config (pageSize cfg) (orientation cfg) (margin cfg)
           (includeFonts cfg) false
       else cfg))))).
Proof.
  unfold applyOption.
  destruct (startsWith false (L "--page-size=") opt) eqn:E1;
    [left; now apply startsWith_exact|right; split; [reflexivity|]].
  destruct (startsWith false (L "--orientation=") opt) eqn:E2;
    [left; now apply startsWith_exact|right; split; [reflexivity|]].
  destruct (startsWith false (L "--margin=") opt) eqn:E3;
    [left; now apply startsWith_exact|right; split; reflexivity].
Qed.

Lemma parseInt_cases (s : str) :
  parseInt s = VNaN \/ exists z, parseInt s = VNumber z.
Proof.
  unfold parseInt. destruct (digitsValue _ None _); eauto.
Qed.

Lemma applyOption_typed (cfg : config) (opt : str) :
  wellTyped cfg -> wellTyped (applyOption cfg opt).
Proof.
  intros (Hp & Ho & Hm).
  destruct (applyOption_cases cfg opt)
    as [(v & ->)|(_ & [(v & ->)|(_ & [(v & ->)|(_ & ->)])])].
  - rewrite apply_pageSize. unfold wellTyped. cbn.
    split; [eauto|]. split; [exact Ho | exact Hm].
  - rewrite apply_orientation. unfold wellTyped. cbn.
    split; [exact Hp|]. split; [eauto | exact Hm].
  - rewrite apply_margin. unfold wellTyped. cbn.
    split; [exact Hp|]. split; [exact Ho|]. apply parseInt_cases.
  - destruct (strEq opt (L "--no-fonts")); [now unfold wellTyped|].
    destruct (strEq opt (L "--no-code-blocks")); now unfold wellTyped.
Qed.

Lemma fold_typed (rest : list str) (cfg : config) :
  wellTyped cfg -> wellTyped (fold_left applyOption rest cfg).
Proof.
  revert cfg. induction rest as [|o rest IH]; intros cfg H;
    [exact H|].
  cbn [fold_left]. apply IH. now apply applyOption_typed.
Qed.

(** X12: [main] prints its usage and stops exactly when it has fewer than two
    arguments; otherwise the first argument names the input ([-] for the
    standard input), the second the output, and whatever the options are,
    the configuration holds a string as page size, a string as orientation
    and a number or [NaN] as margin: the [undefined] that indexing a split
    can give never gets there. *)
Theorem main_arguments (args : list str) :
  match mainArgs args with
  | Usage => length args < 2
  | Run input outputFile cfg =>
      exists inputFile options,
        args = inputFile :: outputFile :: options /\
        (input = Stdin <-> inputFile = L "-") /\
        cfg = parseOptions options /\
        wellTyped cfg
  end.
Proof.
  unfold mainArgs.
  destruct args as [|inputFile [|outputFile options]];
    [cbn; lia | cbn; lia |].
  cbn [length Nat.ltb Nat.leb].
  exists inputFile, options. split; [reflexivity|]. split; [|split].
  - unfold strEq. destruct (list_eq_dec ascii_dec inputFile (L "-"));
      split; intros H; congruence || reflexivity || discriminate.
  - reflexivity.
  - apply fold_typed. unfold wellTyped, defaults. cbn.
    split; [eauto|]. split; [eauto|]. right. eauto.
Qed.

(** *** The last option of a kind decides *)

Lemma no_key_pageSize (cfg : config) (opt : str) :
  startsWith false (L "--page-size=") opt = false ->
  pageSize (applyOption cfg opt) = pageSize cfg.
Proof.
  intros H.
  destruct (applyOption_cases cfg opt)
    as [(v & ->)|(_ & [(v & ->)|(_ & [(v & ->)|(_ & ->)])])].
  - discriminate H.
  - now rewrite apply_orientation.
  - now rewrite apply_margin.
  - destruct (strEq opt (L "--no-fonts")); [reflexivity|].
    now destruct (strEq opt (L "--no-code-blocks")).
Qed.

Lemma no_key_orientation (cfg : config) (opt : str) :
  startsWith false (L "--orientation=") opt = false ->
  orientation (applyOption cfg opt) = orientation cfg.
Proof.
  intros H.
  destruct (applyOption_cases cfg opt)
    as [(v & ->)|(_ & [(v & ->)|(_ & [(v & ->)|(_ & ->)])])].
  - now rewrite apply_pageSize.
  - discriminate H.
  - now rewrite apply_margin.
  - destruct (strEq opt (L "--no-fonts")); [reflexivity|].
    now destruct (strEq opt (L "--no-code-blocks")).
Qed.

Lemma no_key_margin (cfg : config) (opt : str) :
  startsWith false (L "--margin=") opt = false ->
  margin (applyOption cfg opt) = margin cfg.
Proof.
  intros H.
  destruct (applyOption_cases cfg opt)
    as [(v & ->)|(_ & [(v & ->)|(_ & [(v & ->)|(_ & ->)])])].
  - now rewrite apply_pageSize.
  - now rewrite apply_orientation.
  - discriminate H.
  - destruct (strEq opt (L "--no-fonts")); [reflexivity|].
    now destruct (strEq opt (L "--no-code-blocks")).
Qed.

Lemma fold_keeps {A : Type} (field : config -> A) (key : str) :
  (forall cfg opt, startsWith false key opt = false ->
                   field (applyOption cfg opt) = field cfg) ->
  forall rest cfg,
    lacks key rest ->
    field (fold_left applyOption rest cfg) = field cfg.
Proof.
  intros Hstep. induction rest as [|o rest IH]; intros cfg H;
    [reflexivity|].
  unfold lacks in H. inversion H as [|o' rest' Ho Hrest]; subst.
  cbn [fold_left]. rewrite IH by exact Hrest. now apply Hstep.
Qed.

Lemma parseOptions_app (first : list str) (opt : str) (rest : list str) :
  parseOptions (first ++ opt :: rest) =
  fold_left applyOption rest (applyOption (parseOptions first) opt).
Proof. unfold parseOptions. now rewrite fold_left_app. Qed.

(** X13: the page size is that of the last [--page-size=] option, and the
    orientation that of the last [--orientation=] option, whatever the other
    options are; of the value only the text in front of its first [=]
    counts.  The value may be empty, and is not checked against the sizes
    and orientations that exist. *)
Theorem last_option_decides
    (first1 rest1 first2 rest2 : list str) (v1 v2 : str) :
  lacks (L "--page-size=") rest1 -> lacks (L "--orientation=") rest2 ->
  pageSize (parseOptions (first1 ++ (L "--page-size=" ++ v1) :: rest1)) =
    VString (firstField v1) /\
  orientation (parseOptions (first2 ++ (L "--orientation=" ++ v2) :: rest2)) =
    VString (firstField v2).
Proof.
  intros Hp Ho. rewrite !parseOptions_app. split.
  - rewrite (fold_keeps pageSize _ no_key_pageSize) by exact Hp.
    now rewrite apply_pageSize.
  - rewrite (fold_keeps orientation _ no_key_orientation) by exact Ho.
    now rewrite apply_orientation.
Qed.

Lemma last_option_decides_witness :
  pageSize (parseOptions
              ([L "--page-size=A3"] ++ (L "--page-size=" ++ L "Letter=x") ::
               [L "--orientation=landscape"])) =
    VString (firstField (L "Letter=x")) /\
  orientation (parseOptions
                 ([L "--orientation=landscape"] ++
                  (L "--orientation=" ++ L "") :: [L "--page-size=A3"])) =
    VString (firstField (L "")).
Proof.
  apply last_option_decides; unfold lacks; repeat constructor.
Defined.

(** *** The two switches *)

Lemma applyOption_fonts (cfg : config) (opt : str) :
  includeFonts (applyOption cfg opt) =
  includeFonts cfg && negb (strEq opt (L "--no-fonts")).
Proof.
  destruct (applyOption_cases cfg opt)
    as [(v & ->)|(_ & [(v & ->)|(_ & [(v & ->)|(_ & ->)])])].
  - rewrite apply_pageSize. cbn [includeFonts].
    destruct (strEq _ _) eqn:E; [apply strEq_eq in E; discriminate E|].
    now rewrite andb_true_r.
  - rewrite apply_orientation. cbn [includeFonts].
    destruct (strEq _ _) eqn:E; [apply strEq_eq in E; discriminate E|].
    now rewrite andb_true_r.
  - rewrite apply_margin. cbn [includeFonts].
    destruct (strEq _ _) eqn:E; [apply strEq_eq in E; discriminate E|].
    now rewrite andb_true_r.
  - destruct (strEq opt (L "--no-fonts")); cbn [includeFonts negb];
      [now rewrite andb_false_r|].
    destruct (strEq opt (L "--no-code-blocks")); cbn [includeFonts];
      now rewrite andb_true_r.
Qed.

Lemma applyOption_blocks (cfg : config) (opt : str) :
  renderCodeBlocks (applyOption cfg opt) =
  renderCodeBlocks cfg && negb (strEq opt (L "--no-code-blocks")).
Proof.
  destruct (applyOption_cases cfg opt)
    as [(v & ->)|(_ & [(v & ->)|(_ & [(v & ->)|(_ & ->)])])].
  - rewrite apply_pageSize. cbn [renderCodeBlocks].
    destruct (strEq _ _) eqn:E; [apply strEq_eq in E; discriminate E|].
    now rewrite andb_true_r.
  - rewrite apply_orientation. cbn [renderCodeBlocks].
    destruct (strEq _ _) eqn:E; [apply strEq_eq in E; discriminate E|].
    now rewrite andb_true_r.
  - rewrite apply_margin. cbn [renderCodeBlocks].
    destruct (strEq _ _) eqn:E; [apply strEq_eq in E; discriminate E|].
    now rewrite andb_true_r.
  - destruct (strEq opt (L "--no-fonts")) eqn:E1; cbn [renderCodeBlocks].
    + destruct (strEq opt (L "--no-code-blocks")) eqn:E2;
        [apply strEq_eq in E1, E2; rewrite E1 in E2; discriminate E2|].
      now rewrite andb_true_r.
    + destruct (strEq opt (L "--no-code-blocks")); cbn [renderCodeBlocks negb];
        [now rewrite andb_false_r | now rewrite andb_true_r].
Qed.

Lemma fold_switch (field : config -> bool) (flag : str) :
  (forall cfg opt,
     field (applyOption cfg opt) = field cfg && negb (strEq opt flag)) ->
  forall rest cfg,
    field (fold_left applyOption rest cfg) = true <->
    field cfg = true /\ ~ In flag rest.
Proof.
  intros Hstep. induction rest as [|o rest IH]; intros cfg.
  - cbn. tauto.
  - cbn [fold_left In]. rewrite IH, Hstep, andb_true_iff, negb_true_iff.
    unfold strEq. destruct (list_eq_dec ascii_dec o flag) as [->|Hne].
    + split; [intros [[_ H] _]; discriminate H | intros [_ H]; tauto].
    + split; [intros [[H _] Hn]; split; [exact H|] | intros [H Hn]; tauto].
      intros [E|Hin]; [now apply Hne | now apply Hn].
Qed.

(** X14: the fonts are included unless some option is exactly [--no-fonts], and
    the code blocks are rendered unless some option is exactly
    [--no-code-blocks], wherever the option stands; no option switches
    either on again. *)
Theorem switches_are_sticky (options : list str) :
  (includeFonts (parseOptions options) = true <->
   ~ In (L "--no-fonts") options) /\
  (renderCodeBlocks (parseOptions options) = true <->
   ~ In (L "--no-code-blocks") options).
Proof.
  unfold parseOptions. split.
  - rewrite (fold_switch includeFonts _ applyOption_fonts). cbn. tauto.
  - rewrite (fold_switch renderCodeBlocks _ applyOption_blocks). cbn. tauto.
Qed.

End CliFacts.

(** ** Margins on the command line and in the popup *)

Module MarginFacts.
Import StringFacts Converter CountFacts LiteralFacts FontFacts CliFacts.
Import Cli.

(** *** parseInt on the digits of a number *)

Lemma digits_from (l : Decimal.uint) :
  forall acc : positive,
    digitsValue 10 (Some (N.pos acc)) (L (NilEmpty.string_of_uint l)) =
    Some (N.pos (Pos.of_uint_acc l acc)).
Proof.
  induction l as [|l IH|l IH|l IH|l IH|l IH|l IH|l IH|l IH|l IH|l IH];
    intros acc; [reflexivity|..];
    cbn [NilEmpty.string_of_uint L list_ascii_of_string digitsValue
         Pos.of_uint_acc];
    match goal with
    | |- context [digitOf 10 ?c] =>
        let d := eval vm_compute in (digitOf 10 c) in
        change (digitOf 10 c) with d
    end;
    cbn iota; rewrite <- IH; do 2 f_equal; lia.
Qed.

Lemma digits_from_zero (l : Decimal.uint) :
  digitsValue 10 (Some 0%N) (L (NilEmpty.string_of_uint l)) =
  Some (Pos.of_uint l).
Proof.
  induction l as [|l IH|l IH|l IH|l IH|l IH|l IH|l IH|l IH|l IH|l IH];
    [reflexivity|..];
    cbn [NilEmpty.string_of_uint L list_ascii_of_string digitsValue
         Pos.of_uint];
    match goal with
    | |- context [digitOf 10 ?c] =>
        let d := eval vm_compute in (digitOf 10 c) in
        change (digitOf 10 c) with d
    end;
    cbn iota;
    match goal with
    | |- digitsValue 10 (Some ?a) _ = _ =>
        let a' := eval vm_compute in a in change a with a'
    end;
    first [exact IH | apply (digits_from l)].
Qed.

Lemma digits_start (c : ascii) (s : str) :
  isDigit c = true ->
  digitsValue 10 None (c :: s) = digitsValue 10 (Some 0%N) (c :: s).
Proof.
  intros H. apply digit_cases in H. cbn [In L list_ascii_of_string] in H.
  decompose [or] H; try contradiction; subst c; reflexivity.
Qed.

Lemma digitsValue_number (n : N) :
  digitsValue 10 None (numberToString n) = Some n.
Proof.
  destruct (numberToString_cons n) as (d & ds & E & Hd).
  rewrite E, (digits_start d ds Hd), <- E.
  unfold numberToString, NilZero.string_of_uint.
  rewrite <- (DecimalN.Unsigned.of_to n) at 2.
  unfold N.of_uint.
  destruct (N.to_uint n); try apply digits_from_zero. reflexivity.
Qed.

Lemma digit_plain (c : ascii) :
  isDigit c = true ->
  isSpace c = false /\ Ascii.eqb c "+" = false /\ Ascii.eqb c "-" = false /\
  Ascii.eqb c "x" = false /\ Ascii.eqb c "X" = false /\
  Ascii.eqb c "=" = false.
Proof.
  intros H. apply digit_cases in H. cbn [In L list_ascii_of_string] in H.
  decompose [or] H; try contradiction; subst c; conjs; reflexivity.
Qed.

(** [parseInt] reads the digits of a number back. *)
Lemma parseInt_number (n : N) :
  parseInt (numberToString n) = VNumber (Z.of_N n).
Proof.
  pose proof (digitsValue_number n) as Hv.
  pose proof (numberToString_digits n) as Hall.
  destruct (numberToString n) as [|d ds] eqn:E; [discriminate Hv|].
  cbn [forallb] in Hall. apply andb_true_iff in Hall.
  destruct Hall as [Hd Hds].
  destruct (digit_plain d Hd) as (Hs & Hplus & Hminus & _).
  unfold parseInt. cbn [skipSpace]. rewrite Hs, Hplus, Hminus. cbn [orb].
  assert (Hhex :
    match d :: ds with
    | z :: x :: _ => Ascii.eqb z "0" && (Ascii.eqb x "x" || Ascii.eqb x "X")
    | _ => false
    end = false).
  { destruct ds as [|x ds']; [reflexivity|].
    cbn [forallb] in Hds. apply andb_true_iff in Hds.
    destruct (digit_plain x (proj1 Hds)) as (_ & _ & _ & -> & -> & _).
    now rewrite andb_false_r. }
  rewrite Hhex, Hv. f_equal. lia.
Qed.

Lemma firstField_digits (s : str) :
  forallb isDigit s = true -> firstField s = s.
Proof.
  induction s as [|c s IH]; [reflexivity|].
  cbn [forallb firstField]. intros H. apply andb_true_iff in H.
  destruct H as [Hc Hs].
  destruct (digit_plain c Hc) as (_ & _ & _ & _ & _ & ->).
  now rewrite IH.
Qed.

(** *** parseInt on a text that is no number *)

Lemma digitOf_nondigit (c : ascii) :
  isDigit c = false -> digitOf 10 c = None.
Proof.
  destruct c as [[] [] [] [] [] [] [] []]; vm_compute;
    intros H; reflexivity || discriminate H.
Qed.

Lemma parseInt_notNumeric (v : str) :
  notNumeric (firstField v) = true -> parseInt (firstField v) = VNaN.
Proof.
  destruct (firstField v) as [|c s]; [reflexivity|].
  unfold notNumeric. rewrite !andb_true_iff, !negb_true_iff.
  intros [[[Hs Hd] Hplus] Hminus].
  unfold parseInt. cbn [skipSpace]. rewrite Hs, Hplus, Hminus. cbn [orb].
  assert (H0 : Ascii.eqb c "0" = false).
  { destruct (Ascii.eqb_spec c "0") as [->|]; [discriminate Hd|reflexivity]. }
  assert (Hhex :
    match c :: s with
    | z :: x :: _ => Ascii.eqb z "0" && (Ascii.eqb x "x" || Ascii.eqb x "X")
    | _ => false
    end = false).
  { destruct s; [reflexivity|]. now rewrite H0. }
  rewrite Hhex. cbn [digitsValue]. now rewrite (digitOf_nondigit c Hd).
Qed.

Lemma notNumeric_first (v : str) :
  notNumeric v = true -> notNumeric (firstField v) = true.
Proof.
  destruct v as [|c v]; [reflexivity|]. cbn [firstField].
  destruct (Ascii.eqb c "="); [reflexivity|]. exact (fun H => H).
Qed.

(** *** The margin of the command line *)

(** X15: a margin written with the digits of a whole number from 0 to
    2^53 - 1, the whole numbers that a number of JavaScript holds exactly,
    is read back as that number, by the last [--margin=] option; 0 is a
    margin like any other. *)
Theorem margin_option_round_trip (first rest : list str) (n : N) :
  (n < 2 ^ 53)%N ->
  lacks (L "--margin=") rest ->
  margin (parseOptions (first ++ (L "--margin=" ++ numberToString n) :: rest)) =
  VNumber (Z.of_N n).
Proof.
  intros _ H. rewrite parseOptions_app.
  rewrite (fold_keeps margin _ no_key_margin) by exact H.
  rewrite apply_margin. cbn [margin].
  rewrite firstField_digits by apply numberToString_digits.
  apply parseInt_number.
Qed.

Lemma margin_option_round_trip_witness :
  margin (parseOptions
            ([L "--margin=5"] ++ (L "--margin=" ++ numberToString 0) ::
             [L "--no-fonts"])) = VNumber (Z.of_N 0).
Proof.
  apply margin_option_round_trip;
    [reflexivity | unfold lacks; repeat constructor].
Defined.

(** X16: a margin that does not begin like a number, the empty one included, is
    not refused: the margin of the configuration is [NaN]. *)
Theorem margin_option_not_a_number (first rest : list str) (v : str) :
  lacks (L "--margin=") rest ->
  notNumeric v = true ->
  margin (parseOptions (first ++ (L "--margin=" ++ v) :: rest)) = VNaN.
Proof.
  intros H Hv. rewrite parseOptions_app.
  rewrite (fold_keeps margin _ no_key_margin) by exact H.
  rewrite apply_margin. cbn [margin].
  apply parseInt_notNumeric. now apply notNumeric_first.
Qed.

Lemma margin_option_not_a_number_witness :
  margin (parseOptions ([] ++ (L "--margin=" ++ L "wide") :: [])) = VNaN.
Proof.
  apply margin_option_not_a_number; [unfold lacks; constructor | reflexivity].
Defined.

(** *** The settings of the popup *)

Import PopupUi.

(** X17: the settings of the popup never hold an empty page size,
    orientation or file name, and their margin is a number other than 0,
    never [NaN]: the number that the field begins with, or 10 when the field
    begins with no number or with 0. *)
Theorem getSettings_never_empty (f : form) :
  PopupUi.pageSize (getSettings f) <> [] /\
  PopupUi.orientation (getSettings f) <> [] /\
  filename (getSettings f) <> [] /\
  exists z,
    PopupUi.margin (getSettings f) = VNumber z /\ z <> 0%Z /\
    (parseInt (marginField f) = VNumber z \/
     z = 10%Z /\
     (parseInt (marginField f) = VNaN \/
      parseInt (marginField f) = VNumber 0)).
Proof.
  unfold getSettings.
  cbn [PopupUi.pageSize PopupUi.orientation filename PopupUi.margin].
  split; [destruct (pageSizeField f); discriminate|].
  split; [destruct (orientationField f); discriminate|].
  split; [destruct (filenameField f); discriminate|].
  unfold orValue.
  destruct (parseInt_cases (marginField f)) as [E|(z & E)]; rewrite E.
  - exists 10%Z. cbn. split; [reflexivity|]. split; [lia|]. right. tauto.
  - cbn [truthy]. destruct (Z.eqb_spec z 0) as [->|Hz]; cbn [negb].
    + exists 10%Z. split; [reflexivity|]. split; [lia|]. right. tauto.
    + exists z. split; [reflexivity|]. split; [exact Hz|]. now left.
Qed.

(** A whole number above 0 typed into the margin field is the margin of the
    settings. *)
Lemma getSettings_margin_number (f : form) (n : N) :
  marginField f = numberToString n -> n <> 0%N ->
  PopupUi.margin (getSettings f) = VNumber (Z.of_N n).
Proof.
  intros E Hn. unfold getSettings. cbn [PopupUi.margin].
  rewrite E, parseInt_number. unfold orValue. cbn [truthy].
  destruct (Z.eqb_spec (Z.of_N n) 0); [lia|reflexivity].
Qed.

End MarginFacts.

(** ** The page conversion of the popup *)

Module PopupUiFacts.
Import StringFacts Converter.
Import PopupUi.

Lemma restricted_false (u : option str) :
  restricted u = false ->
  exists s,
    u = Some s /\ s <> [] /\
    startsWith false (L "chrome://") s = false /\
    startsWith false (L "chrome-extension://") s = false.
Proof.
  destruct u as [s|]; [|discriminate]. cbn [restricted].
  rewrite !orb_false_iff, negb_false_iff. intros [[Ht H1] H2].
  exists s. split; [reflexivity|]. split; [|now split].
  intros ->. discriminate Ht.
Qed.

(** X18: a script is run in a tab only when the tab shows its address, and the
    address is not empty and begins neither with [chrome://] nor with
    [chrome-extension://]; it is run in the first tab of the query. *)
Theorem script_only_on_open_pages
    (env : chrome) (type ty : str) (tabId : nat) :
  In (ExecuteScript tabId ty) (convertToPDF env type) ->
  exists t others address,
    tabs env = Some (t :: others) /\ tabId = id t /\ ty = type /\
    url t = Some address /\ address <> [] /\
    startsWith false (L "chrome://") address = false /\
    startsWith false (L "chrome-extension://") address = false.
Proof.
  unfold convertToPDF. intros [H|H]; [discriminate H|].
  destruct (tabs env) as [[|t others]|];
    try (destruct H as [H|[]]; discriminate H).
  destruct (restricted (url t)) eqn:Er;
    [destruct H as [H|[]]; discriminate H|].
  destruct (restricted_false _ Er) as (address & Eu & Hne & H1 & H2).
  destruct H as [H|H].
  - injection H as <- <-. exists t, others, address. now conjs.
  - exfalso.
    destruct (lastError env) as [msg|].
    + destruct (includes _ msg); destruct H as [H|[]]; discriminate H.
    + destruct (result env) as [[|d rest]|];
        try (destruct H as [H|[]]; discriminate H).
      destruct (truthy d); [destruct (isFalse d)|];
        destruct H as [H|[]]; discriminate H.
Qed.

Lemma script_only_on_open_pages_witness :
  exists t others address,
    tabs (Chrome (Some [Tab (Some (L "https://example.org/")) 7]) None
            (Some [VString (L "blob:1")])) = Some (t :: others) /\
    7 = id t /\ L "selection" = L "selection" /\
    url t = Some address /\ address <> [] /\
    startsWith false (L "chrome://") address = false /\
    startsWith false (L "chrome-extension://") address = false.
Proof.
  apply (script_only_on_open_pages _ (L "selection") (L "selection") 7).
  right. left. reflexivity.
Defined.

(** X19: a document is generated only from a result of the script that is
    truthy, when the script ran without an error. *)
Theorem pdf_only_from_truthy_result
    (env : chrome) (type : str) (data : value) :
  In (GeneratePDF data) (convertToPDF env type) ->
  lastError env = None /\ truthy data = true /\
  exists rest, result env = Some (data :: rest).
Proof.
  unfold convertToPDF. intros [H|H]; [discriminate H|].
  destruct (tabs env) as [[|t others]|];
    try (destruct H as [H|[]]; discriminate H).
  destruct (restricted (url t));
    [destruct H as [H|[]]; discriminate H|].
  destruct H as [H|H]; [discriminate H|].
  destruct (lastError env) as [msg|].
  - destruct (includes _ msg); destruct H as [H|[]]; discriminate H.
  - destruct (result env) as [[|d rest]|];
      try (destruct H as [H|[]]; discriminate H).
    destruct (truthy d) eqn:Et; [destruct (isFalse d)|];
      destruct H as [H|[]]; try discriminate H.
    injection H as <-. split; [reflexivity|]. split; [exact Et|]. eauto.
Qed.

Lemma pdf_only_from_truthy_result_witness :
  lastError (Chrome (Some [Tab (Some (L "https://example.org/")) 7]) None
               (Some [VString (L "blob:1")])) = None /\
  truthy (VString (L "blob:1")) = true /\
  exists rest,
    result (Chrome (Some [Tab (Some (L "https://example.org/")) 7]) None
              (Some [VString (L "blob:1")])) =
    Some (VString (L "blob:1") :: rest).
Proof.
  apply (pdf_only_from_truthy_result _ (L "selection")).
  right. right. left. reflexivity.
Defined.

(** X20: the hint written for a script that returns [false] is never shown for
    that reason: a result [false] is not truthy, and gets the plain message.
    The text of the hint can only be shown as the message of an error of the
    script. *)
Theorem false_result_gets_plain_message
    (env : chrome) (type : str) :
  (forall t others rest,
     tabs env = Some (t :: others) -> restricted (url t) = false ->
     lastError env = None -> result env = Some (VBool false :: rest) ->
     convertToPDF env type =
     [ShowStatus (L "Converting to PDF...") (L "loading");
      ExecuteScript (id t) type;
      ShowStatus noContent (L "error")]) /\
  (forall kind,
     In (ShowStatus noContentHint kind) (convertToPDF env type) ->
     exists msg, lastError env = Some msg /\ L "Error: " ++ msg = noContentHint).
Proof.
  split.
  - intros t others rest Et Er El Ers. unfold convertToPDF.
    now rewrite Et, Er, El, Ers.
  - intros kind. unfold convertToPDF.
    intros [H|H]; [vm_compute in H; discriminate H|].
    destruct (tabs env) as [[|t others]|];
      try (destruct H as [H|[]]; vm_compute in H; discriminate H).
    destruct (restricted (url t));
      [destruct H as [H|[]]; vm_compute in H; discriminate H|].
    destruct H as [H|H]; [discriminate H|].
    destruct (lastError env) as [msg|].
    + destruct (includes _ msg);
        [destruct H as [H|[]]; vm_compute in H; discriminate H|].
      destruct H as [H|[]]. exists msg. split; [reflexivity|].
      injection H as -> _. reflexivity.
    + exfalso. destruct (result env) as [[|d rest]|];
        try (destruct H as [H|[]]; vm_compute in H; discriminate H).
      destruct d as [| |[|]|n| |s|]; cbn [truthy isFalse] in H;
        repeat match type of H with
               | In _ (if ?b then _ else _) => destruct b
               end;
        destruct H as [H|[]]; try discriminate H;
        vm_compute in H; discriminate H.
Qed.

(** X25: [convertToPDF] first shows that the conversion is under way, runs
    the script at most once, and then does exactly one more thing: it shows
    an error, or it starts the generation of the document.  It never shows
    a success itself. *)
Theorem convertToPDF_ends_once (env : chrome) (type : str) :
  exists final,
    finalAction final /\
    (convertToPDF env type =
       [ShowStatus (L "Converting to PDF...") (L "loading"); final] \/
     exists tabId,
       convertToPDF env type =
       [ShowStatus (L "Converting to PDF...") (L "loading");
        ExecuteScript tabId type; final]).
Proof.
  unfold convertToPDF, finalAction.
  destruct (tabs env) as [[|t others]|];
    try (eexists; split; [left; eexists; reflexivity | left; reflexivity]).
  destruct (restricted (url t));
    [eexists; split; [left; eexists; reflexivity | left; reflexivity]|].
  destruct (lastError env) as [msg|].
  - destruct (includes _ msg);
      (eexists; split; [left; eexists; reflexivity | right; eexists; reflexivity]).
  - destruct (result env) as [[|d rest]|];
      try (eexists; split;
           [left; eexists; reflexivity | right; eexists; reflexivity]).
    destruct (truthy d); [destruct (isFalse d)|];
      try (eexists; split;
           [left; eexists; reflexivity | right; eexists; reflexivity]).
    eexists; split; [right; eexists; reflexivity | right; eexists; reflexivity].
Qed.

End PopupUiFacts.

(** ** Documents through the style step *)

Module StepFacts.
Import StringFacts RegexFacts StyleFacts Converter ProcessFacts ShellFacts.
Import RenderFacts CountFacts StyleCount PopupFacts ShellTests LiteralFacts.
Import FontFacts.

(** *** A plain fragment *)

Lemma renderIf_plain (cfg : config) (html : str) :
  countOcc true openTags html = 0 -> renderIf cfg html = Some html.
Proof.
  intros H. unfold renderIf. destruct (renderCodeBlocks cfg); [|reflexivity].
  unfold renderHTMLCodeBlocks. apply replaceRegex_none.
  apply (exec_needs_literal openTags); [reflexivity | exact H].
Qed.

Lemma fixCentering_plain (html : str) :
  countOcc true (L "auto") html = 0 -> fixCenteringIssues html = Some html.
Proof.
  intros H. unfold fixCenteringIssues, test.
  rewrite (exec_needs_literal (L "auto") centeringPattern html)
    by (reflexivity || exact H).
  now rewrite (exec_needs_literal (L "auto") generalCenteringPattern html)
    by (reflexivity || exact H).
Qed.

(** X21: a fragment that holds neither [auto] nor [<pre><code>], in any letter
    case, comes out as it went in, inside the shell of a document with the
    style block. *)
Theorem plain_fragment_verbatim (html : str) (cfg : config) :
  hasShell html = false ->
  countOcc true (L "auto") html = 0 ->
  countOcc true openTags html = 0 ->
  processHTMLContent html cfg = Some (wrapped cfg html).
Proof.
  intros Hshell Hauto Hopen.
  rewrite (processHTMLContent_eq html html cfg (fixCentering_plain html Hauto)).
  rewrite (injectStyle_fragment cfg html Hshell), renderIf_wrapped.
  now rewrite (renderIf_plain cfg html Hopen).
Qed.

Lemma plain_fragment_verbatim_witness :
  processHTMLContent fragment defaultConfig =
  Some (wrapped defaultConfig fragment).
Proof.
  apply plain_fragment_verbatim; vm_compute; reflexivity.
Defined.

(** *** The number of style blocks *)

Lemma mark_count_wrapped (cfg : config) (body : str) :
  countOcc false styleMark (wrapped cfg body) =
  1 + countOcc false styleMark body.
Proof.
  unfold wrapped.
  rewrite countOcc_skip by (apply noStartB_sound; vm_compute; reflexivity).
  rewrite mark_count_css.
  rewrite countOcc_skip by (apply noStartB_sound; vm_compute; reflexivity).
  now rewrite mark_count_tail.
Qed.

Lemma mark_count_popupWrapped (st : Popup.settings) (body : str) :
  countOcc false styleMark (popupWrapped st body) =
  1 + countOcc false styleMark body.
Proof.
  unfold popupWrapped.
  change styleMark with ("<"%char :: L "style").
  rewrite countOcc_number by reflexivity.
  change (countOcc false ("<"%char :: L "style") Popup.documentHead) with 1.
  f_equal.
  rewrite countOcc_skip by (apply noStartB_sound; vm_compute; reflexivity).
  exact (mark_count_tail body).
Qed.

(** X22: around a fragment the converter and the popup put one style block:
    the document holds one [<style] more than the fragment. *)
Theorem wrapping_adds_one_style
    (html : str) (cfg : config) (st : Popup.settings) :
  hasShell html = false ->
  countOcc false styleMark (injectStyle cfg html) =
    1 + countOcc false styleMark html /\
  countOcc false styleMark (Popup.createCompleteHTMLDocument html st) =
    1 + countOcc false styleMark html.
Proof.
  intros H. rewrite (injectStyle_fragment cfg html H), (popup_fragment st html H).
  split; [apply mark_count_wrapped | apply mark_count_popupWrapped].
Qed.

Lemma wrapping_adds_one_style_witness :
  countOcc false styleMark
    (injectStyle defaultConfig (L "<style>p{}</style><p>Hi</p>")) =
    1 + countOcc false styleMark (L "<style>p{}</style><p>Hi</p>") /\
  countOcc false styleMark
    (Popup.createCompleteHTMLDocument (L "<style>p{}</style><p>Hi</p>")
       popupSettings) =
    1 + countOcc false styleMark (L "<style>p{}</style><p>Hi</p>").
Proof.
  apply wrapping_adds_one_style. vm_compute. reflexivity.
Defined.

(** *** A complete document, twice *)

Lemma tag_letters (pat t : str) :
  stripPrefix true pat t = Some [] ->
  forallb (fun q => negb (eqci q "<")) pat = true ->
  ~ In "<"%char t.
Proof.
  revert t. induction pat as [|q pat IH]; intros t Ht Hpat.
  - destruct t; [exact (fun H => H) | discriminate Ht].
  - destruct t as [|c t]; [discriminate Ht|].
    cbn [stripPrefix cmp] in Ht. destruct (eqci q c) eqn:Eq; [|discriminate Ht].
    cbn [forallb] in Hpat. apply andb_true_iff in Hpat.
    destruct Hpat as [Hq Hpat]. apply negb_true_iff in Hq.
    intros [E|Hin]; [subst c; congruence | exact (IH t Ht Hpat Hin)].
Qed.

(** A text put in front of a [<] does not undo the test of a tag, when it
    holds a [>]. *)
Lemma tag_test_insert (name : string) (a ins r : str) :
  forallb (fun q => negb (eqci q "<")) (L name) = true ->
  In ">"%char ins ->
  test (tagPattern name) (a ++ "<"%char :: r) = true ->
  test (tagPattern name) (a ++ ins ++ "<"%char :: r) = true.
Proof.
  intros Hname Hins Ht.
  apply tag_test_spec in Ht. destruct Ht as (x & t & u & y & E & Et).
  assert (Hfound : forall x' z',
            In ">"%char z' ->
            test (tagPattern name) (x' ++ t ++ z') = true).
  { intros x' z' Hz. apply in_split in Hz. destruct Hz as (u' & y' & ->).
    apply tag_test_spec. now exists x', t, u', y'. }
  assert (Hz : In ">"%char (u ++ ">"%char :: y))
    by (apply in_or_app; right; now left).
  set (z := u ++ ">"%char :: y) in *.
  rewrite app_assoc in E. apply app_eq_app in E.
  destruct E as (l & [[E1 E2]|[E1 E2]]).
  - (* the tag ends in front of the place *)
    subst a. rewrite <- !app_assoc. apply Hfound.
    apply in_or_app. right. apply in_or_app. now left.
  - destruct l as [|l0 l].
    + (* the tag ends at the place *)
      rewrite app_nil_r in E1. subst a. rewrite <- !app_assoc.
      apply Hfound. apply in_or_app. now left.
    + cbn [app] in E2. injection E2 as <- E2.
      apply app_eq_app in E1. destruct E1 as (m & [[E3 E4]|[E3 E4]]).
      * (* the tag begins at the place or behind it *)
        subst x.
        replace (a ++ ins ++ "<"%char :: r) with ((a ++ ins ++ m) ++ t ++ z).
        -- now apply Hfound.
        -- rewrite E2. change ("<"%char :: l ++ z) with (("<"%char :: l) ++ z).
           rewrite E4. now rewrite <- !app_assoc.
      * destruct m as [|m0 m].
        -- (* the tag begins at the place *)
           cbn [app] in E4. rewrite app_nil_r in E3. subst x.
           replace (a ++ ins ++ "<"%char :: r) with ((a ++ ins) ++ t ++ z).
           ++ now apply Hfound.
           ++ rewrite E2, E4. cbn [app]. now rewrite <- !app_assoc.
        -- (* a tag across the place would hold a second [<] *)
           exfalso. subst t.
           cbn [L list_ascii_of_string app stripPrefix cmp] in Et.
           destruct (eqci "<" m0); [|discriminate Et].
           apply (tag_letters (L name) _ Et Hname).
           apply in_or_app. right. now left.
Qed.

Lemma css_has_gt (cfg : config) : In ">"%char (generateCSS cfg ++ newline).
Proof.
  rewrite generateCSS_mark.
  change cssPart0Tail with (">"%char :: tl cssPart0Tail).
  apply in_or_app. left. apply in_or_app. right. apply in_or_app. right.
  now left.
Qed.

(** A complete document is still one after a text with a [>] was put in
    front of its [</head>]. *)
Lemma hasShell_insert (a ins b : str) :
  In ">"%char ins ->
  hasShell (a ++ headClose ++ b) = true ->
  hasShell (a ++ ins ++ headClose ++ b) = true.
Proof.
  intros Hins. unfold hasShell, hasHTML, hasHead, hasBody.
  rewrite !andb_true_iff. intros [[H1 H2] H3].
  change (a ++ headClose ++ b) with (a ++ "<"%char :: L "/head>" ++ b)
    in H1, H2, H3.
  change (a ++ ins ++ headClose ++ b)
    with (a ++ ins ++ "<"%char :: L "/head>" ++ b).
  conjs; apply tag_test_insert; trivial.
Qed.

(** The first [</head>] stays the first one when a text that begins with a
    line feed and holds no [</head>] is put in front of it. *)
Lemma indexOf_insert (html a b ins : str) :
  indexOf headClose html = Some (a, b) ->
  (forall y,
     everySuffix (fun s => stripPrefix false headClose s = None)
       (ascii_of_nat 10 :: ins) y) ->
  indexOf headClose (a ++ (ascii_of_nat 10 :: ins) ++ headClose ++ b) =
  Some (a ++ ascii_of_nat 10 :: ins, b).
Proof.
  intros H Hins. pose proof (indexOf_first headClose html a b H) as Hfirst.
  rewrite app_assoc. rewrite indexOf_skip.
  - now rewrite indexOf_here, app_nil_r.
  - apply everySuffix_app; [|apply Hins].
    intros x1 c x2 Ea.
    specialize (Hfirst x1 c x2 Ea). cbn beta in Hfirst.
    assert (Hin : stripPrefix false headClose (c :: x2) = None).
    { destruct (stripPrefix false headClose (c :: x2)) as [rest|] eqn:E;
        [|reflexivity].
      change (c :: x2 ++ headClose ++ b) with ((c :: x2) ++ headClose ++ b)
        in Hfirst.
      rewrite (stripPrefix_app false _ _ _ (headClose ++ b) E) in Hfirst.
      discriminate Hfirst. }
    change (stripPrefix false headClose
              ((c :: x2) ++ ascii_of_nat 10 :: ins ++ headClose ++ b) = None).
    now apply stripPrefix_none_ext.
Qed.

Lemma spliced_eq (cfg : config) (a b : str) :
  spliced cfg a b =
  a ++ (ascii_of_nat 10 :: tl (generateCSS cfg ++ newline)) ++ headClose ++ b.
Proof.
  unfold spliced. rewrite generateCSS_mark.
  change indent with (ascii_of_nat 10 :: tl indent). cbn [app tl].
  now rewrite <- !app_assoc.
Qed.

Lemma css_line (cfg : config) :
  ascii_of_nat 10 :: tl (generateCSS cfg ++ newline) =
  generateCSS cfg ++ newline.
Proof.
  rewrite generateCSS_mark.
  change indent with (ascii_of_nat 10 :: tl indent). reflexivity.
Qed.

(** X23: a complete document with a [</head>] gets the style block in front
    of its first [</head>], is a complete document afterwards as well, and a
    second run puts a second style block in front of the same [</head>]:
    every run on its own output adds one. *)
Theorem complete_document_second_pass (html a b : str) (cfg : config) :
  hasShell html = true ->
  indexOf headClose html = Some (a, b) ->
  injectStyle cfg html = spliced cfg a b /\
  hasShell (spliced cfg a b) = true /\
  injectStyle cfg (spliced cfg a b) =
    spliced cfg (a ++ generateCSS cfg ++ newline) b.
Proof.
  intros Hshell Hidx.
  assert (Hs : hasShell (spliced cfg a b) = true).
  { rewrite spliced_eq, css_line. apply hasShell_insert; [apply css_has_gt|].
    now rewrite <- (indexOf_sound _ _ _ _ Hidx). }
  split; [|split; [exact Hs|]].
  - rewrite (injectStyle_complete cfg html Hshell).
    now apply splice_complete.
  - rewrite (injectStyle_complete cfg _ Hs).
    apply splice_complete. rewrite spliced_eq.
    rewrite (indexOf_insert html a b _ Hidx); [now rewrite css_line|].
    intros y. rewrite css_line.
    apply everySuffix_app;
      [apply generateCSS_no_headClose
      |apply noStartB_sound; vm_compute; reflexivity].
Qed.

Lemma complete_document_second_pass_witness :
  injectStyle defaultConfig (L "<html><head></head><body>x</body></html>") =
    spliced defaultConfig (L "<html><head>") (L "<body>x</body></html>") /\
  hasShell
    (spliced defaultConfig (L "<html><head>") (L "<body>x</body></html>")) =
    true /\
  injectStyle defaultConfig
    (spliced defaultConfig (L "<html><head>") (L "<body>x</body></html>")) =
    spliced defaultConfig
      (L "<html><head>" ++ generateCSS defaultConfig ++ newline)
      (L "<body>x</body></html>").
Proof.
  apply (complete_document_second_pass
           (L "<html><head></head><body>x</body></html>"));
    vm_compute; reflexivity.
Defined.

(** *** The same in the popup *)

Lemma popup_spliceText_eq (st : Popup.settings) :
  Popup.spliceText st = popupStyle st ++ headClose.
Proof.
  unfold Popup.spliceText, popupStyle.
  change Popup.spliceTail with (firstn 559 Popup.spliceTail ++ headClose)
    at 1.
  now rewrite <- !app_assoc.
Qed.

Lemma popup_splice_complete (st : Popup.settings) (fixed a b : str) :
  indexOf headClose fixed = Some (a, b) ->
  replaceString headClose (Popup.spliceText st) fixed = popupSpliced st a b.
Proof.
  intros H. unfold replaceString. rewrite H, popup_spliceText_plain.
  rewrite popup_spliceText_eq. unfold popupSpliced.
  now rewrite <- !app_assoc.
Qed.

Lemma popupStyle_line (st : Popup.settings) :
  popupStyle st = ascii_of_nat 10 :: tl (popupStyle st).
Proof. reflexivity. Qed.

Lemma popupStyle_has_gt (st : Popup.settings) : In ">"%char (popupStyle st).
Proof.
  unfold popupStyle. apply in_or_app. left. vm_compute. tauto.
Qed.

Lemma popupStyle_no_headClose (st : Popup.settings) (y : str) :
  everySuffix (fun s => stripPrefix false headClose s = None)
    (popupStyle st) y.
Proof.
  unfold popupStyle.
  apply everySuffix_app; [|apply everySuffix_app].
  - apply noStartB_sound. vm_compute. reflexivity.
  - apply digits_no_headClose.
  - apply noStartB_sound. vm_compute. reflexivity.
Qed.

(** X24: in the popup a complete document with a [</head>] gets the
    popup's style block in front of its first [</head>], is a complete
    document afterwards as well, and a second run puts a second style block
    in front of the same [</head>]. *)
Theorem popup_complete_document_second_pass
    (html a b : str) (st : Popup.settings) :
  hasShell html = true ->
  indexOf headClose html = Some (a, b) ->
  Popup.createCompleteHTMLDocument html st = popupSpliced st a b /\
  hasShell (popupSpliced st a b) = true /\
  Popup.createCompleteHTMLDocument (popupSpliced st a b) st =
    popupSpliced st (a ++ popupStyle st) b.
Proof.
  intros Hshell Hidx.
  assert (Hs : hasShell (popupSpliced st a b) = true).
  { apply hasShell_insert; [apply popupStyle_has_gt|].
    now rewrite <- (indexOf_sound _ _ _ _ Hidx). }
  split; [|split; [exact Hs|]].
  - rewrite (popup_complete st html Hshell).
    now apply popup_splice_complete.
  - rewrite (popup_complete st _ Hs).
    apply popup_splice_complete. unfold popupSpliced.
    rewrite (popupStyle_line st) at 1 2.
    rewrite (indexOf_insert html a b _ Hidx); [reflexivity|].
    intros y. rewrite <- popupStyle_line. apply popupStyle_no_headClose.
Qed.

Lemma popup_complete_document_second_pass_witness :
  Popup.createCompleteHTMLDocument
    (L "<html><head></head><body>x</body></html>") popupSettings =
    popupSpliced popupSettings (L "<html><head>") (L "<body>x</body></html>") /\
  hasShell
    (popupSpliced popupSettings (L "<html><head>")
       (L "<body>x</body></html>")) = true /\
  Popup.createCompleteHTMLDocument
    (popupSpliced popupSettings (L "<html><head>") (L "<body>x</body></html>"))
    popupSettings =
    popupSpliced popupSettings (L "<html><head>" ++ popupStyle popupSettings)
      (L "<body>x</body></html>").
Proof.
  apply (popup_complete_document_second_pass
           (L "<html><head></head><body>x</body></html>"));
    vm_compute; reflexivity.
Defined.

End StepFacts.

(** ** One code block, and the call that prints *)

Module BlockFacts.
Import StringFacts RegexFacts StyleFacts Converter ProcessFacts ShellFacts.
Import RenderFacts AttributeFacts CountFacts LiteralFacts LifecycleFacts.

(** When a text that ends with an occurrence of [pat] holds [pat] once, no
    occurrence starts in front of that one, whatever follows the text. *)
Lemma single_occurrence (pat : str) (w : str) :
  stripPrefix true pat w = Some [] ->
  forall x y,
    countOcc true pat (x ++ w) = 1 ->
    everySuffix (fun s => stripPrefix true pat s = None) x (w ++ y).
Proof.
  intros Hw.
  destruct (stripPrefix_split true pat w [] Hw) as (w' & Ew & _ & Hlen).
  rewrite app_nil_r in Ew. subst w'.
  induction x as [|c x IH]; intros y Hc; [apply everySuffix_nil|].
  cbn [app] in Hc. rewrite countOcc_cons in Hc.
  pose proof (countOcc_found pat x w [] Hw) as Hle.
  rewrite app_nil_r in Hle.
  destruct (startsWith true pat (c :: x ++ w)) eqn:Es; [lia|].
  apply everySuffix_cons; [|apply IH; lia].
  change (c :: x ++ w ++ y) with ((c :: x) ++ w ++ y).
  rewrite app_assoc. apply stripPrefix_long.
  - unfold startsWith in Es.
    destruct (stripPrefix true pat (c :: x ++ w)) eqn:E; [discriminate|].
    exact E.
  - rewrite length_app. lia.
Qed.

(** The lazy run stops at the first place where its continuation
    succeeds. *)
Lemma starLazy_first (k : str -> option mstate) (c y : str) :
  everySuffix (fun s => k s = None) c y ->
  starLazy anyChar (c ++ y) k =
  match k y with
  | Some r => Some r
  | None =>
      match y with
      | _ :: y' => starLazy anyChar y' k
      | [] => None
      end
  end.
Proof.
  induction c as [|c0 c IH]; intros H.
  - cbn [app]. rewrite starLazy_unfold. destruct (k y); [reflexivity|].
    destruct y; reflexivity.
  - apply everySuffix_inv in H. destruct H as [H0 H].
    cbn [app]. rewrite starLazy_unfold, H0. cbn [anyChar]. now apply IH.
Qed.

Lemma exec_block (o c cl b : str) :
  stripPrefix true openTags o = Some [] ->
  stripPrefix true closeTags cl = Some [] ->
  countOcc true closeTags (c ++ cl) = 1 ->
  exec codeBlockPattern (o ++ c ++ cl ++ b) =
  Some (MatchResult [] (o ++ c ++ cl) (Some c) b).
Proof.
  intros Ho Hcl Hc.
  assert (Hm : matchAt codeBlockPattern (o ++ c ++ cl ++ b) =
               Some (b, Some c)).
  { rewrite matchAt_codeBlock.
    rewrite (stripPrefix_app true _ o [] _ Ho). cbn [app].
    rewrite starLazy_first.
    - rewrite (stripPrefix_app true _ cl [] _ Hcl). cbn [app].
      now rewrite firstn_consumed.
    - apply (everySuffix_impl
               (fun s => stripPrefix true closeTags s = None)).
      + intros s E. now rewrite E.
      + now apply single_occurrence. }
  destruct (stripPrefix_nonempty true _ _ o Ho) as (o0 & o' & ->).
  cbn [app exec]. cbn [app] in Hm. rewrite Hm.
  f_equal. f_equal.
  change (o0 :: o' ++ c ++ cl ++ b) with ((o0 :: o') ++ c ++ cl ++ b).
  replace ((o0 :: o') ++ c ++ cl ++ b) with (((o0 :: o') ++ c ++ cl) ++ b)
    by (now rewrite <- !app_assoc).
  apply firstn_consumed.
Qed.

(** X26: a code block whose tags are [<pre><code>] and [</code></pre>] in
    any letter case, and whose content reaches to the first closing tags, is
    copied, and followed by the preview of its content as it stands when the
    content holds a [<] and a [>]; the text in front of the first block is
    copied, and the text behind it is rendered in the same way. *)
Theorem first_block_then_rest (a o c cl b : str) :
  stripPrefix true openTags o = Some [] ->
  stripPrefix true closeTags cl = Some [] ->
  countOcc true openTags (a ++ o) = 1 ->
  countOcc true closeTags (c ++ cl) = 1 ->
  renderHTMLCodeBlocks (a ++ o ++ c ++ cl ++ b) =
  option_map
    (fun t =>
       a ++ o ++ c ++ cl ++
       (if looksLikeHTML c then preview c else []) ++ t)
    (renderHTMLCodeBlocks b).
Proof.
  intros Ho Hcl Ha Hc. unfold renderHTMLCodeBlocks.
  rewrite replaceRegex_skip.
  - destruct (stripPrefix_nonempty true _ _ o Ho) as (o0 & o' & Eo).
    rewrite (replaceRegex_step _ _ _ _ o0 (o' ++ c ++ cl)
               (exec_block o c cl b Ho Hcl Hc))
      by (cbn [matched]; now rewrite Eo).
    cbn [before matched group1 after app].
    rewrite codeBlockReplacer_piece. cbn [pieceOutput].
    destruct (replaceRegex codeBlockPattern codeBlockReplacer b);
      [|reflexivity].
    cbn [option_map]. now rewrite <- !app_assoc.
  - apply no_open_no_match. now apply single_occurrence.
Qed.

Lemma first_block_then_rest_witness :
  renderHTMLCodeBlocks
    (L "<p>" ++ L "<PRE><code>" ++ L "<b>x</b>" ++ L "</code></pre>" ++
     L "</p>") =
  option_map
    (fun t =>
       L "<p>" ++ L "<PRE><code>" ++ L "<b>x</b>" ++ L "</code></pre>" ++
       (if looksLikeHTML (L "<b>x</b>") then preview (L "<b>x</b>") else []) ++
       t)
    (renderHTMLCodeBlocks (L "</p>")).
Proof.
  apply first_block_then_rest; vm_compute; reflexivity.
Defined.

(** X27: the document is printed only in a run in which the browser was
    launched, the page opened and the processed text set as its content,
    and only to the output path, with the page size, the orientation and
    the margin of the merged options. *)
Theorem pdf_only_after_content
    (env : browser) (c d : ascii) (s t : str) (opts : options)
    (path format : str) (landscape : bool) (m : N) :
  In (Pdf path format landscape m)
    (fst (convertHTMLToPDF env (VString (c :: s)) (VString (d :: t)) opts)) ->
  launchFails env = false /\ newPageFails env = false /\
  setContentFails env = false /\
  path = d :: t /\
  format = pageSize (mergeOptions opts) /\
  landscape = strEq (orientation (mergeOptions opts)) (L "landscape") /\
  m = margin (mergeOptions opts) /\
  exists processed,
    processHTMLContent (c :: s) (mergeOptions opts) = Some processed /\
    In (SetContent processed)
      (fst (convertHTMLToPDF env (VString (c :: s)) (VString (d :: t)) opts)).
Proof.
  rewrite convert_unfold. unfold renderPage, perform, finallyClose.
  destruct (processHTMLContent_some (c :: s) (mergeOptions opts)) as (p & E).
  rewrite E.
  destruct (launchFails env);
    [cbn; intros H; decompose [or] H; discriminate || contradiction|].
  destruct (newPageFails env);
    [cbn; intros H; decompose [or] H; discriminate || contradiction|].
  destruct (setContentFails env);
    [cbn; intros H; decompose [or] H; discriminate || contradiction|].
  destruct (pdfFails env); cbn [fst app In]; intros H;
    decompose [or] H; try discriminate; try contradiction;
    match goal with
    | Hp : Pdf _ _ _ _ = Pdf _ _ _ _ |- _ => injection Hp as <- <- <- <-
    end;
    (conjs; try reflexivity; exists p; split; [reflexivity|];
     cbn [In]; tauto).
Qed.

Lemma pdf_only_after_content_witness :
  launchFails reliable = false /\ newPageFails reliable = false /\
  setContentFails reliable = false /\
  L "out.pdf" = "o"%char :: L "ut.pdf" /\
  L "A4" = pageSize (mergeOptions noOptions) /\
  false = strEq (orientation (mergeOptions noOptions)) (L "landscape") /\
  10%N = margin (mergeOptions noOptions) /\
  exists processed,
    processHTMLContent ("x"%char :: []) (mergeOptions noOptions) =
      Some processed /\
    In (SetContent processed)
      (fst (convertHTMLToPDF reliable (VString ("x"%char :: []))
              (VString ("o"%char :: L "ut.pdf")) noOptions)).
Proof.
  apply (pdf_only_after_content reliable "x"%char "o"%char [] (L "ut.pdf")
           noOptions (L "out.pdf") (L "A4") false 10%N).
  vm_compute. tauto.
Defined.

End BlockFacts.

(** ** Scanning for code blocks in a longer text *)

Module ScanFacts.
Import StringFacts RegexFacts StyleFacts Converter ProcessFacts ShellFacts.
Import RenderFacts AttributeFacts CountFacts LiteralFacts.

(** The lazy run stops at the first place where its continuation succeeds. *)
Lemma starLazy_stops (k : str -> option mstate) :
  forall s r,
    starLazy anyChar s k = Some r ->
    exists w s',
      s = w ++ s' /\ k s' = Some r /\
      everySuffix (fun t => k t = None) w s'.
Proof.
  induction s as [|c s IH]; intros r H; rewrite starLazy_unfold in H.
  - destruct (k []) as [r0|] eqn:E; [|discriminate].
    exists [], []. repeat split; [congruence | apply everySuffix_nil].
  - destruct (k (c :: s)) as [r0|] eqn:E.
    + exists [], (c :: s). repeat split; [congruence | apply everySuffix_nil].
    + cbn [anyChar] in H. destruct (IH _ H) as (w & s' & -> & Hk & Hw).
      exists (c :: w), s'. repeat split; [exact Hk|].
      apply everySuffix_cons; assumption.
Qed.

Lemma starLazy_skip (k : str -> option mstate) (c y : str) :
  everySuffix (fun s => k s = None) c y ->
  starLazy anyChar (c ++ y) k = starLazy anyChar y k.
Proof.
  induction c as [|c0 c IH]; intros H; [reflexivity|].
  apply everySuffix_inv in H. destruct H as [H0 H].
  cbn [app]. rewrite starLazy_unfold, H0. cbn [anyChar]. now apply IH.
Qed.

Lemma starLazy_complete (k : str -> option mstate) (w t : str) :
  k t <> None -> starLazy anyChar (w ++ t) k <> None.
Proof.
  intros Hk. induction w as [|c w IH]; cbn [app]; rewrite starLazy_unfold.
  - destruct (k t); [discriminate | contradiction].
  - destruct (k (c :: w ++ t)); [discriminate | exact IH].
Qed.

Lemma starLazy_none (k : str -> option mstate) (s : str) :
  (forall x1 x2, s = x1 ++ x2 -> k x2 = None) ->
  starLazy anyChar s k = None.
Proof.
  induction s as [|c s IH]; intros H; rewrite starLazy_unfold.
  - now rewrite (H [] []).
  - rewrite (H [] (c :: s)) by reflexivity. cbn [anyChar].
    apply IH. intros x1 x2 ->. now apply (H (c :: x1)).
Qed.

(** A match at the start of [s]: its parts, and no closing tags start
    inside the content. *)
Lemma matchAt_parts (s rest : str) (cap : option str) :
  matchAt codeBlockPattern s = Some (rest, cap) ->
  exists o c cl,
    s = o ++ c ++ cl ++ rest /\ cap = Some c /\
    stripPrefix true openTags o = Some [] /\
    stripPrefix true closeTags cl = Some [] /\
    everySuffix (fun t => stripPrefix true closeTags t = None) c (cl ++ rest).
Proof.
  rewrite matchAt_codeBlock.
  destruct (stripPrefix true openTags s) as [s'|] eqn:Eo; [|discriminate].
  destruct (stripPrefix_split _ _ _ _ Eo) as (o & -> & Ho & _).
  intros H. destruct (starLazy_stops _ _ _ H) as (c & s'' & -> & Hk & Hc).
  destruct (stripPrefix true closeTags s'') as [rest'|] eqn:Ec; [|discriminate].
  destruct (stripPrefix_split _ _ _ _ Ec) as (cl & -> & Hcl & _).
  injection Hk as <- <-.
  exists o, c, cl. rewrite firstn_consumed. repeat split; auto.
  eapply everySuffix_impl; [|exact Hc].
  intros t Ht. cbv beta in Ht.
  destruct (stripPrefix true closeTags t); [discriminate | reflexivity].
Qed.

Lemma closeTags_length (cl : str) :
  stripPrefix true closeTags cl = Some [] -> length cl = 13.
Proof.
  intros H. destruct (stripPrefix_split _ _ _ _ H) as (w & E & _ & Hl).
  rewrite app_nil_r in E. now subst w.
Qed.

Lemma openTags_length (o : str) :
  stripPrefix true openTags o = Some [] -> length o = 11.
Proof.
  intros H. destruct (stripPrefix_split _ _ _ _ H) as (w & E & _ & Hl).
  rewrite app_nil_r in E. now subst w.
Qed.

(** A match stays a match when the text goes on. *)
Lemma matchAt_extend (s rest y : str) (cap : option str) :
  matchAt codeBlockPattern s = Some (rest, cap) ->
  matchAt codeBlockPattern (s ++ y) = Some (rest ++ y, cap).
Proof.
  intros H.
  destruct (matchAt_parts _ _ _ H) as (o & c & cl & -> & -> & Ho & Hcl & Hc).
  rewrite matchAt_codeBlock. rewrite <- !app_assoc.
  rewrite (stripPrefix_app true _ o [] _ Ho). cbn [app].
  rewrite starLazy_skip.
  - rewrite starLazy_unfold.
    rewrite (stripPrefix_app true _ cl [] _ Hcl). cbn [app].
    now rewrite firstn_consumed.
  - apply everySuffix_impl
      with (P := fun t => stripPrefix true closeTags t = None).
    + intros t Ht. now rewrite Ht.
    + intros x1 c0 x2 E. specialize (Hc x1 c0 x2 E). cbv beta in *.
      replace (c0 :: x2 ++ cl ++ rest ++ y)
        with ((c0 :: x2 ++ cl ++ rest) ++ y)
        by (cbn [app]; now rewrite <- !app_assoc).
      apply stripPrefix_long; [exact Hc|].
      cbn [length]. rewrite !length_app, (closeTags_length _ Hcl).
      cbn. lia.
Qed.

(** Where a match is found later in the text, no opening tags stand at an
    earlier place: the lazy run from there would reach the closing tags of
    that match. *)
Lemma open_then_match (s o c cl rest x : str) :
  stripPrefix true openTags s <> None ->
  s = x ++ o ++ c ++ cl ++ rest ->
  x <> [] ->
  stripPrefix true openTags o = Some [] ->
  stripPrefix true closeTags cl = Some [] ->
  matchAt codeBlockPattern s <> None.
Proof.
  intros Hopen Hs Hx Ho Hcl.
  rewrite matchAt_codeBlock.
  destruct (stripPrefix true openTags s) as [s'|] eqn:E; [|contradiction].
  destruct (stripPrefix_split _ _ _ _ E) as (o0 & Es & _ & Hl0).
  assert (Hs' : s' = skipn 11 (x ++ o ++ c) ++ cl ++ rest).
  { transitivity (skipn 11 s).
    - change (length openTags) with 11 in Hl0.
      rewrite Es, skipn_app, Hl0, Nat.sub_diag.
      rewrite skipn_all2 by lia. reflexivity.
    - rewrite Hs.
      replace (x ++ o ++ c ++ cl ++ rest) with ((x ++ o ++ c) ++ cl ++ rest)
        by (now rewrite <- !app_assoc).
      rewrite skipn_app.
      replace (11 - length (x ++ o ++ c)) with 0; [reflexivity|].
      rewrite !length_app, (openTags_length _ Ho).
      destruct x; [contradiction | cbn [length]; lia]. }
  rewrite Hs'. apply starLazy_complete.
  now rewrite (stripPrefix_app true _ cl [] _ Hcl).
Qed.

(** The leftmost match of a text is the leftmost match of every longer
    text. *)
Lemma exec_extend (y : str) :
  forall s m,
    exec codeBlockPattern s = Some m ->
    exec codeBlockPattern (s ++ y) = Some (addAfter y m).
Proof.
  induction s as [|c s IH]; intros m H.
  - vm_compute in H. discriminate.
  - rewrite exec_cons in H. cbn [app]. rewrite exec_cons.
    change (c :: s ++ y) with ((c :: s) ++ y).
    destruct (matchAt codeBlockPattern (c :: s)) as [[rest cap]|] eqn:Em.
    + rewrite (matchAt_extend _ _ y _ Em). injection H as <-.
      unfold addAfter. cbn [before matched group1 after].
      change (c :: s ++ y) with ((c :: s) ++ y).
      now rewrite consumed_tail.
    + destruct (exec codeBlockPattern s) as [m'|] eqn:Ee; [|discriminate].
      injection H as <-.
      assert (Hno : matchAt codeBlockPattern ((c :: s) ++ y) = None).
      { apply codeBlock_no_open.
        destruct (exec_sound _ _ _ Ee) as (Hs & Hsem & _).
        destruct (codeBlock_sem _ _ _ Hsem)
          as (o & c1 & cl & Hm & Hg & Ho & Hcl).
        apply stripPrefix_long.
        - destruct (stripPrefix true openTags (c :: s)) as [s'|] eqn:Eo;
            [|reflexivity].
          exfalso.
          apply (open_then_match (c :: s) o c1 cl (after m') (c :: before m')).
          + now rewrite Eo.
          + rewrite Hs at 1. rewrite Hm. cbn [app].
            now rewrite <- !app_assoc.
          + discriminate.
          + exact Ho.
          + exact Hcl.
          + exact Em.
        - rewrite Hs, Hm. cbn [length]. rewrite !length_app.
          rewrite (openTags_length _ Ho). change (length openTags) with 11.
          lia. }
      rewrite Hno, (IH _ eq_refl). reflexivity.
Qed.

(** *** The text behind the last block *)

Lemma restAfterBlocks_fuel :
  forall n n' s,
    length s <= n -> length s <= n' ->
    restAfterBlocks n s = restAfterBlocks n' s.
Proof.
  induction n as [|n IH]; intros n' s Hn Hn'.
  - destruct s; [|cbn in Hn; lia]. destruct n'; reflexivity.
  - destruct n' as [|n'].
    + destruct s; [|cbn in Hn'; lia]. reflexivity.
    + cbn [restAfterBlocks].
      destruct (exec codeBlockPattern s) as [m|] eqn:E; [|reflexivity].
      destruct (exec_sound _ _ _ E) as (Hs & Hsem & _).
      destruct (codeBlock_sem _ _ _ Hsem) as (o & c & cl & Hm & _ & Ho & _).
      assert (length (after m) < length s).
      { rewrite Hs, Hm, !length_app, (openTags_length _ Ho). lia. }
      apply IH; lia.
Qed.

Lemma afterBlocks_none (s : str) :
  exec codeBlockPattern s = None -> afterBlocks s = s.
Proof.
  intros E. unfold afterBlocks. destruct (length s); cbn; now rewrite E.
Qed.

Lemma afterBlocks_step (s : str) (m : matchResult) :
  exec codeBlockPattern s = Some m -> afterBlocks s = afterBlocks (after m).
Proof.
  intros E. unfold afterBlocks.
  destruct (exec_sound _ _ _ E) as (Hs & Hsem & _).
  destruct (codeBlock_sem _ _ _ Hsem) as (o & c & cl & Hm & _ & Ho & _).
  assert (Hlt : length (after m) < length s).
  { rewrite Hs, Hm, !length_app, (openTags_length _ Ho). lia. }
  destruct (length s) as [|n] eqn:El; [lia|].
  cbn [restAfterBlocks]. rewrite E. apply restAfterBlocks_fuel; lia.
Qed.

Lemma leftOpen_false (s : str) :
  leftOpen s = false -> countOcc true openTags (afterBlocks s) = 0.
Proof.
  unfold leftOpen. intros H. apply negb_false_iff in H.
  now apply Nat.eqb_eq.
Qed.

(** When no opening tags can start behind the last block of [a], whatever
    [y] brings, the blocks of [a ++ y] are those of [a] and those of [y]. *)
Lemma render_split (y : str) :
  forall a,
    everySuffix (fun s => stripPrefix true openTags s = None)
      (afterBlocks a) y ->
    exists ra ry,
      renderHTMLCodeBlocks a = Some ra /\
      renderHTMLCodeBlocks y = Some ry /\
      renderHTMLCodeBlocks (a ++ y) = Some (ra ++ ry).
Proof.
  intros a. remember (length a) as n eqn:Hn. revert a Hn.
  induction n as [n IH] using lt_wf_ind. intros a -> Hopen.
  unfold renderHTMLCodeBlocks in *.
  destruct (exec codeBlockPattern a) as [m|] eqn:E.
  - destruct (exec_sound _ _ _ E) as (Hs & Hsem & _).
    destruct (codeBlock_sem _ _ _ Hsem) as (o & c & cl & Hm & Hg & Ho & Hcl).
    destruct (stripPrefix_nonempty _ _ _ _ Ho) as (c0 & o' & ->).
    rewrite (afterBlocks_step _ _ E) in Hopen.
    destruct (IH (length (after m))) with (a := after m)
      as (ra & ry & Hra & Hry & Hboth); [|reflexivity|exact Hopen|].
    { rewrite Hs, Hm, !length_app. cbn. lia. }
    exists ((before m ++ codeBlockReplacer (matched m) (group1 m)) ++ ra), ry.
    split; [|split; [exact Hry|]].
    + rewrite (replaceRegex_step _ _ _ _ c0 (o' ++ c ++ cl) E)
        by (rewrite Hm; reflexivity).
      now rewrite Hra.
    + rewrite (replaceRegex_step _ _ _ _ c0 (o' ++ c ++ cl)
                 (exec_extend y _ _ E))
        by (cbn; rewrite Hm; reflexivity).
      cbn [addAfter before matched group1 after]. rewrite Hboth.
      cbn [option_map]. now rewrite <- !app_assoc.
  - rewrite (afterBlocks_none _ E) in Hopen.
    destruct (replaceRegex_total codeBlockPattern codeBlockReplacer y)
      as (ry & Hry).
    exists a, ry. split; [now apply replaceRegex_none|]. split; [exact Hry|].
    rewrite replaceRegex_skip by now apply no_open_no_match.
    now rewrite Hry.
Qed.

(** *** A text without closing tags behind the input *)

Lemma countOcc_zero_suffix (ci : bool) (p : ascii) (pat : str) :
  forall s x1 x2,
    countOcc ci (p :: pat) s = 0 -> s = x1 ++ x2 ->
    stripPrefix ci (p :: pat) x2 = None.
Proof.
  intros s x1. revert s. induction x1 as [|c x1 IH]; intros s x2 Hc ->.
  - cbn [app] in Hc. destruct x2 as [|c x2]; [reflexivity|].
    rewrite countOcc_cons in Hc. unfold startsWith in Hc.
    destruct (stripPrefix ci (p :: pat) (c :: x2)); [lia | reflexivity].
  - cbn [app] in Hc. rewrite countOcc_cons in Hc.
    apply (IH (x1 ++ x2)); [lia | reflexivity].
Qed.

Section NoClose.

Variables (y0 : ascii) (y : str).
Hypothesis open_y0 : forallb (fun p => negb (cmp true p y0)) openTags = true.
Hypothesis close_y0 : forallb (fun p => negb (cmp true p y0)) closeTags = true.
Hypothesis no_close : countOcc true closeTags (y0 :: y) = 0.

Lemma matchAt_no_close (s : str) :
  matchAt codeBlockPattern (s ++ y0 :: y) =
  option_map (addTail (y0 :: y)) (matchAt codeBlockPattern s).
Proof.
  rewrite !matchAt_codeBlock.
  destruct (stripPrefix true openTags s) as [s'|] eqn:E.
  - rewrite (stripPrefix_app _ _ _ _ (y0 :: y) E).
    apply starLazy_tail.
    + intros u. destruct (stripPrefix true closeTags u) as [rest|] eqn:E'.
      * rewrite (stripPrefix_app _ _ _ _ (y0 :: y) E'). cbn [option_map].
        unfold addTail. cbn [fst snd]. now rewrite consumed_tail.
      * rewrite stripPrefix_none_ext; [reflexivity | exact close_y0 | exact E'].
    + apply starLazy_none. intros x1 x2 Hy.
      assert (Hz : stripPrefix true closeTags x2 = None).
      { apply (countOcc_zero_suffix true "<"%char (L "/code></pre>")
                 (y0 :: y) (y0 :: x1)); [exact no_close | now rewrite Hy]. }
      cbv beta. now rewrite Hz.
  - rewrite stripPrefix_none_ext; [reflexivity | exact open_y0 | exact E].
Qed.

Lemma exec_no_close (s : str) :
  exec codeBlockPattern (s ++ y0 :: y) =
  option_map (addAfter (y0 :: y)) (exec codeBlockPattern s).
Proof.
  induction s as [|c s IH].
  - cbn [app]. rewrite (exec_needs_literal closeTags); [reflexivity | reflexivity|].
    exact no_close.
  - change ((c :: s) ++ y0 :: y) with (c :: s ++ y0 :: y).
    rewrite !exec_cons.
    change (c :: s ++ y0 :: y) with ((c :: s) ++ y0 :: y).
    rewrite matchAt_no_close.
    destruct (matchAt codeBlockPattern (c :: s)) as [[rest cap]|];
      cbn [option_map].
    + unfold addAfter, addTail. cbn [fst snd before matched group1 after].
      now rewrite consumed_tail.
    + rewrite IH. now destruct (exec codeBlockPattern s).
Qed.

(** The blocks of a text that is followed by a text without closing tags
    are those of the text alone. *)
Lemma render_no_close (s : str) :
  renderHTMLCodeBlocks (s ++ y0 :: y) =
  option_map (fun t => t ++ y0 :: y) (renderHTMLCodeBlocks s).
Proof.
  remember (length s) as n eqn:Hn. revert s Hn.
  induction n as [n IH] using lt_wf_ind. intros s ->.
  unfold renderHTMLCodeBlocks in *.
  destruct (exec codeBlockPattern s) as [m|] eqn:E.
  - destruct (exec_sound _ _ _ E) as (Hs & Hsem & _).
    destruct (codeBlock_sem _ _ _ Hsem) as (o & c & cl & Hm & Hg & Ho & Hcl).
    destruct (stripPrefix_nonempty _ _ _ _ Ho) as (c0 & o' & ->).
    assert (E' : exec codeBlockPattern (s ++ y0 :: y) =
                 Some (addAfter (y0 :: y) m))
      by (now rewrite exec_no_close, E).
    rewrite (replaceRegex_step _ _ _ _ c0 (o' ++ c ++ cl) E')
      by (cbn; rewrite Hm; reflexivity).
    rewrite (replaceRegex_step _ _ _ _ c0 (o' ++ c ++ cl) E)
      by (rewrite Hm; reflexivity).
    cbn [addAfter before matched group1 after].
    rewrite (IH (length (after m))) with (s := after m); [|  | reflexivity].
    + destruct (replaceRegex codeBlockPattern codeBlockReplacer (after m));
        cbn [option_map]; [|reflexivity].
      now rewrite <- !app_assoc.
    + rewrite Hs, Hm, !length_app. cbn. lia.
  - rewrite !replaceRegex_none; [reflexivity | exact E |].
    now rewrite exec_no_close, E.
Qed.

End NoClose.

(** *** A text that ends with the closing tags *)

Lemma exec_none_at (r : regex) (x t : str) :
  exec r (x ++ t) = None -> matchAt r t = None.
Proof.
  induction x as [|c x IH]; cbn [app]; intros H.
  - destruct t as [|c t]; cbn [exec] in H;
      destruct (matchAt r _) as [[rest cap]|]; [discriminate | reflexivity
                                               | discriminate | reflexivity].
  - rewrite exec_cons in H.
    destruct (matchAt r (c :: x ++ t)) as [[rest cap]|]; [discriminate|].
    destruct (exec r (x ++ t)); [discriminate|]. now apply IH.
Qed.

(** Behind the closing tags no block is left open. *)
Lemma afterBlocks_closed (b : str) :
  forall x,
    everySuffix (fun s => stripPrefix true openTags s = None)
      (afterBlocks (x ++ closeTags)) b.
Proof.
  intros x. remember (length x) as n eqn:Hn. revert x Hn.
  induction n as [n IH] using lt_wf_ind. intros x ->.
  assert (Hcl : everySuffix (fun s => stripPrefix true openTags s = None)
                  closeTags b)
    by (apply noStartB_sound; reflexivity).
  destruct (exec codeBlockPattern (x ++ closeTags)) as [m|] eqn:E.
  - rewrite (afterBlocks_step _ _ E).
    destruct (exec_sound _ _ _ E) as (Hs & Hsem & _).
    destruct (codeBlock_sem _ _ _ Hsem) as (o & c & cl & Hm & _ & Ho & _).
    rewrite app_assoc in Hs. apply app_eq_app in Hs.
    destruct Hs as (l & [[Hx Ha]|[Hx Ha]]).
    + rewrite Ha. apply (IH (length l)); [|reflexivity].
      rewrite Hx, Hm, !length_app, (openTags_length _ Ho). lia.
    + assert (He : exec codeBlockPattern (after m) = None).
      { apply (exec_needs_literal openTags); [reflexivity|].
        pose proof (countOcc_app_le true openTags l (after m)) as Hle.
        rewrite <- Ha in Hle.
        change (countOcc true openTags closeTags) with 0 in Hle. lia. }
      rewrite (afterBlocks_none _ He).
      intros x1 c0 x2 E1. apply (Hcl (l ++ x1) c0 x2).
      rewrite Ha, E1. now rewrite <- app_assoc.
  - rewrite (afterBlocks_none _ E).
    apply everySuffix_app; [|exact Hcl].
    intros x1 c0 x2 E1. cbv beta.
    change (c0 :: x2 ++ closeTags ++ b)
      with ((c0 :: x2) ++ "<"%char :: "/"%char :: L "code></pre>" ++ b).
    apply no_open_across; [discriminate | | reflexivity].
    destruct (startsWith true openTags (c0 :: x2)) eqn:Sv; [|reflexivity].
    exfalso. unfold startsWith in Sv.
    destruct (stripPrefix true openTags (c0 :: x2)) as [s'|] eqn:Eo;
      [|discriminate].
    rewrite E1, <- app_assoc in E. apply exec_none_at in E.
    rewrite matchAt_codeBlock in E.
    rewrite (stripPrefix_app _ _ _ _ closeTags Eo) in E.
    revert E. apply starLazy_complete. discriminate.
Qed.

(** *** Blocks without preview *)

Lemma blockContents_fuel :
  forall n n' s,
    length s <= n -> length s <= n' ->
    blockContents n s = blockContents n' s.
Proof.
  induction n as [|n IH]; intros n' s Hn Hn'.
  - destruct s; [|cbn in Hn; lia]. destruct n'; reflexivity.
  - destruct n' as [|n'].
    + destruct s; [|cbn in Hn'; lia]. reflexivity.
    + cbn [blockContents].
      destruct (exec codeBlockPattern s) as [m|] eqn:E; [|reflexivity].
      destruct (exec_sound _ _ _ E) as (Hs & Hsem & _).
      destruct (codeBlock_sem _ _ _ Hsem) as (o & c & cl & Hm & _ & Ho & _).
      assert (length (after m) < length s).
      { rewrite Hs, Hm, !length_app, (openTags_length _ Ho). lia. }
      f_equal. apply IH; lia.
Qed.

Lemma blocksIn_step (s : str) (m : matchResult) :
  exec codeBlockPattern s = Some m ->
  blocksIn s = groupText (group1 m) :: blocksIn (after m).
Proof.
  intros E. unfold blocksIn.
  destruct (exec_sound _ _ _ E) as (Hs & Hsem & _).
  destruct (codeBlock_sem _ _ _ Hsem) as (o & c & cl & Hm & _ & Ho & _).
  assert (Hlt : length (after m) < length s).
  { rewrite Hs, Hm, !length_app, (openTags_length _ Ho). lia. }
  destruct (length s) as [|n] eqn:El; [lia|].
  cbn [blockContents]. rewrite E. f_equal. apply blockContents_fuel; lia.
Qed.

(** A text none of whose blocks gets a preview is returned as it is. *)
Lemma render_quiet :
  forall s, quiet s = true -> renderHTMLCodeBlocks s = Some s.
Proof.
  intros s. remember (length s) as n eqn:Hn. revert s Hn.
  induction n as [n IH] using lt_wf_ind. intros s -> Hq.
  unfold renderHTMLCodeBlocks in *.
  destruct (exec codeBlockPattern s) as [m|] eqn:E;
    [|now apply replaceRegex_none].
  destruct (exec_sound _ _ _ E) as (Hs & Hsem & _).
  destruct (codeBlock_sem _ _ _ Hsem) as (o & c & cl & Hm & Hg & Ho & Hcl).
  destruct (stripPrefix_nonempty _ _ _ _ Ho) as (c0 & o' & ->).
  unfold quiet in Hq. rewrite (blocksIn_step _ _ E) in Hq.
  cbn [forallb] in Hq. apply andb_true_iff in Hq. destruct Hq as [Hc Hrest].
  rewrite (replaceRegex_step _ _ _ _ c0 (o' ++ c ++ cl) E)
    by (rewrite Hm; reflexivity).
  rewrite (IH (length (after m))) with (s := after m);
    [| |reflexivity|exact Hrest].
  - cbn [option_map]. f_equal.
    unfold codeBlockReplacer. unfold looksLikeHTML in Hc.
    apply negb_true_iff in Hc. rewrite Hg in Hc |- *.
    cbn [groupText] in Hc |- *. rewrite Hc.
    rewrite <- app_assoc. symmetry. exact Hs.
  - rewrite Hs, Hm, !length_app. cbn. lia.
Qed.

End ScanFacts.

(** ** Code blocks with attributes *)

Module AttributedBlocks.
Import StringFacts RegexFacts StyleFacts Converter ProcessFacts ShellFacts.
Import RenderFacts AttributeFacts CountFacts ScanFacts.

(** That an attributed block is never given a preview fails where a block
    with the literal tags overlaps it.  Behind an attribute-free [<pre><code>] that was not
    closed, the closing tags of the attributed block end that block, and a
    preview of everything in between follows the attributed block; the same
    happens when attribute-free tags in its content open a block that gets a
    preview. *)
Lemma attributed_block_previewed :
  renderHTMLCodeBlocks openBeforeAttributed =
    Some (openBeforeAttributed ++
          preview (L "x<pre class=x><code><b>hi</b>")) /\
  renderHTMLCodeBlocks plainInsideAttributed =
    Some (plainInsideAttributed ++ preview (L "<b>hi</b>")).
Proof. split; vm_compute; reflexivity. Qed.

(** No code block opens inside the tags of a block with an attribute,
    whatever follows them. *)
Lemma attributed_tags_no_open (attrs1 attrs2 rest : str) :
  attrs1 ++ attrs2 <> [] ->
  forallb noAngle (attrs1 ++ attrs2) = true ->
  everySuffix (fun s => stripPrefix true openTags s = None)
    (L "<pre" ++ attrs1 ++ L "><code" ++ attrs2 ++ L ">") rest.
Proof.
  intros Hne Hattr.
  pose proof Hattr as Hattr'.
  rewrite forallb_app in Hattr'. apply andb_true_iff in Hattr'.
  destruct Hattr' as [H1 H2].
  change (L "<pre" ++ attrs1 ++ L "><code" ++ attrs2 ++ L ">")
    with (L "<" ++ L "pre" ++ attrs1 ++ L "><code" ++ attrs2 ++ L ">").
  apply everySuffix_app.
  { apply everySuffix_cons; [|apply everySuffix_nil].
    rewrite <- !app_assoc.
    exact (attributed_open_fails attrs1 attrs2 rest Hne Hattr). }
  apply everySuffix_app; [apply everySuffix_first; reflexivity|].
  apply everySuffix_app; [apply everySuffix_first, noAngle_first, H1|].
  apply everySuffix_app; [apply noStartB_sound; reflexivity|].
  apply everySuffix_app; [apply everySuffix_first, noAngle_first, H2|].
  apply noStartB_sound. reflexivity.
Qed.

(** C10 (as amended): a code block whose [pre] or [code] tag carries an
    attribute (a text without [<] and [>]) never starts a match, whatever
    its content and whatever follows it.  When no block with the literal
    tags reaches over it, that is when no attribute-free [<pre><code>] is
    left open in front of it and no block with the literal tags inside its
    content gets a preview, the attributed block is returned as it is, with
    no preview after it: the output is the output for the text in front,
    the block, and the output for the text behind. *)
Theorem attributed_block_alone (a attrs1 attrs2 c b : str) :
  attrs1 ++ attrs2 <> [] ->
  forallb noAngle (attrs1 ++ attrs2) = true ->
  matchAt codeBlockPattern (attributedBlock attrs1 attrs2 c ++ b) = None /\
  (leftOpen a = false ->
   quiet (c ++ closeTags) = true ->
   exists ra rb,
     renderHTMLCodeBlocks a = Some ra /\
     renderHTMLCodeBlocks b = Some rb /\
     renderHTMLCodeBlocks (a ++ attributedBlock attrs1 attrs2 c ++ b) =
       Some (ra ++ attributedBlock attrs1 attrs2 c ++ rb)).
Proof.
  intros Hne Hattr. split.
  - apply codeBlock_no_open. unfold attributedBlock.
    replace ((L "<pre" ++ attrs1 ++ L "><code" ++ attrs2 ++ L ">" ++ c ++ closeTags) ++ b)
      with (L "<pre" ++ attrs1 ++ L "><code" ++ attrs2 ++ L ">" ++ (c ++ closeTags ++ b))
      by (now rewrite <- !app_assoc).
    now apply attributed_open_fails.
  - intros Ha Hc. apply leftOpen_false in Ha.
    destruct (render_split (attributedBlock attrs1 attrs2 c ++ b) a)
      as (ra & ry & Hra & Hry & Hboth).
    { unfold attributedBlock at 1.
      change ((L "<pre" ++ attrs1 ++ L "><code" ++ attrs2 ++ L ">" ++ c ++ closeTags) ++ b)
        with ("<"%char :: "p"%char ::
              (L "re" ++ attrs1 ++ L "><code" ++ attrs2 ++ L ">" ++ c ++ closeTags) ++ b).
      now apply noOpen_everySuffix. }
    destruct (render_split b (c ++ closeTags) (afterBlocks_closed b c))
      as (rc & rb & Hrc & Hrb & Hcb).
    rewrite (render_quiet _ Hc) in Hrc.
    assert (Erc : rc = c ++ closeTags) by congruence.
    exists ra, rb. split; [exact Hra|]. split; [exact Hrb|].
    rewrite Hboth. f_equal. f_equal.
    assert (Ery : renderHTMLCodeBlocks (attributedBlock attrs1 attrs2 c ++ b) =
                  Some (attributedBlock attrs1 attrs2 c ++ rb)).
    { unfold attributedBlock.
      replace ((L "<pre" ++ attrs1 ++ L "><code" ++ attrs2 ++ L ">" ++ c ++ closeTags) ++ b)
        with ((L "<pre" ++ attrs1 ++ L "><code" ++ attrs2 ++ L ">") ++
              (c ++ closeTags) ++ b)
        by (now rewrite <- !app_assoc).
      unfold renderHTMLCodeBlocks in *.
      rewrite replaceRegex_skip
        by (apply no_open_no_match; now apply attributed_tags_no_open).
      rewrite Hcb, Erc. cbn [option_map]. now rewrite <- !app_assoc. }
    congruence.
Qed.

(** An attributed block between two blocks with the literal tags. *)
Lemma attributed_block_alone_witness :
  matchAt codeBlockPattern (attributedExample ++ rawCodeBlock) = None /\
  exists ra rb,
    renderHTMLCodeBlocks rawCodeBlock = Some ra /\
    renderHTMLCodeBlocks rawCodeBlock = Some rb /\
    renderHTMLCodeBlocks (rawCodeBlock ++ attributedExample ++ rawCodeBlock) =
      Some (ra ++ attributedExample ++ rb).
Proof.
  destruct (attributed_block_alone rawCodeBlock (L " class=x") []
              (L "<b>hi</b>") rawCodeBlock) as [H1 H2].
  - discriminate.
  - reflexivity.
  - split; [exact H1|]. apply H2; vm_compute; reflexivity.
Defined.

End AttributedBlocks.

(** ** Counting a text between two tags *)

Module BracketFacts.
Import StringFacts RegexFacts StyleFacts Converter ProcessFacts ShellFacts.
Import RenderFacts AttributeFacts CountFacts ScanFacts.

Lemma stripPrefix_self (pat : str) : stripPrefix false pat pat = Some [].
Proof.
  pose proof (stripPrefix_refl pat []) as H. now rewrite app_nil_r in H.
Qed.

Lemma noAngle_In_lt (s : str) :
  forallb noAngle s = true -> ~ In "<"%char s.
Proof.
  intros H Hin. rewrite forallb_forall in H. specialize (H _ Hin).
  discriminate H.
Qed.

Lemma noAngle_In_gt (s : str) :
  forallb noAngle s = true -> ~ In ">"%char s.
Proof.
  intros H Hin. rewrite forallb_forall in H. specialize (H _ Hin).
  discriminate H.
Qed.

(** An occurrence that starts inside [x] and ends inside [y]. *)
Lemma crossing (pat x y r : str) :
  stripPrefix false pat x = None ->
  stripPrefix false pat (x ++ y) = Some r ->
  exists l0 l, pat = x ++ l0 :: l /\ y = (l0 :: l) ++ r.
Proof.
  intros E1 E2. apply stripPrefix_exact in E2.
  apply app_eq_app in E2. destruct E2 as (l & [[Hx Hr]|[Hp Hy]]).
  - rewrite Hx, stripPrefix_refl in E1. discriminate.
  - destruct l as [|l0 l].
    + rewrite app_nil_r in Hp. subst x. rewrite stripPrefix_self in E1.
      discriminate.
    + eauto.
Qed.

Section Bracket.

Variable inner : str.
Hypothesis inner_noAngle : forallb noAngle inner = true.

Let pat : str := styleOpen ++ inner ++ styleClose.

Lemma pat_cons : pat = "<"%char :: L "style>" ++ inner ++ styleClose.
Proof. reflexivity. Qed.

(** The only [<] behind the first character stands at the closing tag. *)
Lemma tail_from_lt (x l : str) :
  x <> [] -> pat = x ++ "<"%char :: l -> "<"%char :: l = styleClose.
Proof.
  intros Hx H. unfold pat in H. rewrite app_assoc in H.
  apply app_eq_app in H. destruct H as (l2 & [[H1 H2]|[H1 H2]]).
  - destruct l2 as [|c2 l2]; [exact H2|].
    exfalso. injection H2 as <- _.
    destruct x as [|x0 x]; [contradiction|].
    cbn in H1. injection H1 as _ H1.
    assert (Hin : In "<"%char (x ++ "<"%char :: l2))
      by (apply in_or_app; right; now left).
    rewrite <- H1 in Hin.
    do 6 (destruct Hin as [Hin|Hin]; [discriminate Hin|]).
    exact (noAngle_In_lt _ inner_noAngle Hin).
  - destruct l2 as [|c2 l2]; [symmetry; exact H2|].
    exfalso. cbn in H2. injection H2 as _ H2.
    assert (Hin : In "<"%char (l2 ++ "<"%char :: l))
      by (apply in_or_app; right; now left).
    rewrite <- H2 in Hin.
    do 7 (destruct Hin as [Hin|Hin]; [discriminate Hin|]).
    exact Hin.
Qed.

(** A text that does not go on with the closing tag takes no part in an
    occurrence that starts in front of it. *)
Lemma startsWith_before_lt (c : ascii) (v y : str) :
  stripPrefix false styleClose ("<"%char :: y) = None ->
  startsWith false pat ((c :: v) ++ "<"%char :: y) =
  startsWith false pat (c :: v).
Proof.
  intros Hy. unfold startsWith.
  destruct (stripPrefix false pat (c :: v)) as [r|] eqn:E1.
  - now rewrite (stripPrefix_app _ _ _ _ _ E1).
  - destruct (stripPrefix false pat ((c :: v) ++ "<"%char :: y)) as [r|] eqn:E2;
      [|reflexivity].
    exfalso. destruct (crossing _ _ _ _ E1 E2) as (l0 & l & Hp & Hl).
    injection Hl as <- Hl.
    assert (Hc : "<"%char :: l = styleClose)
      by (apply (tail_from_lt (c :: v)); [discriminate | exact Hp]).
    rewrite Hl in Hy.
    change ("<"%char :: l ++ r) with (("<"%char :: l) ++ r) in Hy.
    rewrite Hc, stripPrefix_refl in Hy. discriminate.
Qed.

Lemma countOcc_before_lt (x y : str) :
  stripPrefix false styleClose ("<"%char :: y) = None ->
  countOcc false pat (x ++ "<"%char :: y) =
  countOcc false pat x + countOcc false pat ("<"%char :: y).
Proof.
  intros Hy. induction x as [|c v IH].
  - rewrite pat_cons, countOcc_nil. reflexivity.
  - change ((c :: v) ++ "<"%char :: y) with (c :: v ++ "<"%char :: y).
    rewrite (countOcc_cons _ _ c (v ++ "<"%char :: y)), (countOcc_cons _ _ c v).
    change (c :: v ++ "<"%char :: y) with ((c :: v) ++ "<"%char :: y).
    rewrite startsWith_before_lt by exact Hy. rewrite IH. lia.
Qed.

(** The only [>] in front of the last character ends the opening tag. *)
Lemma head_to_gt (x l : str) :
  l <> [] -> pat = (x ++ [">"%char]) ++ l -> x ++ [">"%char] = styleOpen.
Proof.
  intros Hl H. unfold pat in H.
  apply app_eq_app in H. destruct H as (l2 & [[H1 H2]|[H1 H2]]).
  - (* the tag goes on behind [x] *)
    destruct l2 as [|c2 l2]; [now rewrite app_nil_r in H1|].
    exfalso.
    assert (Hin : In ">"%char (removelast styleOpen)).
    { rewrite H1.
      replace ((x ++ [">"%char]) ++ c2 :: l2)
        with (x ++ ">"%char :: c2 :: l2) by (now rewrite <- app_assoc).
      rewrite removelast_app by discriminate.
      apply in_or_app. right.
      change (removelast (">"%char :: c2 :: l2))
        with (">"%char :: removelast (c2 :: l2)). now left. }
    cbn in Hin. intuition congruence.
  - destruct l2 as [|c2 l2]; [now rewrite app_nil_r in H1|].
    exfalso.
    (* [l2] ends with [>] and is a proper prefix of [inner ++ </style>] *)
    destruct (exists_last (l := c2 :: l2)) as (l2' & z & Hz); [discriminate|].
    rewrite Hz in H1, H2. rewrite app_assoc in H1.
    apply app_inj_tail in H1. destruct H1 as [_ <-].
    destruct (exists_last Hl) as (l' & z' & ->).
    change styleClose with (L "</style" ++ [">"%char]) in H2.
    rewrite !app_assoc in H2. apply app_inj_tail in H2.
    destruct H2 as [H2 _].
    assert (Hin : In ">"%char (inner ++ L "</style")).
    { rewrite H2. apply in_or_app. left.
      apply in_or_app. right. now left. }
    apply in_app_or in Hin. destruct Hin as [Hin|Hin].
    + exact (noAngle_In_gt _ inner_noAngle Hin).
    + cbn in Hin. intuition congruence.
Qed.

(** A text whose last three characters are not those of the opening tag
    takes no part in an occurrence that goes on behind it. *)
Lemma startsWith_after_gt (c c3 c2 : ascii) (v y : str) :
  c3 <> "l"%char ->
  startsWith false pat ((c :: v ++ [c3; c2; ">"%char]) ++ y) =
  startsWith false pat (c :: v ++ [c3; c2; ">"%char]).
Proof.
  intros H3. unfold startsWith.
  destruct (stripPrefix false pat (c :: v ++ [c3; c2; ">"%char])) as [r|] eqn:E1.
  - now rewrite (stripPrefix_app _ _ _ _ _ E1).
  - destruct (stripPrefix false pat ((c :: v ++ [c3; c2; ">"%char]) ++ y))
      as [r|] eqn:E2; [|reflexivity].
    exfalso. destruct (crossing _ _ _ _ E1 E2) as (l0 & l & Hp & Hl).
    assert (Ho : ((c :: v) ++ [c3; c2]) ++ [">"%char] = styleOpen).
    { apply (head_to_gt _ (l0 :: l)); [discriminate|].
      rewrite Hp. cbn [app]. now rewrite <- !app_assoc. }
    change styleOpen with ((L "<sty" ++ ["l"%char; "e"%char]) ++ [">"%char]) in Ho.
    apply app_inj_tail in Ho. destruct Ho as [Ho _].
    change ((c :: v) ++ [c3; c2]) with (c :: v ++ [c3; c2]) in Ho.
    replace (c :: v ++ [c3; c2]) with ((c :: v ++ [c3]) ++ [c2]) in Ho
      by (cbn [app]; now rewrite <- app_assoc).
    change (L "<sty" ++ ["l"%char; "e"%char])
      with ((L "<sty" ++ ["l"%char]) ++ ["e"%char]) in Ho.
    apply app_inj_tail in Ho. destruct Ho as [Ho _].
    change (c :: v ++ [c3]) with ((c :: v) ++ [c3]) in Ho.
    apply app_inj_tail in Ho. destruct Ho as [_ Ho]. contradiction.
Qed.

Lemma short_end (c3 c2 : ascii) (y : str) :
  countOcc false pat ([c3; c2; ">"%char] ++ y) = countOcc false pat y.
Proof.
  apply countOcc_skip. apply (everySuffix_impl
    (fun s => stripPrefix false styleOpen s = None)).
  - intros s Hs. unfold pat. now rewrite stripPrefix_cat, Hs.
  - intros x1 c0 x2 E. cbv beta.
    destruct x1 as [|a1 [|a2 [|a3 x1]]]; cbn in E.
    + injection E as <- <-. unfold styleOpen.
      cbn [L list_ascii_of_string stripPrefix cmp app].
      destruct (Ascii.eqb "<" c3); [|reflexivity].
      destruct (Ascii.eqb "s" c2); reflexivity.
    + injection E as _ <- <-. unfold styleOpen.
      cbn [L list_ascii_of_string stripPrefix cmp app].
      destruct (Ascii.eqb "<" c2); reflexivity.
    + injection E as _ _ <- <-. reflexivity.
    + injection E as _ _ _ E. destruct x1; discriminate.
Qed.

Lemma countOcc_after_gt (x y : str) (c3 c2 : ascii) :
  c3 <> "l"%char ->
  countOcc false pat ((x ++ [c3; c2; ">"%char]) ++ y) =
  countOcc false pat (x ++ [c3; c2; ">"%char]) + countOcc false pat y.
Proof.
  intros H3. induction x as [|c v IH].
  - change (([] ++ [c3; c2; ">"%char]) ++ y) with ([c3; c2; ">"%char] ++ y).
    change ([] ++ [c3; c2; ">"%char]) with [c3; c2; ">"%char].
    rewrite (short_end c3 c2 y).
    pose proof (short_end c3 c2 []) as H0. rewrite app_nil_r in H0.
    rewrite H0, pat_cons, countOcc_nil. reflexivity.
  - change (((c :: v) ++ [c3; c2; ">"%char]) ++ y)
      with (c :: (v ++ [c3; c2; ">"%char]) ++ y).
    change ((c :: v) ++ [c3; c2; ">"%char]) with (c :: v ++ [c3; c2; ">"%char]).
    rewrite (countOcc_cons _ _ c ((v ++ [c3; c2; ">"%char]) ++ y)),
      (countOcc_cons _ _ c (v ++ [c3; c2; ">"%char])).
    change (c :: (v ++ [c3; c2; ">"%char]) ++ y)
      with ((c :: v ++ [c3; c2; ">"%char]) ++ y).
    rewrite startsWith_after_gt by exact H3. rewrite IH. lia.
Qed.

(** No occurrence ends in a text without [>]. *)
Lemma startsWith_no_gt (c : ascii) (v t : str) :
  ~ In ">"%char t ->
  startsWith false pat ((c :: v) ++ t) = startsWith false pat (c :: v).
Proof.
  intros Ht. unfold startsWith.
  destruct (stripPrefix false pat (c :: v)) as [r|] eqn:E1.
  - now rewrite (stripPrefix_app _ _ _ _ _ E1).
  - destruct (stripPrefix false pat ((c :: v) ++ t)) as [r|] eqn:E2;
      [|reflexivity].
    exfalso. destruct (crossing _ _ _ _ E1 E2) as (l0 & l & Hp & Hl).
    apply Ht. rewrite Hl.
    destruct (exists_last (l := l0 :: l)) as (l' & z & Hz); [discriminate|].
    rewrite Hz in Hp |- *. unfold pat in Hp.
    change styleClose with (L "</style" ++ [">"%char]) in Hp.
    rewrite !app_assoc in Hp. apply app_inj_tail in Hp.
    destruct Hp as [_ <-].
    apply in_or_app. left. apply in_or_app. right. now left.
Qed.

Lemma no_gt_no_occurrence (t : str) :
  ~ In ">"%char t -> countOcc false pat t = 0.
Proof.
  induction t as [|c t IH]; intros Ht.
  - rewrite pat_cons. apply countOcc_nil.
  - rewrite countOcc_cons, IH by (intros H; apply Ht; now right).
    unfold startsWith.
    destruct (stripPrefix false pat (c :: t)) as [r|] eqn:E; [|reflexivity].
    exfalso. apply Ht. apply stripPrefix_exact in E. rewrite E.
    apply in_or_app. left. unfold pat. apply in_or_app. right.
    apply in_or_app. right. cbn. intuition.
Qed.

Lemma countOcc_no_gt (x t : str) :
  ~ In ">"%char t ->
  countOcc false pat (x ++ t) = countOcc false pat x.
Proof.
  intros Ht. induction x as [|c v IH].
  - cbn [app]. rewrite (no_gt_no_occurrence t Ht), pat_cons, countOcc_nil.
    reflexivity.
  - change ((c :: v) ++ t) with (c :: v ++ t). rewrite !countOcc_cons.
    change (c :: v ++ t) with ((c :: v) ++ t).
    rewrite startsWith_no_gt by exact Ht. now rewrite IH.
Qed.

(** The element holds itself once. *)
Lemma countOcc_self (y : str) :
  countOcc false pat (pat ++ y) = 1 + countOcc false pat y.
Proof.
  rewrite pat_cons at 2. rewrite pat_cons at 1. rewrite countOcc_here.
  rewrite <- pat_cons. f_equal.
  apply countOcc_skip.
  apply (everySuffix_impl (fun s => stripPrefix false styleOpen s = None)).
  { intros s Hs. unfold pat. now rewrite stripPrefix_cat, Hs. }
  apply everySuffix_app; [apply everySuffix_first; reflexivity|].
  apply everySuffix_app; [|apply noStartB_sound; reflexivity].
  apply everySuffix_first. apply (forallb_impl noAngle); [|exact inner_noAngle].
  intros a Ha. unfold cmp. rewrite <- eqci_lt. apply negb_true_iff.
  exact (noAngle_lt a Ha).
Qed.

End Bracket.

End BracketFacts.

(** ** Exactly one generated style element *)

Module StyleExactlyOnce.
Import StringFacts RegexFacts StyleFacts Converter ProcessFacts ShellFacts.
Import RenderFacts AttributeFacts CountFacts StyleCount ScanFacts BracketFacts.

(** *** The shape of the element *)

Lemma generateCSS_block (cfg : config) :
  generateCSS cfg = indent ++ styleBlock cfg.
Proof. reflexivity. Qed.

Lemma styleBlock_shape (cfg : config) :
  styleBlock cfg = styleOpen ++ styleInner cfg ++ styleClose.
Proof.
  assert (H0 : skipn 5 cssPart0 = styleOpen ++ skipn 12 cssPart0)
    by (vm_compute; reflexivity).
  assert (H6 : cssPart6 = firstn 348 cssPart6 ++ styleClose)
    by (vm_compute; reflexivity).
  unfold styleBlock, generateCSS.
  rewrite skipn_app. change (length cssPart0) with 176.
  change (5 - 176) with 0. cbn [skipn]. rewrite H0, H6 at 1.
  unfold styleInner. now rewrite <- !app_assoc.
Qed.

Lemma digit_noAngle (c : ascii) : isDigit c = true -> noAngle c = true.
Proof.
  intros H. apply digit_cases in H. cbn in H.
  repeat (destruct H as [<-|H]; [reflexivity|]). contradiction.
Qed.

Lemma styleInner_noAngle (cfg : config) :
  forallb noAngle (styleInner cfg) = true.
Proof.
  assert (Hd : forallb noAngle (numberToString (margin cfg)) = true).
  { apply (forallb_impl isDigit); [apply digit_noAngle|].
    apply numberToString_digits. }
  assert (Hf : forallb noAngle (fontFamily cfg) = true)
    by (unfold fontFamily; destruct (includeFonts cfg); vm_compute; reflexivity).
  assert (Hi : forallb noAngle
                 (if includeFonts cfg then cssImport else []) = true)
    by (destruct (includeFonts cfg); vm_compute; reflexivity).
  unfold styleInner. rewrite !forallb_app, Hd, Hf, Hi.
  vm_compute. reflexivity.
Qed.

(** *** Counting the element *)

Section Count.

Variable cfg : config.

Let inner := styleInner cfg.
Let free := styleInner_noAngle cfg.

(** A text in which the opening tag cannot start holds no element. *)
Lemma concrete_free (t : str) :
  noStartB false styleOpen t = true -> countOcc false (styleBlock cfg) t = 0.
Proof.
  intros H. rewrite styleBlock_shape.
  rewrite <- (app_nil_r t). rewrite countOcc_skip.
  - change (styleOpen ++ styleInner cfg ++ styleClose)
      with ("<"%char :: L "style>" ++ styleInner cfg ++ styleClose).
    apply countOcc_nil.
  - apply (everySuffix_impl (fun s => stripPrefix false styleOpen s = None)).
    + intros s Hs. now rewrite stripPrefix_cat, Hs.
    + now apply noStartB_sound.
Qed.

Lemma skip_concrete (t y : str) :
  noStartB false styleOpen t = true ->
  countOcc false (styleBlock cfg) (t ++ y) = countOcc false (styleBlock cfg) y.
Proof.
  intros H. rewrite styleBlock_shape. apply countOcc_skip.
  apply (everySuffix_impl (fun s => stripPrefix false styleOpen s = None)).
  - intros s Hs. now rewrite stripPrefix_cat, Hs.
  - now apply noStartB_sound.
Qed.

Lemma closeTags_last3 (cl : str) :
  stripPrefix true closeTags cl = Some [] ->
  exists cl0 r e, cl = cl0 ++ [r; e; ">"%char] /\ r <> "l"%char.
Proof.
  change closeTags with (L "</code></p" ++ L "re>").
  rewrite stripPrefix_cat.
  destruct (stripPrefix true (L "</code></p") cl) as [t|] eqn:E;
    [|discriminate].
  destruct (stripPrefix_split _ _ _ _ E) as (w & -> & _ & _).
  intros H.
  destruct t as [|r [|e [|g t]]]; cbn [stripPrefix L list_ascii_of_string] in H.
  - discriminate H.
  - destruct (cmp true "r" r); discriminate H.
  - destruct (cmp true "r" r); [|discriminate H].
    destruct (cmp true "e" e); discriminate H.
  - destruct (cmp true "r" r) eqn:Er; [|discriminate H].
    destruct (cmp true "e" e); [|discriminate H].
    unfold cmp in H. rewrite eqci_gt in H.
    destruct (Ascii.eqb_spec ">" g) as [<-|]; [|discriminate H].
    injection H as ->.
    exists w, r, e. split; [reflexivity|].
    intros ->. discriminate Er.
Qed.

(** The previews bring no element that the input did not hold. *)
Lemma render_keeps_free :
  forall s out,
    countOcc false (styleBlock cfg) s = 0 ->
    renderHTMLCodeBlocks s = Some out ->
    countOcc false (styleBlock cfg) out = 0.
Proof.
  intros s. remember (length s) as n eqn:Hn. revert s Hn.
  induction n as [n IH] using lt_wf_ind. intros s -> out Hfree Hout.
  unfold renderHTMLCodeBlocks in *.
  destruct (exec codeBlockPattern s) as [m|] eqn:E.
  - destruct (exec_sound _ _ _ E) as (Hs & Hsem & _).
    destruct (codeBlock_sem _ _ _ Hsem) as (o & c & cl & Hm & Hg & Ho & Hcl).
    destruct (stripPrefix_nonempty _ _ _ _ Ho) as (c0 & o' & ->).
    destruct (closeTags_last3 _ Hcl) as (cl0 & r & e & -> & Hr).
    rewrite (replaceRegex_step _ _ _ _ c0
               (o' ++ c ++ cl0 ++ [r; e; ">"%char]) E)
      in Hout by (rewrite Hm; reflexivity).
    destruct (replaceRegex codeBlockPattern codeBlockReplacer (after m))
      as [out'|] eqn:E'; [|discriminate Hout].
    cbn [option_map] in Hout. injection Hout as <-.
    rewrite Hm in Hs.
    assert (Hafter : countOcc false (styleBlock cfg) (after m) = 0).
    { pose proof (countOcc_app_le false (styleBlock cfg)
                    (before m ++ (c0 :: o') ++ c ++ cl0 ++ [r; e; ">"%char])
                    (after m)) as Hle.
      rewrite <- !app_assoc in Hle. rewrite <- !app_assoc in Hs.
      rewrite <- Hs in Hle. lia. }
    assert (Hout' : countOcc false (styleBlock cfg) out' = 0).
    { apply (IH (length (after m))) with (s := after m); auto.
      rewrite Hs, !length_app. cbn. lia. }
    rewrite styleBlock_shape in *.
    assert (Hx : countOcc false (styleOpen ++ styleInner cfg ++ styleClose)
                   ((before m ++ (c0 :: o') ++ c ++ cl0) ++
                    [r; e; ">"%char]) = 0).
    { pose proof (countOcc_app_le_l false "<"%char
                    (L "style>" ++ styleInner cfg ++ styleClose)
                    ((before m ++ (c0 :: o') ++ c ++ cl0) ++ [r; e; ">"%char])
                    (after m)) as Hle.
      change ("<"%char :: L "style>" ++ styleInner cfg ++ styleClose)
        with (styleOpen ++ styleInner cfg ++ styleClose) in Hle.
      rewrite <- !app_assoc in Hle. rewrite <- !app_assoc in Hs.
      rewrite <- Hs in Hle. rewrite <- !app_assoc. lia. }
    assert (Hc : countOcc false (styleOpen ++ styleInner cfg ++ styleClose) c = 0).
    { pose proof (countOcc_app_le_l false "<"%char
                    (L "style>" ++ styleInner cfg ++ styleClose) c
                    (cl0 ++ [r; e; ">"%char] ++ after m)) as H1.
      pose proof (countOcc_app_le false
                    (styleOpen ++ styleInner cfg ++ styleClose)
                    (before m ++ (c0 :: o'))
                    (c ++ cl0 ++ [r; e; ">"%char] ++ after m)) as H2.
      change ("<"%char :: L "style>" ++ styleInner cfg ++ styleClose)
        with (styleOpen ++ styleInner cfg ++ styleClose) in H1.
      rewrite <- !app_assoc in H2. rewrite <- !app_assoc in Hs.
      rewrite <- Hs in H2. lia. }
    rewrite Hg, Hm. unfold codeBlockReplacer. cbn [groupText].
    destruct (includes (L "<") c && includes (L ">") c).
    + replace ((before m ++ ((c0 :: o') ++ c ++ cl0 ++ [r; e; ">"%char]) ++
                preview c) ++ out')
        with (((before m ++ (c0 :: o') ++ c ++ cl0) ++ [r; e; ">"%char]) ++
              preview c ++ out')
        by (now rewrite <- !app_assoc).
      rewrite (countOcc_after_gt _ free) by exact Hr. rewrite Hx.
      cbn [Nat.add]. unfold preview.
      replace ((previewHead ++ c ++ previewTail) ++ out')
        with ((firstn 249 previewHead ++ ["i"%char; "v"%char; ">"%char]) ++
              c ++ "<"%char :: (L "/div>
                </d" ++ ["i"%char; "v"%char; ">"%char]) ++ out')
        by (now rewrite <- !app_assoc).
      rewrite (countOcc_after_gt _ free) by discriminate.
      rewrite (countOcc_before_lt _ free) by reflexivity.
      rewrite Hc.
      change ("<"%char :: (L "/div>
                </d" ++ ["i"%char; "v"%char; ">"%char]) ++ out')
        with ((L "</div>
                </d" ++ ["i"%char; "v"%char; ">"%char]) ++ out').
      rewrite (countOcc_after_gt _ free) by discriminate.
      rewrite Hout'.
      pose proof (concrete_free (firstn 249 previewHead ++ ["i"%char; "v"%char; ">"%char])) as H1.
      pose proof (concrete_free (L "</div>
                </d" ++ ["i"%char; "v"%char; ">"%char])) as H2.
      rewrite styleBlock_shape in H1, H2.
      rewrite H1, H2 by (vm_compute; reflexivity). reflexivity.
    + replace ((before m ++ (c0 :: o') ++ c ++ cl0 ++ [r; e; ">"%char]) ++ out')
        with (((before m ++ (c0 :: o') ++ c ++ cl0) ++ [r; e; ">"%char]) ++ out')
        by (now rewrite <- !app_assoc).
      rewrite (countOcc_after_gt _ free) by exact Hr.
      rewrite Hx, Hout'. reflexivity.
  - rewrite replaceRegex_none in Hout by exact E. now injection Hout as <-.
Qed.

Lemma renderIf_keeps_free (s out : str) :
  countOcc false (styleBlock cfg) s = 0 ->
  renderIf cfg s = Some out ->
  countOcc false (styleBlock cfg) out = 0.
Proof.
  unfold renderIf. destruct (renderCodeBlocks cfg).
  - apply render_keeps_free.
  - intros H E. now injection E as <-.
Qed.

(** The element in the shell, around a body without it. *)
Lemma wrapped_once (body : str) :
  countOcc false (styleBlock cfg) body = 0 ->
  countOcc false (styleBlock cfg) (wrapped cfg body) = 1.
Proof.
  intros Hbody. unfold wrapped. rewrite generateCSS_block.
  replace (shellHead ++ (indent ++ styleBlock cfg) ++ shellMid ++ body ++
           shellTail)
    with ((shellHead ++ indent) ++ styleBlock cfg ++ shellMid ++
          (body ++ newline) ++ "<"%char :: L "/body>
</html>")
    by (now rewrite <- !app_assoc).
  rewrite skip_concrete by (vm_compute; reflexivity).
  rewrite styleBlock_shape in *.
  rewrite (countOcc_self _ free).
  pose proof (skip_concrete shellMid) as Hs. rewrite styleBlock_shape in Hs.
  rewrite Hs by (vm_compute; reflexivity).
  rewrite (countOcc_before_lt _ free) by reflexivity.
  rewrite (countOcc_no_gt (styleInner cfg))
    by (cbn; intuition discriminate).
  pose proof (concrete_free (L "</body>
</html>")) as H1. rewrite styleBlock_shape in H1.
  rewrite Hbody.
  change ("<"%char :: L "/body>
</html>") with (L "</body>
</html>").
  rewrite H1 by (vm_compute; reflexivity). reflexivity.
Qed.

(** The element in front of [</head>], between two texts without it. *)
Lemma spliced_once (ra rb : str) :
  countOcc false (styleBlock cfg) ra = 0 ->
  countOcc false (styleBlock cfg) rb = 0 ->
  countOcc false (styleBlock cfg)
    (ra ++ generateCSS cfg ++ newline ++ headClose ++ rb) = 1.
Proof.
  intros Ha Hb. rewrite generateCSS_block.
  pose proof (skip_concrete (newline ++ headClose) rb) as Hs.
  rewrite styleBlock_shape in *.
  replace (ra ++ (indent ++ styleOpen ++ styleInner cfg ++ styleClose) ++
           newline ++ headClose ++ rb)
    with ((ra ++ indent) ++ "<"%char ::
          (L "style>" ++ styleInner cfg ++ styleClose) ++
          (newline ++ headClose) ++ rb)
    by (now rewrite <- !app_assoc).
  rewrite (countOcc_before_lt _ free) by reflexivity.
  rewrite (countOcc_no_gt (styleInner cfg)) by (cbn; intuition discriminate).
  change ("<"%char :: (L "style>" ++ styleInner cfg ++ styleClose) ++
          (newline ++ headClose) ++ rb)
    with ((styleOpen ++ styleInner cfg ++ styleClose) ++
          (newline ++ headClose) ++ rb).
  rewrite (countOcc_self _ free).
  rewrite Hs by (vm_compute; reflexivity). lia.
Qed.

End Count.

(** *** The code blocks of a spliced document *)

Lemma no_open_into (x : str) (y0 : ascii) (y : str) :
  countOcc true openTags x = 0 ->
  forallb (fun p => negb (cmp true p y0)) openTags = true ->
  everySuffix (fun s => stripPrefix true openTags s = None) x (y0 :: y).
Proof.
  intros Hx Hy x1 c x2 E. cbv beta.
  change (c :: x2 ++ y0 :: y) with ((c :: x2) ++ y0 :: y).
  apply stripPrefix_none_ext; [exact Hy|].
  apply (countOcc_zero_suffix true "<"%char (L "pre><code>") x x1);
    [exact Hx | exact E].
Qed.

Lemma css_no_closeTags (cfg : config) (b : str) :
  countOcc true closeTags b = 0 ->
  countOcc true closeTags (generateCSS cfg ++ newline ++ headClose ++ b) = 0.
Proof.
  intros Hb.
  rewrite countOcc_skip.
  - rewrite app_assoc, countOcc_skip; [exact Hb|].
    apply noStartB_sound. vm_compute. reflexivity.
  - apply (generateCSS_noStart true "<"%char (L "/code></pre>"));
      [vm_compute; reflexivity|].
    intros c Hc. now apply digit_not_cmp.
Qed.

(** When the first [</head>] does not stand in a code block (no block is
    left open in front of it, or no closing tags follow it), the code blocks
    of the spliced document are those of its two parts. *)
Lemma render_spliced (cfg : config) (a b : str) :
  leftOpen a = false \/ countOcc true closeTags b = 0 ->
  exists ra rb,
    renderHTMLCodeBlocks a = Some ra /\
    renderHTMLCodeBlocks b = Some rb /\
    renderHTMLCodeBlocks (spliced cfg a b) = Some (spliced cfg ra rb).
Proof.
  intros [Ha|Hb].
  - apply leftOpen_false in Ha.
    destruct (render_split (generateCSS cfg ++ newline ++ headClose ++ b) a)
      as (ra & ry & Hra & Hry & Hboth).
    { change (generateCSS cfg ++ newline ++ headClose ++ b)
        with (ascii_of_nat 10 ::
              tl (generateCSS cfg) ++ newline ++ headClose ++ b).
      apply no_open_into; [exact Ha | reflexivity]. }
    unfold renderHTMLCodeBlocks in Hry.
    replace (generateCSS cfg ++ newline ++ headClose ++ b)
      with ((generateCSS cfg ++ newline ++ headClose) ++ b) in Hry
      by (now rewrite <- !app_assoc).
    rewrite replaceRegex_skip in Hry.
    + fold (renderHTMLCodeBlocks b) in Hry.
      destruct (renderHTMLCodeBlocks b) as [rb|]; [|discriminate Hry].
      cbn [option_map] in Hry.
      assert (Ey : ry = (generateCSS cfg ++ newline ++ headClose) ++ rb)
        by congruence.
      exists ra, rb. split; [exact Hra|]. split; [reflexivity|].
      unfold spliced. rewrite Hboth, Ey. now rewrite <- !app_assoc.
    + apply no_open_no_match. apply everySuffix_app.
      * apply generateCSS_no_openTags.
      * apply noStartB_sound. vm_compute. reflexivity.
  - destruct (renderHTMLCodeBlocks_total a) as (ra & Hra).
    exists ra, b. split; [exact Hra|]. split.
    + apply replaceRegex_none.
      now apply (LiteralFacts.exec_needs_literal closeTags).
    + unfold spliced.
      change (generateCSS cfg ++ newline ++ headClose ++ b)
        with (ascii_of_nat 10 ::
              tl (generateCSS cfg) ++ newline ++ headClose ++ b).
      rewrite render_no_close, Hra; [reflexivity | reflexivity | reflexivity|].
      change (ascii_of_nat 10 ::
              tl (generateCSS cfg) ++ newline ++ headClose ++ b)
        with (generateCSS cfg ++ newline ++ headClose ++ b).
      now apply css_no_closeTags.
Qed.

Lemma renderIf_spliced (cfg : config) (a b : str) :
  (renderCodeBlocks cfg = true ->
   leftOpen a = false \/ countOcc true closeTags b = 0) ->
  exists ra rb,
    renderIf cfg a = Some ra /\
    renderIf cfg b = Some rb /\
    renderIf cfg (spliced cfg a b) = Some (spliced cfg ra rb).
Proof.
  unfold renderIf. destruct (renderCodeBlocks cfg).
  - intros H. apply render_spliced. now apply H.
  - intros _. exists a, b. auto.
Qed.

(** *** The claim *)

(** Exactly one style element fails on two kinds of input.  A document
    that an earlier run produced holds the generated element already and
    comes out with two.  And in a complete document whose first [</head>]
    stands in a code block, the element is spliced into the code, and the
    preview of that block repeats it. *)
Lemma style_block_twice :
  (countOcc false (styleBlock defaultConfig) (wrapped defaultConfig fragment)
     = 1 /\
   option_map (countOcc false (styleBlock defaultConfig))
     (processHTMLContent (wrapped defaultConfig fragment) defaultConfig)
     = Some 2) /\
  (countOcc false (styleBlock defaultConfig) codeShowsHead = 0 /\
   hasShell codeShowsHead = true /\
   option_map (countOcc false (styleBlock defaultConfig))
     (processHTMLContent codeShowsHead defaultConfig) = Some 2).
Proof. repeat split; vm_compute; reflexivity. Qed.

(** C3 (as amended): take any settings and an input that, after the
    centering fix, does not already hold the style element that these
    settings generate.  When the three tags of the shell are not all found,
    the output is the shell around the input with its previews, and it holds
    the generated element exactly once.  When they are found and the text
    holds [</head>], whose first occurrence does not stand in a code block
    that gets a preview (previews are off, or no attribute-free
    [<pre><code>] is left open in front of it, or no closing tags follow
    it), the output is the text in front of that [</head>], the generated
    text, a line feed and the rest, each part with its own previews, and it
    holds the generated element exactly once. *)
Theorem style_block_exactly_once (html fixed : str) (cfg : config) :
  fixCenteringIssues html = Some fixed ->
  countOcc false (styleBlock cfg) fixed = 0 ->
  (hasShell fixed = false ->
   exists body,
     renderIf cfg fixed = Some body /\
     processHTMLContent html cfg = Some (wrapped cfg body) /\
     countOcc false (styleBlock cfg) (wrapped cfg body) = 1) /\
  (forall a b,
     hasShell fixed = true ->
     indexOf headClose fixed = Some (a, b) ->
     (renderCodeBlocks cfg = true ->
      leftOpen a = false \/ countOcc true closeTags b = 0) ->
     exists ra rb,
       renderIf cfg a = Some ra /\
       renderIf cfg b = Some rb /\
       processHTMLContent html cfg = Some (spliced cfg ra rb) /\
       countOcc false (styleBlock cfg) (spliced cfg ra rb) = 1).
Proof.
  intros Hfix Hfree. split.
  - intros Hshell.
    destruct (renderIf_total cfg fixed) as (body & Hbody).
    exists body. split; [exact Hbody|]. split.
    + rewrite (processHTMLContent_eq _ _ _ Hfix).
      rewrite (injectStyle_fragment cfg fixed Hshell), renderIf_wrapped.
      now rewrite Hbody.
    + apply wrapped_once. exact (renderIf_keeps_free cfg _ _ Hfree Hbody).
  - intros a b Hshell Hidx Hcode.
    pose proof (indexOf_sound _ _ _ _ Hidx) as Hsplit.
    destruct (renderIf_spliced cfg a b Hcode) as (ra & rb & Hra & Hrb & Hboth).
    exists ra, rb. split; [exact Hra|]. split; [exact Hrb|]. split.
    + rewrite (processHTMLContent_eq _ _ _ Hfix).
      rewrite (injectStyle_complete cfg fixed Hshell).
      now rewrite (splice_complete cfg fixed a b Hidx).
    + assert (Ha : countOcc false (styleBlock cfg) a = 0).
      { pose proof (countOcc_app_le_l false "<"%char
                      (L "style>" ++ styleInner cfg ++ styleClose) a
                      (headClose ++ b)) as Hle.
        change ("<"%char :: L "style>" ++ styleInner cfg ++ styleClose)
          with (styleOpen ++ styleInner cfg ++ styleClose) in Hle.
        rewrite <- styleBlock_shape, <- Hsplit in Hle. lia. }
      assert (Hb : countOcc false (styleBlock cfg) b = 0).
      { pose proof (countOcc_app_le false (styleBlock cfg)
                      (a ++ headClose) b) as Hle.
        rewrite <- app_assoc, <- Hsplit in Hle. lia. }
      apply spliced_once.
      * exact (renderIf_keeps_free cfg _ _ Ha Hra).
      * exact (renderIf_keeps_free cfg _ _ Hb Hrb).
Qed.

(** A fragment and a complete document that bring a style element of their
    own, the document with a code block in its body. *)
Lemma style_block_exactly_once_witness :
  (exists body,
     renderIf defaultConfig ownStyleFragment = Some body /\
     processHTMLContent ownStyleFragment defaultConfig =
       Some (wrapped defaultConfig body) /\
     countOcc false (styleBlock defaultConfig) (wrapped defaultConfig body)
       = 1) /\
  (exists ra rb,
     renderIf defaultConfig ownStyleHead = Some ra /\
     renderIf defaultConfig ownStyleBody = Some rb /\
     processHTMLContent ownStyleDocument defaultConfig =
       Some (spliced defaultConfig ra rb) /\
     countOcc false (styleBlock defaultConfig) (spliced defaultConfig ra rb)
       = 1).
Proof.
  split.
  - destruct (style_block_exactly_once ownStyleFragment ownStyleFragment
                defaultConfig) as [H _].
    + vm_compute. reflexivity.
    + vm_compute. reflexivity.
    + apply H. vm_compute. reflexivity.
  - destruct (style_block_exactly_once ownStyleDocument ownStyleDocument
                defaultConfig) as [_ H].
    + vm_compute. reflexivity.
    + vm_compute. reflexivity.
    + apply H.
      * vm_compute. reflexivity.
      * vm_compute. reflexivity.
      * intros _. left. vm_compute. reflexivity.
Defined.

End StyleExactlyOnce.

(** ** What the centering fix removes *)

Module WrapperFacts.
Import StringFacts RegexFacts Converter ProcessFacts CenteringFacts.

Lemma passesTests_unstyled (r : removal) :
  passesTests r -> unstyledAndCentred r.
Proof.
  destruct r as [t|o w1 c w2 cl]; [trivial|].
  cbn [passesTests unstyledAndCentred]. intros [H1 H2]. split; [|exact H2].
  unfold hasMinimalStyling in H1. unfold literalStyle.
  destruct (includes (L "style=") _); [|reflexivity].
  destruct (includes (L "style=" ++ dq ++ dq) _); [reflexivity|].
  destruct (includes (L "style=''") _); [reflexivity | discriminate H1].
Qed.

(** That only an unstyled container around a single child is removed fails
    on two kinds of input.  A wrapper with class
    [content] is removed although it carries a style of its own: the first
    pass does not look at it.  And what is put in the place of a wrapper
    need not be a single child: the captured text runs on to the first
    [</div>] behind which, after blanks, a further [</div>] follows. *)
Lemma wrappers_removed :
  (fixCenteringIssues styledContentWrapper = Some centredChild /\
   includes (L "style=" ++ dq ++ L "border:1px solid red" ++ dq)
     styledContentWrapper = true) /\
  fixCenteringIssues threeChildrenWrapper = Some threeChildren.
Proof. repeat split; vm_compute; reflexivity. Qed.

(** C5 (as amended): [fixCenteringIssues] changes its input in two passes,
    and only by putting a captured text in the place of a wrapper: an
    opening [div] tag, blanks, the captured text, blanks and [</div>].  The
    captured text is kept as it stands; it begins with a [div] whose [style]
    attribute holds [margin ... auto] and ends with a [</div>], and may hold
    further elements in between.  In the first pass the opening tag of a
    removed wrapper holds [class="content"], whatever else it holds, a style
    included.  In the second pass no wrapper is removed whose text carries
    [style=] with a value, and none whose captured text lacks [margin:] or
    lacks both [auto] and [center].  All other text is kept. *)
Theorem fixCentering_unwraps (html : str) :
  exists first second : list removal,
    Forall (wrapperShape contentTagPattern) first /\
    html = flat_map removalSource first /\
    Forall (wrapperShape anyTagPattern) second /\
    Forall unstyledAndCentred second /\
    flat_map removalOutput first = flat_map removalSource second /\
    fixCenteringIssues html = Some (flat_map removalOutput second).
Proof.
  destruct (fixCentering_pieces html)
    as (first & second & H1 & H2 & H3 & H4 & H5 & H6).
  exists first, second. repeat split; try assumption.
  eapply Forall_impl; [|exact H4]. apply passesTests_unstyled.
Qed.

End WrapperFacts.

(** ** processHTMLContent always returns *)

Module TotalFacts.
Import StringFacts RegexFacts StyleFacts Converter ProcessFacts ShellFacts.
Import RenderFacts CenteringFacts.

(** The pieces of a text for [renderHTMLCodeBlocks]. *)
Lemma render_pieces (s : str) :
  exists ps : list piece,
    Forall literalTags ps /\
    s = flat_map pieceSource ps /\
    renderHTMLCodeBlocks s = Some (flat_map pieceOutput ps).
Proof.
  remember (length s) as n eqn:Hn. revert s Hn.
  induction n as [n IH] using lt_wf_ind. intros s ->.
  destruct (exec codeBlockPattern s) as [m|] eqn:E.
  - destruct (exec_sound _ _ _ E) as (Hs & Hsem & _).
    destruct (codeBlock_sem _ _ _ Hsem) as (o & c & cl & Hm & Hg & Ho & Hcl).
    destruct (stripPrefix_nonempty _ _ _ _ Ho) as (c0 & o' & ->).
    destruct (IH (length (after m))) with (s := after m)
      as (ps & Hps & Hsrc & Hout); [|reflexivity|].
    { rewrite Hs, Hm, !length_app. simpl. lia. }
    exists (Plain (before m) :: Block (c0 :: o') c cl :: ps).
    split; [|split].
    + repeat constructor; auto.
    + cbn [flat_map pieceSource]. rewrite <- Hsrc, <- Hm. exact Hs.
    + unfold renderHTMLCodeBlocks in *.
      rewrite (replaceRegex_step _ _ _ _ c0 (o' ++ c ++ cl) E)
        by (rewrite Hm; reflexivity).
      rewrite Hout. cbn [option_map flat_map pieceOutput].
      rewrite Hg, Hm, codeBlockReplacer_piece. cbn [pieceOutput].
      now rewrite <- !app_assoc.
  - exists [Plain s]. split; [|split].
    + repeat constructor.
    + simpl. now rewrite app_nil_r.
    + simpl. rewrite app_nil_r. now apply replaceRegex_none.
Qed.

(** C4 (the code differs): [processHTMLContent] returns a string for every
    input and every configuration.  The input is cut into kept text and
    wrappers, of which the captured text stays (the centering fix, in two
    passes); the result of that is cut into plain text and code blocks; and
    when one of the three tests for the tags of the shell fails on it, the
    output is the shell with the style block around these pieces, each code
    block followed by its preview when previews are asked for.  So nothing
    of such a text is lost, and it is wrapped.  But a partial document can
    pass the three tests: the test for [<head>] takes the [<header>] of a
    document that has no head.  Such a document is taken for complete, no
    [</head>] is found in it, and it comes back as it was, without shell
    and without style. *)
Theorem processHTMLContent_returns (html : str) (cfg : config) :
  (exists (first second : list removal) (ps : list piece) (out : str),
     Forall (wrapperShape contentTagPattern) first /\
     html = flat_map removalSource first /\
     Forall (wrapperShape anyTagPattern) second /\
     flat_map removalOutput first = flat_map removalSource second /\
     Forall literalTags ps /\
     flat_map removalOutput second = flat_map pieceSource ps /\
     processHTMLContent html cfg = Some out /\
     (hasShell (flat_map pieceSource ps) = false ->
      out = wrapped cfg
              (flat_map (if renderCodeBlocks cfg then pieceOutput
                         else pieceSource) ps))) /\
  hasShell headerDocument = true /\
  hasHead (L "<header>") = true /\
  processHTMLContent headerDocument cfg = Some headerDocument.
Proof.
  split; [|split; [|split]].
  - destruct (fixCentering_pieces html)
      as (first & second & H1 & H2 & H3 & _ & H5 & H6).
    destruct (render_pieces (flat_map removalOutput second))
      as (ps & Hps & Hsrc & Hren).
    destruct (renderIf_total cfg (injectStyle cfg (flat_map removalOutput second)))
      as (out & Hout).
    exists first, second, ps, out.
    split; [exact H1|]. split; [exact H2|]. split; [exact H3|].
    split; [exact H5|]. split; [exact Hps|]. split; [exact Hsrc|].
    rewrite (processHTMLContent_eq _ _ _ H6). split; [exact Hout|].
    rewrite <- Hsrc. intros Hshell.
    rewrite (injectStyle_fragment cfg _ Hshell), renderIf_wrapped in Hout.
    unfold renderIf in Hout.
    destruct (renderCodeBlocks cfg).
    + rewrite Hren in Hout. cbn [option_map] in Hout. congruence.
    + cbn [option_map] in Hout. rewrite <- Hsrc. congruence.
  - vm_compute. reflexivity.
  - vm_compute. reflexivity.
  - unfold processHTMLContent.
    replace (fixCenteringIssues headerDocument) with (Some headerDocument)
      by (vm_compute; reflexivity).
    replace (injectStyle cfg headerDocument) with headerDocument.
    + destruct (renderCodeBlocks cfg); [vm_compute|]; reflexivity.
    + unfold injectStyle.
      replace (hasHTML headerDocument) with true by (vm_compute; reflexivity).
      replace (hasHead headerDocument) with true by (vm_compute; reflexivity).
      replace (hasBody headerDocument) with true by (vm_compute; reflexivity).
      cbn [negb orb]. unfold replaceString.
      replace (indexOf (L "</head>") headerDocument) with (@None (str * str))
        by (vm_compute; reflexivity).
      reflexivity.
Qed.

End TotalFacts.
